(** * postpal: the Zola post lifecycle (internal/zola)

    A shallow embedding of [internal/zola/service.go] and
    [internal/zola/processor.go]: the image classifier, the markup
    transformer, the title extractor, the front-matter builder, the post
    directory resolver and the create / edit / delete operations, followed by
    the properties of the specification that concern them. *)

From Stdlib Require Import ZArith List String Ascii Lia Bool.
From Stdlib.Strings Require Import Byte.
From Stdlib Require Import DecimalString.
From Stdlib Require DecimalPos.
From stdpp Require Import gmap strings list fin_maps sorting.
From stdpp Require Import options.

Local Open Scope Z_scope.

(** ** Bytes and byte buffers *)

(** Go's [[]byte]: a list of bytes. [at_byte data i b] is [data[i] == b] on
    an index the guards of the source keep in range. *)
Definition at_byte (data : list byte) (i : nat) (b : byte) : bool :=
  match nth_error data i with
  | Some c => Byte.eqb c b
  | None => false
  end.

(** [data[lo:hi]] for [lo <= hi <= len(data)]. *)
Definition slice (data : list byte) (lo hi : nat) : list byte :=
  firstn (hi - lo) (skipn lo data).

(** ** The image classifier: [getImageFormat] *)

Definition getImageFormat (data : list byte) : string :=
  if (length data <? 4)%nat then "jpg"
  else if (4 <=? length data)%nat && at_byte data 0 xff && at_byte data 1 xd8
          && at_byte data 2 xff then "jpg"
  else if (8 <=? length data)%nat && at_byte data 0 x89 && at_byte data 1 x50
          && at_byte data 2 x4e && at_byte data 3 x47 then "png"
  else if (6 <=? length data)%nat && at_byte data 0 x47 && at_byte data 1 x49
          && at_byte data 2 x46 then "gif"
  else if (12 <=? length data)%nat && at_byte data 0 x52 && at_byte data 1 x49
          && at_byte data 2 x46 && at_byte data 3 x46 then
    if (12 <=? length data)%nat
       && String.eqb (string_of_list_byte (slice data 8 12)) "WEBP"
    then "webp" else "jpg"
  else "jpg".

(** The buffers of service_test.go. *)
Definition createJPEGBytes : list byte :=
  [xff; xd8; xff; xe0; x00; x10; x4a; x46; x49; x46].

Definition createPNGBytes : list byte :=
  [x89; x50; x4e; x47; x0d; x0a; x1a; x0a].

(** ** Strings

    A Go [string] is a sequence of bytes; it is modelled by [string], whose
    characters are the bytes. *)

Definition LF : ascii := "010"%char.
Definition DQ : ascii := "034"%char.
Definition BACKSLASH : ascii := "092"%char.
Definition str1 (c : ascii) : string := String c EmptyString.

Definition ascii_is (c : ascii) (b : byte) : bool :=
  Byte.eqb (byte_of_ascii c) b.

(** [strip_prefix p s] is [Some rest] when [s = p ++ rest]. *)
Fixpoint strip_prefix (p s : string) : option string :=
  match p with
  | EmptyString => Some s
  | String a p' =>
      match s with
      | String b s' => if Ascii.eqb a b then strip_prefix p' s' else None
      | EmptyString => None
      end
  end.

(** [strings.HasPrefix]. *)
Definition strings_HasPrefix (s p : string) : bool :=
  match strip_prefix p s with Some _ => true | None => false end.

(** [strings.Contains]. *)
Fixpoint strings_Contains (s sub : string) : bool :=
  strings_HasPrefix s sub ||
  match s with
  | EmptyString => false
  | String _ s' => strings_Contains s' sub
  end.

(** The text of [s] up to the suffix [rest]: [s[:len(s)-len(rest)]]. *)
Fixpoint take_string (n : nat) (s : string) : string :=
  match n, s with
  | S n', String c s' => String c (take_string n' s')
  | _, _ => EmptyString
  end.

Definition consumed (s rest : string) : string :=
  take_string (String.length s - String.length rest) s.

(** [strings.ReplaceAll(s, old, new)] for a non-empty [old] (every call of
    the program passes a non-empty literal or placeholder): the occurrences
    of [old] are replaced from left to right, without overlap. [skip] counts
    the bytes of an occurrence that remain to be stepped over. *)
Fixpoint replace_from (skip : nat) (s old new : string) : string :=
  match s with
  | EmptyString => EmptyString
  | String c s' =>
      match skip with
      | S n => replace_from n s' old new
      | O =>
          match old, strip_prefix old s with
          | String _ old', Some _ =>
              new +:+ replace_from (String.length old') s' old new
          | _, _ => String c (replace_from O s' old new)
          end
      end
  end.

Definition strings_ReplaceAll (s old new : string) : string :=
  replace_from O s old new.

(** [strings.Split(s, sep)] for a non-empty one-byte separator, as in
    [strings.Split(ids, ",")] and [strings.Split(name, ".")]: the pieces
    between the separators, one more than there are separators. *)
Fixpoint split_on (sep : ascii) (cur : string) (s : string) : list string :=
  match s with
  | EmptyString => [cur]
  | String c s' =>
      if Ascii.eqb c sep then cur :: split_on sep EmptyString s'
      else split_on sep (cur +:+ String c EmptyString) s'
  end.

Definition strings_Split (s : string) (sep : ascii) : list string :=
  split_on sep EmptyString s.

Definition string_rev (s : string) : string :=
  string_of_list_ascii (rev (list_ascii_of_string s)).

(** [strings.TrimRight(s, "\n")]. *)
Fixpoint drop_while (p : ascii -> bool) (s : string) : string :=
  match s with
  | EmptyString => EmptyString
  | String c s' => if p c then drop_while p s' else s
  end.

Definition strings_TrimRight_LF (s : string) : string :=
  string_rev (drop_while (fun c => Ascii.eqb c LF) (string_rev s)).

(** [strings.TrimSpace] removes the leading and trailing white space of
    Unicode: the six ASCII spaces, U+0085, U+00A0, U+1680, U+2000 to U+200A,
    U+2028, U+2029, U+202F, U+205F and U+3000 in their UTF-8 encoding.
    [space_width s] is the width in bytes of such a character at the head of
    [s], or [0]. *)
Definition ascii_space (c : ascii) : bool :=
  ascii_is c x09 || ascii_is c x0a || ascii_is c x0b || ascii_is c x0c
  || ascii_is c x0d || ascii_is c x20.

(** U+0085 and U+00A0 are [C2 85] and [C2 A0]. *)
Definition unicode_space2 (c1 c2 : ascii) : bool :=
  ascii_is c1 xc2 && (ascii_is c2 x85 || ascii_is c2 xa0).

(** U+1680 is [E1 9A 80]; U+2000 to U+200A, U+2028, U+2029 and U+202F are
    [E2 80 80] to [E2 80 8A], [E2 80 A8], [E2 80 A9] and [E2 80 AF]; U+205F
    is [E2 81 9F]; U+3000 is [E3 80 80]. *)
Definition unicode_space3 (c1 c2 c3 : ascii) : bool :=
  ascii_is c1 xe1 && ascii_is c2 x9a && ascii_is c3 x80
  || ascii_is c1 xe2 && ascii_is c2 x80
     && ((128 <=? nat_of_ascii c3)%nat && (nat_of_ascii c3 <=? 138)%nat
         || ascii_is c3 xa8 || ascii_is c3 xa9 || ascii_is c3 xaf)
  || ascii_is c1 xe2 && ascii_is c2 x81 && ascii_is c3 x9f
  || ascii_is c1 xe3 && ascii_is c2 x80 && ascii_is c3 x80.

Definition space_width (s : string) : nat :=
  match s with
  | EmptyString => O
  | String c1 s1 =>
      if ascii_space c1 then 1%nat
      else
        match s1 with
        | EmptyString => O
        | String c2 s2 =>
            if unicode_space2 c1 c2 then 2%nat
            else
              match s2 with
              | EmptyString => O
              | String c3 _ => if unicode_space3 c1 c2 c3 then 3%nat else O
              end
        end
  end.

(** The same on the reversed string: the width of a white-space character
    at the end of the original one, that is, the last byte if it is an ASCII
    space, or the last two or three bytes if they encode one of the other
    spaces. *)
Definition space_width_rev (r : string) : nat :=
  match r with
  | EmptyString => O
  | String c1 r1 =>
      if ascii_space c1 then 1%nat
      else
        match r1 with
        | EmptyString => O
        | String c2 r2 =>
            if unicode_space2 c2 c1 then 2%nat
            else
              match r2 with
              | EmptyString => O
              | String c3 _ => if unicode_space3 c3 c2 c1 then 3%nat else O
              end
        end
  end.

Fixpoint trim_spaces (width : string -> nat) (skip : nat) (s : string)
  : string :=
  match s with
  | EmptyString => EmptyString
  | String c s' =>
      match skip with
      | S n => trim_spaces width n s'
      | O =>
          match width s with
          | O => s
          | S n => trim_spaces width n s'
          end
      end
  end.

Definition strings_TrimSpace (s : string) : string :=
  let l := trim_spaces space_width O s in
  string_rev (trim_spaces space_width_rev O (string_rev l)).

(** ** 64-bit integers

    Go's [int64] is a [Z] in [-2^63, 2^63); subtraction and negation wrap. *)
Definition wrap64 (z : Z) : Z := (z + 2 ^ 63) mod 2 ^ 64 - 2 ^ 63.
Definition in_int64 (z : Z) : Prop := - 2 ^ 63 <= z < 2 ^ 63.
Definition sub64 (a b : Z) : Z := wrap64 (a - b).
Definition neg64 (a : Z) : Z := wrap64 (- a).

(** [abs] of service.go. *)
Definition abs (x : Z) : Z := if x <? 0 then neg64 x else x.

(** [strconv.FormatInt(i, 10)], also the [%d] verb of [fmt.Sprintf]. *)
Definition FormatInt (i : Z) : string := NilZero.string_of_int (Z.to_int i).

(** [strconv.ParseInt(s, 10, 64)]: an optional sign, then one or more
    decimal digits; a value outside [int64] is a range error. [None] stands
    for a non-nil error. *)
Definition digit_val (c : ascii) : option Z :=
  let n := Z.of_nat (nat_of_ascii c) in
  if (48 <=? n) && (n <=? 57) then Some (n - 48) else None.

Fixpoint parse_digits (s : string) (acc : Z) : option Z :=
  match s with
  | EmptyString => Some acc
  | String c s' =>
      match digit_val c with
      | Some d => parse_digits s' (10 * acc + d)
      | None => None
      end
  end.

Definition ParseUint (s : string) : option Z :=
  match s with
  | EmptyString => None
  | _ => parse_digits s 0
  end.

Definition ParseInt (s : string) : option Z :=
  match s with
  | EmptyString => None
  | String c s' =>
      let neg := ascii_is c x2d in
      let digits := if ascii_is c x2b || neg then s' else s in
      match ParseUint digits with
      | None => None
      | Some un =>
          if negb neg && (2 ^ 63 <=? un) then None
          else if neg && (2 ^ 63 <? un) then None
          else Some (if neg then - un else un)
      end
  end.

(** [string(rune(n))]: [n] is narrowed to the 32-bit [rune] and encoded in
    UTF-8; a surrogate or a value outside Unicode becomes U+FFFD. *)
Definition wrap32 (z : Z) : Z := (z + 2 ^ 31) mod 2 ^ 32 - 2 ^ 31.

Definition byte_char (z : Z) : ascii := ascii_of_N (Z.to_N z).

Definition utf8_of_rune (r : Z) : string :=
  let cont x := byte_char (Z.lor 128 (Z.land x 63)) in
  if (r <? 0) || (1114111 <? r) || ((55296 <=? r) && (r <=? 57343)) then
    String (byte_char 239) (String (byte_char 191) (String (byte_char 189)
      EmptyString))
  else if r <=? 127 then String (byte_char r) EmptyString
  else if r <=? 2047 then
    String (byte_char (Z.lor 192 (Z.shiftr r 6))) (String (cont r) EmptyString)
  else if r <=? 65535 then
    String (byte_char (Z.lor 224 (Z.shiftr r 12)))
      (String (cont (Z.shiftr r 6)) (String (cont r) EmptyString))
  else
    String (byte_char (Z.lor 240 (Z.shiftr r 18)))
      (String (cont (Z.shiftr r 12))
        (String (cont (Z.shiftr r 6)) (String (cont r) EmptyString))).

Definition string_of_rune (n : Z) : string := utf8_of_rune (wrap32 n).

(** ** Regular expressions

    The four expressions of processor.go are built from literals, byte
    classes, a lazy star and a greedy plus over a class, an optional group
    and the multi-line end of line. Go's [regexp] returns the leftmost match
    and, among those, the one a backtracking search finds first; [rmatch] is
    that search, in continuation-passing style. The expressions have ASCII
    literals only, so matching bytes and matching UTF-8 characters agree. *)
Inductive regex : Type :=
| RLit (l : string)
| RClass (p : ascii -> bool)
| RSeq (r1 r2 : regex)
| ROpt (r : regex)
| RStarLazy (p : ascii -> bool)
| RPlus (p : ascii -> bool)
| RGroup (r : regex)
| REol.

Fixpoint lazy_star {R : Type} (p : ascii -> bool) (s : string)
    (k : string -> option R) : option R :=
  match k s with
  | Some x => Some x
  | None =>
      match s with
      | String c s' => if p c then lazy_star p s' k else None
      | EmptyString => None
      end
  end.

Fixpoint greedy_star {R : Type} (p : ascii -> bool) (s : string)
    (k : string -> option R) : option R :=
  match s with
  | String c s' =>
      if p c then
        match greedy_star p s' k with
        | Some x => Some x
        | None => k s
        end
      else k s
  | EmptyString => k s
  end.

Definition greedy_plus {R : Type} (p : ascii -> bool) (s : string)
    (k : string -> option R) : option R :=
  match s with
  | String c s' => if p c then greedy_star p s' k else None
  | EmptyString => None
  end.

(** [(?m)$]: the end of the text or the position before a newline. *)
Definition at_eol (s : string) : bool :=
  match s with
  | EmptyString => true
  | String c _ => Ascii.eqb c LF
  end.

(** The captures are the texts of the groups, in the order they close. *)
Fixpoint rmatch (r : regex) (s : string) (caps : list string)
    (k : string -> list string -> option (string * list string))
  : option (string * list string) :=
  match r with
  | RLit l =>
      match strip_prefix l s with
      | Some s' => k s' caps
      | None => None
      end
  | RClass p =>
      match s with
      | String c s' => if p c then k s' caps else None
      | EmptyString => None
      end
  | RSeq r1 r2 => rmatch r1 s caps (fun s' caps' => rmatch r2 s' caps' k)
  | ROpt r1 =>
      match rmatch r1 s caps k with
      | Some x => Some x
      | None => k s caps
      end
  | RStarLazy p => lazy_star p s (fun s' => k s' caps)
  | RPlus p => greedy_plus p s (fun s' => k s' caps)
  | RGroup r1 =>
      rmatch r1 s caps (fun s' caps' => k s' (caps' ++ [consumed s s']))
  | REol => if at_eol s then k s caps else None
  end.

(** A match of [r] at the head of [s]: the rest of [s] and the captures. *)
Definition match_at (r : regex) (s : string) : option (string * list string) :=
  rmatch r s [] (fun s' caps => Some (s', caps)).

(** The leftmost match: the matched text and its captures. *)
Fixpoint find_match (r : regex) (s : string) : option (string * list string) :=
  match match_at r s with
  | Some (rest, caps) => Some (consumed s rest, caps)
  | None =>
      match s with
      | String _ s' => find_match r s'
      | EmptyString => None
      end
  end.

(** [Regexp.FindString]: the text of the leftmost match, or the empty string. *)
Definition FindString (r : regex) (s : string) : string :=
  match find_match r s with
  | Some (m, _) => m
  | None => EmptyString
  end.

(** [Regexp.FindStringSubmatch(s)[i]] for a group [i >= 1] that took
    part in the match. *)
Definition FindStringSubmatch (r : regex) (s : string) (i : nat) : string :=
  match find_match r s with
  | Some (_, caps) => nth (i - 1) caps EmptyString
  | None => EmptyString
  end.

(** The replacement loop of [regexp]: the matches are found from left to
    right, without overlap, and each is replaced by what [f] returns for its
    text and captures. [f] may update a state of the enclosing function.
    None of the expressions matches the empty string; such a match would
    leave the byte in place. *)
Fixpoint replace_matches {St : Type} (r : regex)
    (f : string -> list string -> St -> string * St) (skip : nat)
    (s : string) (st : St) : string * St :=
  match s with
  | EmptyString => (EmptyString, st)
  | String c s' =>
      match skip with
      | S n => replace_matches r f n s' st
      | O =>
          match match_at r s with
          | Some (rest, caps) =>
              match (String.length s - String.length rest)%nat with
              | S n =>
                  let '(out, st1) := f (consumed s rest) caps st in
                  let '(t, st2) := replace_matches r f n s' st1 in
                  (out +:+ t, st2)
              | O =>
                  let '(t, st1) := replace_matches r f O s' st in
                  (String c t, st1)
              end
          | None =>
              let '(t, st1) := replace_matches r f O s' st in
              (String c t, st1)
          end
      end
  end.

(** [Regexp.ReplaceAllStringFunc]: the callback sees the matched text. *)
Definition ReplaceAllStringFunc (r : regex) (f : string -> string)
    (s : string) : string :=
  fst (replace_matches r (fun m _ (_ : unit) => (f m, tt)) O s tt).

(** [Regexp.ReplaceAllString] with a template; [expand] is the template
    applied to the captures of the match. *)
Definition ReplaceAllString (r : regex) (expand : list string -> string)
    (s : string) : string :=
  fst (replace_matches r (fun _ caps (_ : unit) => (expand caps, tt)) O s tt).

(** ** processor.go *)

Definition any_char (c : ascii) : bool := true.
Definition not_newline (c : ascii) : bool := negb (Ascii.eqb c LF).

(** [\s] of Go's syntax: tab, newline, form feed, carriage return, space. *)
Definition re_space (c : ascii) : bool :=
  ascii_is c x09 || ascii_is c x0a || ascii_is c x0c || ascii_is c x0d
  || ascii_is c x20.

Definition hex_digit (c : ascii) : bool :=
  let n := nat_of_ascii c in
  ((48 <=? n) && (n <=? 57) || (97 <=? n) && (n <=? 102)
   || (65 <=? n) && (n <=? 70))%nat.

(** [<code>([\s\S]*?)</code>] *)
Definition codeRegex : regex :=
  RSeq (RLit "<code>") (RSeq (RGroup (RStarLazy any_char)) (RLit "</code>")).

(** [<pre><code class=QUOTE language-(.*?) QUOTE>([\s\S]*?)</code></pre>],
    where QUOTE is the double quote [DQ] (no space around it). *)
Definition codeBlockRegex : regex :=
  RSeq (RLit ("<pre><code class=" +:+ String DQ "language-"))
    (RSeq (RGroup (RStarLazy not_newline))
      (RSeq (RLit (String DQ ">"))
        (RSeq (RGroup (RStarLazy any_char)) (RLit "</code></pre>")))).

(** [<blockquote>([\s\S]*?)</blockquote>] *)
Definition blockquoteRegex : regex :=
  RSeq (RLit "<blockquote>")
    (RSeq (RGroup (RStarLazy any_char)) (RLit "</blockquote>")).

(** [<spoiler>([\s\S]*?)</spoiler>] *)
Definition spoilerRegex : regex :=
  RSeq (RLit "<spoiler>")
    (RSeq (RGroup (RStarLazy any_char)) (RLit "</spoiler>")).

(** [(?m)(\s\s\n)?0x[0-9a-fA-F]+\n?$] *)
Definition addressRegex : regex :=
  RSeq (ROpt (RGroup (RSeq (RClass re_space)
                        (RSeq (RClass re_space) (RLit (str1 LF))))))
    (RSeq (RLit "0x")
      (RSeq (RPlus hex_digit) (RSeq (ROpt (RLit (str1 LF))) REol))).

(** The callback of the first replacement of [ProcessContent]. *)
Definition escape_code (m : string) : string :=
  let codeContent := FindStringSubmatch codeRegex m 1 in
  let escapedCodeContent := strings_ReplaceAll codeContent "<" "&lt;" in
  let escapedCodeContent := strings_ReplaceAll escapedCodeContent ">" "&gt;" in
  "<code>" +:+ escapedCodeContent +:+ "</code>".

(** The callback of the second one. Its state is [codeIndex] and the map
    [codeBlockPlaceholders]. *)
Definition placeholder_of (codeIndex : Z) : string :=
  "___CODEBLOCK_" +:+ string_of_rune (65 + codeIndex) +:+ "___".

Definition extract_block (m : string) (st : Z * gmap string string)
  : string * (Z * gmap string string) :=
  let '(codeIndex, codeBlockPlaceholders) := st in
  let language := FindStringSubmatch codeBlockRegex m 1 in
  let codeContent :=
    strings_TrimRight_LF (FindStringSubmatch codeBlockRegex m 2) in
  let markdownCodeBlock :=
    "```" +:+ language +:+ str1 LF +:+ codeContent +:+ str1 LF +:+ "```" in
  let placeholder := placeholder_of codeIndex in
  (placeholder,
   (codeIndex + 1, <[placeholder := markdownCodeBlock]> codeBlockPlaceholders)).

(** The callback of the third one. *)
Definition join_blockquote (m : string) : string :=
  let blockquoteContent := FindStringSubmatch blockquoteRegex m 1 in
  let blockquoteContent := strings_ReplaceAll blockquoteContent (str1 LF) "<br>" in
  "<blockquote>" +:+ blockquoteContent +:+ "</blockquote>".

(** [ProcessContent] up to the loop over the map: the content with the
    placeholders in it, and the map. *)
Definition extract_stage (content : string) : string * gmap string string :=
  let content := ReplaceAllStringFunc codeRegex escape_code content in
  let '(content, (_, codeBlockPlaceholders)) :=
    replace_matches codeBlockRegex (fun m _ st => extract_block m st) O
      content (0, ∅) in
  let content := ReplaceAllStringFunc blockquoteRegex join_blockquote content in
  let content := strings_ReplaceAll content (str1 LF) ("  " +:+ str1 LF) in
  let content :=
    strings_ReplaceAll content ("  " +:+ str1 LF +:+ "  " +:+ str1 LF)
      ("  " +:+ str1 LF +:+ str1 LF) in
  (content, codeBlockPlaceholders).

(** The body of [for placeholder, codeBlock := range codeBlockPlaceholders]
    run over the entries in the order [entries]. *)
Definition reinsert (entries : list (string * string)) (content : string)
  : string :=
  foldl (fun c e => strings_ReplaceAll c e.1 e.2) content entries.

(** The template [<span class=QUOTE spoiler QUOTE>$1</span>]. *)
Definition spoiler_span (caps : list string) : string :=
  "<span class=" +:+ String DQ "spoiler" +:+ String DQ ">"
  +:+ nth 0 caps EmptyString +:+ "</span>".

(** Go leaves the iteration order of a map unspecified and randomises it.
    [order] is the order one run of the loop takes: it lists the entries of
    the map. [ProcessContentIn order] is [ProcessContent] in a run whose
    loop follows [order]. *)
Definition ProcessContentIn
    (order : gmap string string -> list (string * string))
    (content : string) : string :=
  if decide (content = EmptyString) then EmptyString
  else
    let '(content, codeBlockPlaceholders) := extract_stage content in
    let content := reinsert (order codeBlockPlaceholders) content in
    ReplaceAllString spoilerRegex spoiler_span content.

Definition iteration_order
    (order : gmap string string -> list (string * string)) : Prop :=
  forall m, order m ≡ₚ map_to_list m.

(** [ProcessContent content] may return [out]. *)
Definition ProcessContent (content out : string) : Prop :=
  exists order, iteration_order order /\ out = ProcessContentIn order content.

(** [ExtractTitle] *)
Definition ExtractTitle (content channelID : string) : string :=
  if decide (content = EmptyString) then channelID
  else
    let m := FindString addressRegex content in
    if decide (m <> EmptyString) then
      let address := strings_TrimSpace m in
      channelID +:+ " [" +:+ address +:+ "]"
    else channelID.

(** [RemoveAddressPattern] *)
Definition RemoveAddressPattern (content : string) : string :=
  ReplaceAllString addressRegex (fun _ => EmptyString) content.

(** [time.Time], by the fields its RFC 3339 rendering shows; [offset] is
    the zone offset in seconds east of UTC. *)
Record Time : Type := mkTime {
  year : Z; month : Z; day : Z; hour : Z; minute : Z; second : Z;
  offset : Z
}.

(** [appendInt(b, x, width)] of package time: decimal, zero-padded. *)
Definition pad_int (width : nat) (x : Z) : string :=
  let digits := NilZero.string_of_uint (N.to_uint (Z.to_N (Z.abs x))) in
  let zeros :=
    string_of_list_ascii
      (repeat "0"%char (width - String.length digits)) in
  (if x <? 0 then "-" else EmptyString) +:+ zeros +:+ digits.

(** [t.Format(time.RFC3339)], layout [2006-01-02T15:04:05Z07:00]. The zone
    is the offset in minutes, by Go's division, which truncates. *)
Definition Format_RFC3339 (t : Time) : string :=
  let zone := Z.quot (offset t) 60 in
  pad_int 4 (year t) +:+ "-" +:+ pad_int 2 (month t) +:+ "-"
  +:+ pad_int 2 (day t) +:+ "T" +:+ pad_int 2 (hour t) +:+ ":"
  +:+ pad_int 2 (minute t) +:+ ":" +:+ pad_int 2 (second t)
  +:+ (if offset t =? 0 then "Z"
       else (if zone <? 0 then "-" else "+")
            +:+ pad_int 2 (Z.abs zone / 60) +:+ ":"
            +:+ pad_int 2 (Z.abs zone mod 60)).

(** [Post] *)
Record Post : Type := mkPost {
  ID : Z;
  Title : string;
  Content : string;
  Date : Time;
  ImageNames : list string
}.

(** The loop of [BuildFrontMatter] over [post.ImageNames]; [i] is the index
    of the head of [names]. *)
Fixpoint write_images (i : nat) (names : list string) : string :=
  match names with
  | [] => EmptyString
  | imgName :: rest =>
      (if (0 <? i)%nat then ", " else EmptyString)
      +:+ str1 DQ +:+ imgName +:+ str1 DQ +:+ write_images (S i) rest
  end.

(** [BuildFrontMatter] *)
Definition BuildFrontMatter (post : Post) : string :=
  "+++" +:+ str1 LF
  +:+ "title = " +:+ str1 DQ
  +:+ strings_ReplaceAll (Title post) (str1 DQ) ("\" +:+ str1 DQ)
  +:+ str1 DQ +:+ str1 LF
  +:+ "date = "
  +:+ Format_RFC3339 (Date post)
  +:+ str1 LF +:+ str1 LF
  +:+ (if (0 <? length (ImageNames post))%nat then
         "[extra]" +:+ str1 LF
         +:+ "images = ["
         +:+ write_images O (ImageNames post)
         +:+ "]" +:+ str1 LF
       else EmptyString)
  +:+ "+++" +:+ str1 LF +:+ str1 LF.

(** ** The posts directory

    What the service sees of the file system: the directory [postsDir], its
    loose files and its sub-directories with the files in them. [None] is a
    [postsDir] that does not exist yet. The model has no I/O faults: a call
    fails only for the shape of the tree (a missing directory, a file where
    a directory is expected). *)
Inductive entry : Type :=
| File (content : list byte)
| Dir (files : gmap string (list byte)).

Definition FS : Type := option (gmap string entry).

(** The system errors the tree can give, [syscall.Errno], with their
    texts. *)
Inductive oserror : Type := ENOENT | ENOTDIR | EISDIR | ENOTEMPTY.

Definition errno_text (e : oserror) : string :=
  match e with
  | ENOENT => "no such file or directory"
  | ENOTDIR => "not a directory"
  | EISDIR => "is a directory"
  | ENOTEMPTY => "directory not empty"
  end.

(** [os.IsNotExist] looks at the system error an error of package os
    holds. *)
Definition os_IsNotExist (e : oserror) : bool :=
  match e with ENOENT => true | _ => false end.

(** Package os returns a system error as a [*PathError]: the operation, the
    path the call was given, and the system error. [PathError_Error] is its
    method [Error], [Op + " " + Path + ": " + Err.Error()]. The operation is
    [open] for [os.ReadDir] and [os.WriteFile], which fail when they open
    the path, and [mkdir] for [os.MkdirAll]: so it is on Linux with Go 1.25,
    for which the Dockerfile of the repository builds. *)
Record PathError : Type := mkPathError {
  Op : string;
  Path : string;
  Err : oserror
}.

Definition PathError_Error (e : PathError) : string :=
  Op e +:+ " " +:+ Path e +:+ ": " +:+ errno_text (Err e).

(** A path below [postsDir], as [filepath.Join] builds it from plain names. *)
Inductive path : Type :=
| Top (name : string)
| Sub (dir name : string).

Definition string_le (a b : string) : Prop := String.leb a b = true.

Global Instance string_le_dec (a b : string) : Decision (string_le a b) :=
  decide (String.leb a b = true).

(** The names of a directory as [os.ReadDir] returns them: sorted. *)
Definition sorted_names {A : Type} (m : gmap string A) : list string :=
  merge_sort string_le (map fst (map_to_list m)).

(** [os.MkdirAll(postsDir)] *)
Definition os_MkdirAll_posts (fs : FS) : oserror + FS :=
  match fs with
  | None => inr (Some ∅)
  | Some m => inr (Some m)
  end.

(** [os.MkdirAll(filepath.Join(postsDir, dir))] *)
Definition os_MkdirAll (dir : string) (fs : FS) : oserror + FS :=
  let m := default ∅ fs in
  match m !! dir with
  | None => inr (Some (<[dir := Dir ∅]> m))
  | Some (Dir _) => inr (Some m)
  | Some (File _) => inl ENOTDIR
  end.

(** [os.WriteFile(filepath.Join(postsDir, p), data, 0644)] *)
Definition os_WriteFile (p : path) (data : list byte) (fs : FS)
  : oserror + FS :=
  match fs with
  | None => inl ENOENT
  | Some m =>
      match p with
      | Top name =>
          match m !! name with
          | Some (Dir _) => inl EISDIR
          | _ => inr (Some (<[name := File data]> m))
          end
      | Sub dir name =>
          match m !! dir with
          | None => inl ENOENT
          | Some (File _) => inl ENOTDIR
          | Some (Dir d) => inr (Some (<[dir := Dir (<[name := data]> d)]> m))
          end
      end
  end.

(** [os.ReadDir(postsDir)] *)
Definition os_ReadDir_posts (fs : FS) : oserror + list string :=
  match fs with
  | None => inl ENOENT
  | Some m => inr (sorted_names m)
  end.

(** [os.ReadDir(filepath.Join(postsDir, dir))] *)
Definition os_ReadDir (dir : string) (fs : FS) : oserror + list string :=
  match fs with
  | None => inl ENOENT
  | Some m =>
      match m !! dir with
      | None => inl ENOENT
      | Some (File _) => inl ENOTDIR
      | Some (Dir d) => inr (sorted_names d)
      end
  end.

(** [os.RemoveAll(filepath.Join(postsDir, dir))]: no error for a path that
    does not exist. On the tree of the model it has no error at all, so the
    [*PathError] of this call is never made. *)
Definition os_RemoveAll (dir : string) (fs : FS) : oserror + FS :=
  match fs with
  | None => inr None
  | Some m => inr (Some (delete dir m))
  end.

(** [os.Remove(filepath.Join(postsDir, name))]: a file or an empty
    directory. *)
Definition os_Remove (name : string) (fs : FS) : oserror + FS :=
  match fs with
  | None => inl ENOENT
  | Some m =>
      match m !! name with
      | None => inl ENOENT
      | Some (File _) => inr (Some (delete name m))
      | Some (Dir d) =>
          if decide (d = ∅) then inr (Some (delete name m))
          else inl ENOTEMPTY
      end
  end.

(** [filepath.Clean] on Unix: the shortest path that names the same file
    by the text alone. Of the elements between separators, an empty one and
    [.] are dropped, [..] removes the element before it, at the root it is
    dropped, and at the head of a relative path it stays; the result of an
    empty path or of nothing left is [.]. [out] holds the elements kept so
    far, the last one first. *)
Definition clean_elem (rooted : bool) (out : list string) (elem : string)
  : list string :=
  if decide (elem = EmptyString) then out
  else if decide (elem = ".") then out
  else if decide (elem = "..") then
    match out with
    | last :: rest => if decide (last = "..") then elem :: out else rest
    | [] => if rooted then [] else [elem]
    end
  else elem :: out.

Definition filepath_Clean (path : string) : string :=
  if decide (path = EmptyString) then "."
  else
    let rooted := strings_HasPrefix path "/" in
    let out := fold_left (clean_elem rooted) (strings_Split path "/"%char) [] in
    let cleaned := String.concat "/" (rev out) in
    if rooted then "/" +:+ cleaned
    else if decide (cleaned = EmptyString) then "." else cleaned.

(** [filepath.Join]: the elements from the first non-empty one on, joined
    by the separator and cleaned; the empty string when there is none. *)
Fixpoint filepath_Join (elem : list string) : string :=
  match elem with
  | [] => EmptyString
  | e :: rest =>
      if decide (e = EmptyString) then filepath_Join rest
      else filepath_Clean (String.concat "/" elem)
  end.

Global Arguments filepath_Join : simpl never.

(** [filepath.IsAbs] on Unix. *)
Definition filepath_IsAbs (path : string) : bool := strings_HasPrefix path "/".

(** ** The version-control collaborator *)

(** The service holds a [*git.Service] of package [internal/git] and calls
    three of its methods: [Add], [Remove] and [CommitAndPush]. Each of them
    opens the repository and works through the go-git library, and
    [CommitAndPush] pushes over the network; the sources have the calls of
    the library, not the library. So the three methods are the operations of
    a class, and the theorems are stated for every instance of it: a call
    reads the working tree, returns [Some] error text or [None], and moves
    the repository to a new state. The methods as the package has them are
    [git.Add], [git.Remove] and [git.CommitAndPush] below, and [gitService]
    is the instance they make.

    The class fixes one thing: a call leaves the posts directory as it is.
    [Add] and [CommitAndPush] write to the store of the repository only. For
    [Remove] this is what the theorems on [DeletePost] assume: go-git
    unstages a file and deletes it from the working tree, and [DeletePost]
    calls [Remove] on a path after its own removal of that path. *)
Class GitService (G : Type) : Type := {
  git_Add : string -> FS -> G -> option string * G;
  git_Remove : string -> FS -> G -> option string * G;
  git_CommitAndPush : string -> FS -> G -> option string * G
}.

(** An instance for the concrete runs below: a repository that opens
    without error and keeps the list of the changes staged since the last
    commit. [Add] stages the path; the service calls it on a file it has
    just written, so the [file does not exist] of the source is not met.
    [Remove] stages the removal, also where go-git would refuse a path it
    does not track, an error [DeletePost] drops. [CommitAndPush] returns the
    [no changes to commit] of [Commit] when nothing is staged and empties
    the list otherwise. The errors of go-git and of the network are left
    out. The instance serves to run the operations on concrete inputs:
    the theorems are stated for every instance of the class. *)
Inductive staged : Type :=
| StagedAdd (p : string)
| StagedRemove (p : string).

Global Instance index_git : GitService (list staged) := {
  git_Add p _ g := (None, g ++ [StagedAdd p]);
  git_Remove p _ g := (None, g ++ [StagedRemove p]);
  git_CommitAndPush _ _ g :=
    match g with
    | [] => (Some "no changes to commit", g)
    | _ => (None, [])
    end
}.

(** ** service.go *)

(** [error]: [None] is [nil]. [fmt.Errorf(ctx + ": %w", err)] puts the
    context before the text of [err]. *)
Definition wrap_error (ctx e : string) : string := ctx +:+ ": " +:+ e.

Record Service : Type := mkService {
  postsDir : string;
  relPostsDir : string;
  repoDir : string;
  channelID : string;
  exportedDataDir : string
}.

(** The loop of [getEditablePostID] over the directory entries. *)
Definition entry_id (name : string) : option Z :=
  if strings_Contains name "index" then None
  else if strings_Contains name "." then
    ParseInt (hd EmptyString (strings_Split name "."%char))
  else ParseInt name.

Definition collect_ids (entries : list string) : list Z :=
  omap entry_id entries.

(** The loop over [postIDs[1:]]. *)
Fixpoint closest_loop (postID : Z) (ids : list Z) (closestID minDiff : Z)
  : Z :=
  match ids with
  | [] => closestID
  | id :: rest =>
      let diff := abs (sub64 postID id) in
      if diff <? minDiff then closest_loop postID rest id diff
      else closest_loop postID rest closestID minDiff
  end.

Definition closest_id (postID : Z) (postIDs : list Z) : Z :=
  match postIDs with
  | [] => postID
  | first :: rest =>
      closest_loop postID rest first (abs (sub64 postID first))
  end.

(** [getEditablePostID] *)
Definition getEditablePostID (s : Service) (postID : Z) (fs : FS)
  : string + Z :=
  match os_ReadDir_posts fs with
  | inl err =>
      inl (wrap_error "failed to read posts directory"
             (PathError_Error (mkPathError "open" (postsDir s) err)))
  | inr entries => inr (closest_id postID (collect_ids entries))
  end.

(** [getPostImageNames] *)
Definition getPostImageNames (s : Service) (postID : Z) (fs : FS)
  : string + list string :=
  let postDir := filepath_Join [postsDir s; FormatInt postID] in
  match os_ReadDir (FormatInt postID) fs with
  | inl err =>
      if os_IsNotExist err then inr []
      else
        inl (wrap_error "failed to read post directory"
               (PathError_Error (mkPathError "open" postDir err)))
  | inr entries =>
      inr (merge_sort string_le
             (filter (fun name => strings_HasPrefix name "image_" = true)
                entries))
  end.

(** [fmt.Sprintf("image_%d.%s", i, format)] *)
Definition image_name (i : Z) (format : string) : string :=
  "image_" +:+ FormatInt i +:+ "." +:+ format.

(** The operations run on the posts directory and the collaborator. A Go
    function that returns [error] is a function from the world to [Some]
    error text or [None] and the world it leaves; the effects made before an
    error stay. *)
Section Operations.
Context {G : Type} `{GitService G}.

Definition World : Type := FS * G.

Definition M (A : Type) : Type := World -> (string + A) * World.

Definition ret {A : Type} (a : A) : M A := fun w => (inr a, w).

Definition fail {A : Type} (e : string) : M A := fun w => (inl e, w).

Definition bind {A B : Type} (c : M A) (k : A -> M B) : M B :=
  fun w =>
    match c w with
    | (inl e, w') => (inl e, w')
    | (inr a, w') => k a w'
    end.

Notation "'let*' x := c 'in' k" := (bind c (fun x => k))
  (at level 10, x name, c at level 100, k at level 200).
Notation "c ;;; k" := (bind c (fun _ => k))
  (at level 100, k at level 200, right associativity).

(** A file-system call whose error is returned with the context [ctx];
    [perr] makes the [*PathError] of the call from the system error. *)
Definition os_call (ctx : string) (perr : oserror -> PathError)
    (op : FS -> oserror + FS) : M unit :=
  fun w =>
    match op w.1 with
    | inl err => (inl (wrap_error ctx (PathError_Error (perr err))), w)
    | inr fs' => (inr tt, (fs', w.2))
    end.

(** A file-system call whose error is dropped: [_ = os.Remove(...)]. *)
Definition os_try (op : FS -> oserror + FS) : M unit :=
  fun w =>
    match op w.1 with
    | inl _ => (inr tt, w)
    | inr fs' => (inr tt, (fs', w.2))
    end.

(** A read of the file system. *)
Definition os_read {A : Type} (op : FS -> string + A) : M (string + A) :=
  fun w => (inr (op w.1), w).

(** A call of the collaborator whose error is returned with [ctx]. *)
Definition git_call (ctx : string)
    (op : FS -> G -> option string * G) : M unit :=
  fun w =>
    match op w.1 w.2 with
    | (Some err, g') => (inl (wrap_error ctx err), (w.1, g'))
    | (None, g') => (inr tt, (w.1, g'))
    end.

(** A call of the collaborator whose error is dropped. *)
Definition git_try (op : FS -> G -> option string * G) : M unit :=
  fun w => (inr tt, (w.1, (op w.1 w.2).2)).

(** What a Go caller sees: the error and the world. *)
Definition run (c : M unit) (w : World) : option string * World :=
  match c w with
  | (inl e, w') => (Some e, w')
  | (inr _, w') => (None, w')
  end.

Definition path_text (p : path) : string :=
  match p with
  | Top name => name
  | Sub dir name => filepath_Join [dir; name]
  end.

(** The tail shared by [CreatePost] and the content branch of
    [EditPost]: transform the content, derive the title, write the post
    file and stage it. *)
Definition write_post (s : Service)
    (order : gmap string string -> list (string * string))
    (post : Post) (filename : path) : M unit :=
  let processedContent := ProcessContentIn order (Content post) in
  let post :=
    if decide (Title post = EmptyString) then
      mkPost (ID post) (ExtractTitle (Content post) (channelID s))
        (Content post) (Date post) (ImageNames post)
    else post in
  let processedContent := RemoveAddressPattern processedContent in
  let frontMatter := BuildFrontMatter post in
  let postContent := frontMatter +:+ processedContent +:+ str1 LF in
  let postFilePath := filepath_Join [postsDir s; path_text filename] in
  os_call "failed to write post file" (mkPathError "open" postFilePath)
    (os_WriteFile filename (list_byte_of_string postContent)) ;;;
  git_call "failed to add post file to git"
    (git_Add (filepath_Join [relPostsDir s; path_text filename])).

(** The loop of [CreatePost] over [mediaFiles]; [i] is the index of the
    head of [mediaFiles], [names] is [post.ImageNames[i:]]. *)
Fixpoint write_media (s : Service) (postID : Z)
    (mediaFiles : list (list byte)) (names : list string) : M unit :=
  match mediaFiles, names with
  | mediaFile :: rest, imageFilename :: names' =>
      let imagePath :=
        filepath_Join [postsDir s; FormatInt postID; imageFilename] in
      let relImagePath :=
        filepath_Join [relPostsDir s; FormatInt postID; imageFilename] in
      os_call "failed to write image file" (mkPathError "open" imagePath)
        (os_WriteFile (Sub (FormatInt postID) imageFilename) mediaFile) ;;;
      git_call "failed to add image file to git" (git_Add relImagePath) ;;;
      write_media s postID rest names'
  | _, _ => ret tt
  end.

(** [CreatePost] *)
Definition CreatePost (s : Service)
    (order : gmap string string -> list (string * string))
    (post : Post) (mediaFiles : list (list byte)) : M unit :=
  let imageNames :=
    imap (fun i mediaFile =>
            image_name (Z.of_nat i) (getImageFormat mediaFile))
      mediaFiles in
  let post :=
    mkPost (ID post) (Title post) (Content post) (Date post) imageNames in
  let* filename :=
    (if (0 <? length (ImageNames post))%nat then
       let postDir := filepath_Join [postsDir s; FormatInt (ID post)] in
       os_call "failed to create post directory" (mkPathError "mkdir" postDir)
         (os_MkdirAll (FormatInt (ID post))) ;;;
       ret (Sub (FormatInt (ID post)) "index.md")
     else
       os_call "failed to create posts directory"
         (mkPathError "mkdir" (postsDir s)) os_MkdirAll_posts ;;;
       ret (Top (FormatInt (ID post) +:+ ".md"))) in
  write_post s order post filename ;;;
  write_media s (ID post) mediaFiles (ImageNames post).

(** The names [EditPost] gives the images of a post with media when the
    caller seeded [post.ImageNames]. *)
Definition reseed_names (firstImageName : string) (numOfMediaFiles : nat)
  : list string :=
  let parts := strings_Split firstImageName "."%char in
  let format :=
    if (1 <? length parts)%nat then default "jpg" (last parts) else "jpg" in
  map (fun i => image_name (Z.of_nat i) format) (seq 0 numOfMediaFiles).

(** The branch [if post.Content != ""] of [EditPost]; [post.ID] is the
    resolved identifier already. *)
Definition edit_content (s : Service)
    (order : gmap string string -> list (string * string))
    (post : Post) (editablePostID : Z) (imageNames : list string) : M unit :=
  let numOfMediaFiles := length imageNames in
  let post :=
    if (0 <? numOfMediaFiles)%nat then
      mkPost (ID post) (Title post) (Content post) (Date post)
        (match ImageNames post with
         | firstImageName :: _ => reseed_names firstImageName numOfMediaFiles
         | [] => imageNames
         end)
    else post in
  let* filename :=
    (if (0 <? numOfMediaFiles)%nat then
       let postDir := filepath_Join [postsDir s; FormatInt editablePostID] in
       os_call "failed to create post directory" (mkPathError "mkdir" postDir)
         (os_MkdirAll (FormatInt editablePostID)) ;;;
       ret (Sub (FormatInt editablePostID) "index.md")
     else ret (Top (FormatInt editablePostID +:+ ".md"))) in
  write_post s order post filename.

(** The branch [if mediaFile != nil]. *)
Definition edit_media (s : Service) (originalPostID editablePostID : Z)
    (mediaFile : list byte) : M unit :=
  let index := sub64 originalPostID editablePostID in
  let format := getImageFormat mediaFile in
  let imageFilename := image_name index format in
  let imagePath :=
    filepath_Join [postsDir s; FormatInt editablePostID; imageFilename] in
  let relImagePath :=
    filepath_Join [relPostsDir s; FormatInt editablePostID; imageFilename] in
  let postDir := filepath_Join [postsDir s; FormatInt editablePostID] in
  os_call "failed to create post directory" (mkPathError "mkdir" postDir)
    (os_MkdirAll (FormatInt editablePostID)) ;;;
  os_call "failed to write image file" (mkPathError "open" imagePath)
    (os_WriteFile (Sub (FormatInt editablePostID) imageFilename) mediaFile) ;;;
  git_call "failed to add image file to git" (git_Add relImagePath).

(** [EditPost]; [mediaFile] is [None] for a nil slice. *)
Definition EditPost (s : Service)
    (order : gmap string string -> list (string * string))
    (post : Post) (mediaFile : option (list byte)) : M unit :=
  let originalPostID := ID post in
  let* r := os_read (getEditablePostID s (ID post)) in
  match r with
  | inl err => fail (wrap_error "failed to find editable post" err)
  | inr editablePostID =>
      let* r := os_read (getPostImageNames s editablePostID) in
      match r with
      | inl err => fail (wrap_error "failed to get post image names" err)
      | inr imageNames =>
          let post :=
            mkPost editablePostID (Title post) (Content post) (Date post)
              (ImageNames post) in
          (if decide (Content post <> EmptyString) then
             edit_content s order post editablePostID imageNames
           else ret tt) ;;;
          match mediaFile with
          | Some mediaFile =>
              edit_media s originalPostID editablePostID mediaFile
          | None => ret tt
          end
      end
  end.

(** The staged removals of the images of a deleted directory. *)
Fixpoint remove_images (relPostDir : string) (imageNames : list string)
  : M unit :=
  match imageNames with
  | [] => ret tt
  | imageName :: rest =>
      git_try (git_Remove (filepath_Join [relPostDir; imageName])) ;;;
      remove_images relPostDir rest
  end.

(** The body of the loop of [DeletePost] for an identifier that parsed. *)
Definition delete_one (s : Service) (postID : Z) : M unit :=
  let* r := os_read (getPostImageNames s postID) in
  match r with
  | inl _ => ret tt
  | inr imageNames =>
      if (0 <? length imageNames)%nat then
        let postDir := filepath_Join [postsDir s; FormatInt postID] in
        os_call "failed to remove post directory"
          (mkPathError "unlinkat" postDir)
          (os_RemoveAll (FormatInt postID)) ;;;
        let relPostDir := filepath_Join [relPostsDir s; FormatInt postID] in
        git_try (git_Remove (filepath_Join [relPostDir; "index.md"])) ;;;
        remove_images relPostDir imageNames
      else
        let filename := FormatInt postID +:+ ".md" in
        os_try (os_Remove filename) ;;;
        git_try (git_Remove (filepath_Join [relPostsDir s; filename]))
  end.

(** The loop of [DeletePost] over [idList]. *)
Fixpoint delete_loop (s : Service) (idList : list string) : M unit :=
  match idList with
  | [] => ret tt
  | idStr :: rest =>
      let idStr := strings_TrimSpace idStr in
      if decide (idStr = EmptyString) then delete_loop s rest
      else
        match ParseInt idStr with
        | None => fail ("invalid post ID: " +:+ idStr)
        | Some postID => delete_one s postID ;;; delete_loop s rest
        end
  end.

(** [DeletePost] *)
Definition DeletePost (s : Service) (ids : string) : M unit :=
  let idList := strings_Split ids ","%char in
  delete_loop s idList ;;;
  let commitMsg := "Delete post(s): " +:+ ids in
  git_call "failed to commit and push deletion" (git_CommitAndPush commitMsg).

End Operations.

(** ** Package [internal/git]

    The methods of [git.Service] that the post service calls, [Add],
    [Remove] and [CommitAndPush], with [Open], [Commit] and [Push], which
    these call. They open the repository on every call and work through
    go-git. The sources have the calls of go-git, of [os.Stat] on a path of
    the repository and of [filepath.Rel], not what is behind them: those are
    the operations of the class [GoGit]. [R] is the state of the repository
    and of its remote; a call returns [Some] error or [None]. As in
    [GitService], a call leaves the posts directory as it is. [Clone],
    [Pull], [AssignAuthor] and [RepoExists] are not called by the post
    service. *)
Module git.

Record Author : Type := mkAuthor {
  Name : string;
  Email : string
}.

Record Service : Type := mkService {
  repoDir : string;
  repoURL : string;
  branch : string;
  authToken : string;
  author : Author
}.

(** The error of a push: [git.NoErrAlreadyUpToDate] or another one. *)
Inductive push_error : Type :=
| NoErrAlreadyUpToDate
| PushError (text : string).

(** [PlainOpen] of a directory; [Worktree] of the repository; whether
    [os.IsNotExist] holds of the error of [os.Stat]; [filepath.Rel];
    [Add], [Remove], the [IsClean] of [Status] and [Commit] of the work
    tree, the last with the message and the author; [PushContext] with the
    password and the reference specification. *)
Class GoGit (R : Type) : Type := {
  PlainOpen : string -> FS -> R -> option string;
  Repository_Worktree : FS -> R -> option string;
  os_Stat_IsNotExist : string -> FS -> R -> bool;
  filepath_Rel : string -> string -> string + string;
  Worktree_Add : string -> FS -> R -> option string * R;
  Worktree_Remove : string -> FS -> R -> option string * R;
  Worktree_Status_IsClean : FS -> R -> string + bool;
  Worktree_Commit : string -> Author -> FS -> R -> option string * R;
  Repository_PushContext :
    string -> string -> FS -> R -> option push_error * R
}.

Section Methods.
Context {R : Type} `{GoGit R}.

(** [Open] *)
Definition Open (s : Service) (fs : FS) (r : R) : option string :=
  match PlainOpen (repoDir s) fs r with
  | Some err => Some (wrap_error "failed to open repository" err)
  | None => None
  end.

(** [absPath] of [Add] and [Remove]. *)
Definition abs_path (s : Service) (filePath : string) : string :=
  if filepath_IsAbs filePath then filePath
  else filepath_Join [repoDir s; filePath].

(** The loop of [Add] over [filePaths]. *)
Fixpoint add_loop (s : Service) (filePaths : list string) (fs : FS) (r : R)
  : option string * R :=
  match filePaths with
  | [] => (None, r)
  | filePath :: rest =>
      let absPath := abs_path s filePath in
      if os_Stat_IsNotExist absPath fs r then
        (Some ("file does not exist: " +:+ filePath), r)
      else
        match filepath_Rel (repoDir s) absPath with
        | inl err => (Some (wrap_error "failed to get relative path" err), r)
        | inr relPath =>
            match Worktree_Add relPath fs r with
            | (Some err, r') =>
                (Some (wrap_error ("failed to add file " +:+ filePath) err),
                 r')
            | (None, r') => add_loop s rest fs r'
            end
        end
  end.

(** [Add] *)
Definition Add (s : Service) (filePaths : list string) (fs : FS) (r : R)
  : option string * R :=
  if (length filePaths =? 0)%nat then (Some "no file paths provided", r)
  else
    match Open s fs r with
    | Some err => (Some err, r)
    | None =>
        match Repository_Worktree fs r with
        | Some err => (Some (wrap_error "failed to get worktree" err), r)
        | None => add_loop s filePaths fs r
        end
    end.

(** [Remove] *)
Definition Remove (s : Service) (filePath : string) (fs : FS) (r : R)
  : option string * R :=
  match Open s fs r with
  | Some err => (Some err, r)
  | None =>
      match Repository_Worktree fs r with
      | Some err => (Some (wrap_error "failed to get worktree" err), r)
      | None =>
          let absPath := abs_path s filePath in
          match filepath_Rel (repoDir s) absPath with
          | inl err =>
              (Some (wrap_error "failed to get relative path" err), r)
          | inr relPath =>
              match Worktree_Remove relPath fs r with
              | (Some err, r') =>
                  (Some (wrap_error "failed to remove file" err), r')
              | (None, r') => (None, r')
              end
          end
      end
  end.

(** [Commit] *)
Definition Commit (s : Service) (message : string) (fs : FS) (r : R)
  : option string * R :=
  match Open s fs r with
  | Some err => (Some err, r)
  | None =>
      match Repository_Worktree fs r with
      | Some err => (Some (wrap_error "failed to get worktree" err), r)
      | None =>
          match Worktree_Status_IsClean fs r with
          | inl err => (Some (wrap_error "failed to get status" err), r)
          | inr true => (Some "no changes to commit", r)
          | inr false =>
              match Worktree_Commit message (author s) fs r with
              | (Some err, r') =>
                  (Some (wrap_error "failed to commit" err), r')
              | (None, r') => (None, r')
              end
          end
      end
  end.

(** [Push] *)
Definition Push (s : Service) (fs : FS) (r : R) : option string * R :=
  match Open s fs r with
  | Some err => (Some err, r)
  | None =>
      let refSpec :=
        "refs/heads/" +:+ branch s +:+ ":refs/heads/" +:+ branch s in
      match Repository_PushContext (authToken s) refSpec fs r with
      | (Some (PushError err), r') =>
          (Some (wrap_error "failed to push" err), r')
      | (Some NoErrAlreadyUpToDate, r') => (None, r')
      | (None, r') => (None, r')
      end
  end.

(** [CommitAndPush] *)
Definition CommitAndPush (s : Service) (message : string) (fs : FS) (r : R)
  : option string * R :=
  match Commit s message fs r with
  | (Some err, r') => (Some err, r')
  | (None, r') => Push s fs r'
  end.

End Methods.

End git.

(** The collaborator the post service holds, [gitService]: the three
    methods it calls, [Add] with the one path. *)
Definition gitService {R : Type} `{git.GoGit R} (s : git.Service)
  : GitService R := {|
  git_Add p := git.Add s [p];
  git_Remove p := git.Remove s p;
  git_CommitAndPush message := git.CommitAndPush s message
|}.

(** * The vocabulary of the properties *)

Ltac split_ifs :=
  repeat match goal with
         | |- context [if ?c then _ else _] => destruct c eqn:?
         end.

Ltac split_andb :=
  repeat match goal with
         | H : _ && _ = true |- _ =>
             apply andb_prop in H; destruct H
         end.

(** The buffers the classifier recognises, with the lengths it asks for. *)
Definition recognised (data : list byte) : Prop :=
  ((8 <= length data)%nat /\
   exists rest, data = x89 :: x50 :: x4e :: x47 :: rest)
  \/ ((6 <= length data)%nat /\ exists rest, data = x47 :: x49 :: x46 :: rest)
  \/ (exists a b c d rest,
        data = x52 :: x49 :: x46 :: x46 :: a :: b :: c :: d
               :: x57 :: x45 :: x42 :: x50 :: rest).


(** The section the builder writes for a non-empty image list, with [arr]
    between the brackets, and the marker line that closes the front
    matter. *)
Definition extra_section (arr : string) : string :=
  "[extra]" +:+ str1 LF +:+ "images = [" +:+ arr +:+ "]" +:+ str1 LF.

Definition closing_marker : string := "+++" +:+ str1 LF +:+ str1 LF.

(** The lines before it: the opening marker, the title and the date. *)
Definition front_matter_head (post : Post) : string :=
  "+++" +:+ str1 LF
  +:+ "title = " +:+ str1 DQ
  +:+ strings_ReplaceAll (Title post) (str1 DQ) (String BACKSLASH (str1 DQ))
  +:+ str1 DQ +:+ str1 LF
  +:+ "date = " +:+ Format_RFC3339 (Date post) +:+ str1 LF.

(** The posts directory of [TestService_EditPost_FindClosestID]. *)
Definition three_posts : FS :=
  Some (<["100.md" := File []]> (<["105.md" := File []]>
         (<["110.md" := File []]> ∅))).

(** The identifiers of a posts directory in which the distance to the
    requested identifier leaves [int64]. *)
Definition far_posts : FS :=
  Some (<["9223372036854775806.md" := File []]> (<["-1.md" := File []]> ∅)).

Definition blank (idStr : string) : Prop :=
  strings_TrimSpace idStr = EmptyString.

Definition parses (idStr : string) : Prop :=
  is_Some (ParseInt (strings_TrimSpace idStr)).

(** The service of [setupTestService], with the index of staged changes as
    collaborator. *)
Definition test_service : Service :=
  mkService "content/posts" "content/posts" "." "@testchannel" EmptyString.

(** A post with media, [456], and a loose post, [200]. *)
Definition two_posts : @World (list staged) :=
  (Some (<["456" := Dir (<["index.md" := []]>
                          (<["image_0.jpg" := createJPEGBytes]>
                            (<["image_1.png" := createPNGBytes]> ∅)))]>
           (<["200.md" := File []]> ∅)),
   []).

(** The posts directory of [TestService_DeletePost_MultipleIDs]. *)
Definition loose_posts : @World (list staged) :=
  (Some (<["600.md" := File []]> (<["601.md" := File []]>
          (<["602.md" := File []]> ∅))),
   []).

(** The content of the file at a path, if it is there. *)
Definition file_at (p : path) (fs : FS) : option (list byte) :=
  match fs with
  | None => None
  | Some m =>
      match p with
      | Top name =>
          match m !! name with Some (File c) => Some c | _ => None end
      | Sub dir name =>
          match m !! dir with Some (Dir d) => d !! name | _ => None end
      end
  end.

(** The unit [200], created without media. *)
Definition created_200 : @World (list staged) :=
  (run (CreatePost test_service map_to_list
          (mkPost 200 "@testchannel" "Test content"
             (mkTime 2024 1 15 10 30 0 0) [])
          [])
       (None, [])).2.

Definition is_file (m : gmap string entry) (name : string) : Prop :=
  exists c, m !! name = Some (File c).

Definition is_dir (m : gmap string entry) (name : string) : Prop :=
  exists d, m !! name = Some (Dir d).

(** A directory with at least one media file, as [getPostImageNames] sees
    it. *)
Definition has_image (d : gmap string (list byte)) : Prop :=
  exists n, strings_HasPrefix n "image_" = true /\ is_Some (d !! n).

(** No name has both a loose file [name.md] and a directory [name]. *)
Definition no_both (m : gmap string entry) : Prop :=
  forall name, ~ (is_file m (name +:+ ".md") /\ is_dir m name).

(** Every directory, but possibly [x], holds a media file. *)
Definition images_but (x : option string) (m : gmap string entry) : Prop :=
  forall name d, m !! name = Some (Dir d) -> Some name = x \/ has_image d.

Definition shapes_ok (fs : FS) : Prop :=
  match fs with
  | None => True
  | Some m => no_both m /\ images_but None m
  end.

(** The same while the directory [x] is being filled. *)
Definition shapes_ok_but (x : string) (fs : FS) : Prop :=
  match fs with
  | None => False
  | Some m => no_both m /\ images_but (Some x) m /\ is_dir m x
  end.

(** The post [id] has both shapes on disk. *)
Definition both_shapes (id : Z) (fs : FS) : Prop :=
  match fs with
  | None => False
  | Some m => is_file m (FormatInt id +:+ ".md") /\ is_dir m (FormatInt id)
  end.

Definition loose_at (name : string) (fs : FS) : Prop :=
  match fs with
  | None => False
  | Some m => is_file m (name +:+ ".md")
  end.

Definition dir_at (name : string) (fs : FS) : Prop :=
  match fs with
  | None => False
  | Some m => is_dir m name
  end.

(** No condition on the posts directory. *)
Definition any_shape (fs : FS) : Prop := True.

Definition no_dir_at (name : string) (fs : FS) : Prop :=
  shapes_ok fs /\ ~ dir_at name fs.

(** What [EditPost] asks of the posts directory: when a media buffer is
    given, the resolved post is in directory form already. *)
Definition edit_pre (s : Service) (post : Post)
    (mediaFile : option (list byte)) (fs : FS) : Prop :=
  shapes_ok fs
  /\ (mediaFile <> None ->
      forall editablePostID,
        getEditablePostID s (ID post) fs = inr editablePostID ->
        dir_at (FormatInt editablePostID) fs).

(** The state between the two branches of [EditPost]. *)
Definition edit_mid (x : string) (mediaFile : option (list byte)) (fs : FS)
  : Prop :=
  shapes_ok fs /\ (mediaFile <> None -> dir_at x fs).

(** A run of the service: the loose post [200], then the post [456] with
    two media files, then an edit under [457], which resolves to [456],
    with a media buffer. *)
Definition created_456 : @World (list staged) :=
  (run (CreatePost test_service map_to_list
          (mkPost 456 "@testchannel" "Test content with images"
             (mkTime 2024 2 20 15 45 0 0) [])
          [createJPEGBytes; createPNGBytes])
       created_200).2.

Definition edited_456 : @World (list staged) :=
  (run (EditPost test_service map_to_list
          (mkPost 457 EmptyString "Updated content"
             (mkTime 2024 2 21 9 0 0 0) [])
          (Some createPNGBytes))
       created_456).2.

(** An address token, [0x] and one or more hexadecimal digits, and a string
    that ends with one. *)
Fixpoint all_hex (h : string) : bool :=
  match h with
  | EmptyString => true
  | String c h' => hex_digit c && all_hex h'
  end.



Definition address_group : regex :=
  RGroup (RSeq (RClass re_space) (RSeq (RClass re_space) (RLit (str1 LF)))).

Definition address_core : regex :=
  RSeq (RLit "0x")
    (RSeq (RPlus hex_digit) (RSeq (ROpt (RLit (str1 LF))) REol)).

Definition line_end (tail : string) : Prop :=
  tail = EmptyString \/ tail = str1 LF.


(** [s] without its last three bytes when these are a hard line break as
    the address pattern reads it, [\s\s\n]; [s] otherwise. *)
Fixpoint strip_break (s : string) : string :=
  match s with
  | EmptyString => EmptyString
  | String a s' =>
      match s' with
      | String b (String c EmptyString) =>
          if re_space a && re_space b && Ascii.eqb c LF then EmptyString
          else String a (strip_break s')
      | _ => String a (strip_break s')
      end
  end.



(** A fenced block of the input, [<pre><code class=QUOTE language-X
    QUOTE>BODY</code></pre>], and the fenced block of the output. *)
Definition fenced (language body : string) : string :=
  "<pre><code class=" +:+ String DQ "language-" +:+ language
  +:+ String DQ ">" +:+ body +:+ "</code></pre>".

Definition rendered (language body : string) : string :=
  "```" +:+ language +:+ str1 LF +:+ body +:+ str1 LF +:+ "```".

(** Evaluate [ProcessContentIn order input] up to the loop over the map:
    [Hm] then says which entries [order] lists. *)
Ltac run_in_order Horder :=
  match type of Horder with
  | iteration_order ?order =>
      unfold ProcessContentIn;
      destruct (decide _) as [Hempty|_]; [discriminate Hempty|];
      match goal with
      | |- context [extract_stage ?input] =>
          let c := eval vm_compute in (extract_stage input).1 in
          let l := eval vm_compute in (map_to_list (extract_stage input).2) in
          let Hc := fresh "Hc" in
          let Hl := fresh "Hl" in
          assert ((extract_stage input).1 = c) as Hc
            by (vm_compute; reflexivity);
          assert (map_to_list (extract_stage input).2 = l) as Hl
            by (vm_compute; reflexivity);
          pose proof (Horder (extract_stage input).2) as Hm;
          rewrite Hl in Hm;
          destruct (extract_stage input) as [c' m'];
          cbn [fst snd] in Hc, Hm; subst c'
      end
  end.

(** With at most one entry in the map there is one order. *)
Ltac one_order H :=
  first [ apply Permutation_sym, Permutation_nil in H
        | apply Permutation_sym, Permutation_length_1_inv in H ];
  rewrite H; vm_compute; reflexivity.

Section Reach.
Context {G : Type} `{GitService G}.

(** [hoare P c Q E]: from a posts directory with [P], [c] returns a value
    with [Q], or fails and leaves [E]. *)
Definition hoare {A : Type} (P : FS -> Prop) (c : M A)
    (Q : A -> FS -> Prop) (E : FS -> Prop) : Prop :=
  forall w : @World G,
    P w.1 ->
    match c w with
    | (inr a, w') => Q a w'.1
    | (inl _, w') => E w'.1
    end.

(** The worlds the service reaches from an empty store when a post is
    created in one shape only where it does not have the other, a creation
    with media runs to its end, and a media buffer is added only to a post
    that is a directory already. *)
Inductive reachable (s : Service) : @World G -> Prop :=
| reach_absent (g : G) : reachable s (None, g)
| reach_empty (g : G) : reachable s (Some ∅, g)
| reach_create_loose w w' order post r :
    reachable s w ->
    ~ dir_at (FormatInt (ID post)) w.1 ->
    run (CreatePost s order post []) w = (r, w') ->
    reachable s w'
| reach_create_media w w' order post mediaFile rest :
    reachable s w ->
    ~ loose_at (FormatInt (ID post)) w.1 ->
    run (CreatePost s order post (mediaFile :: rest)) w = (None, w') ->
    reachable s w'
| reach_edit w w' order post mediaFile r :
    reachable s w ->
    (mediaFile <> None ->
     forall editablePostID,
       getEditablePostID s (ID post) w.1 = inr editablePostID ->
       dir_at (FormatInt editablePostID) w.1) ->
    run (EditPost s order post mediaFile) w = (r, w') ->
    reachable s w'
| reach_delete w w' ids r :
    reachable s w ->
    run (DeletePost s ids) w = (r, w') ->
    reachable s w'.

End Reach.

(** ** The vocabulary of the further properties *)

(** Every byte of [s] passes the test [p]. *)
Fixpoint all_chars (p : ascii -> bool) (s : string) : bool :=
  match s with
  | EmptyString => true
  | String c s' => p c && all_chars p s'
  end.

(** The bytes [strconv.FormatInt] writes: the digits and the sign. *)
Definition is_digit (c : ascii) : bool :=
  match digit_val c with Some _ => true | None => false end.

Definition id_char (c : ascii) : bool := is_digit c || ascii_is c x2d.

(** A byte other than [a]. *)
Definition differs (a : ascii) (c : ascii) : bool := negb (Ascii.eqb c a).

(** The two replacements [ProcessContent] makes for the line breaks: a
    hard break before every newline, and none on the line left empty
    between two of them. *)
Definition line_breaks (content : string) : string :=
  strings_ReplaceAll
    (strings_ReplaceAll content (str1 LF) ("  " +:+ str1 LF))
    ("  " +:+ str1 LF +:+ "  " +:+ str1 LF) ("  " +:+ str1 LF +:+ str1 LF).

(** An image name between double quotes, as the front matter lists it. *)
Definition quoted (name : string) : string := str1 DQ +:+ name +:+ str1 DQ.

(** The bytes of the post file: the front matter of [post], with the title
    taken from the content when [post] has none, the transformed content
    without the address line, and a newline. *)
Definition post_file (s : Service)
    (order : gmap string string -> list (string * string)) (post : Post)
  : list byte :=
  let title :=
    if decide (Title post = EmptyString)
    then ExtractTitle (Content post) (channelID s) else Title post in
  list_byte_of_string
    (BuildFrontMatter
       (mkPost (ID post) title (Content post) (Date post) (ImageNames post))
     +:+ RemoveAddressPattern (ProcessContentIn order (Content post))
     +:+ str1 LF).

(** The names [CreatePost] gives the media files: [image_<i>.<format>]. *)
Definition created_names (mediaFiles : list (list byte)) : list string :=
  imap (fun i mediaFile => image_name (Z.of_nat i) (getImageFormat mediaFile))
    mediaFiles.

(** [fs'] holds what [fs] holds and possibly more: every entry of [fs] is
    still there, a file as a file, a directory as a directory with at least
    the files it had. *)
Definition kept (e e' : entry) : Prop :=
  match e, e' with
  | File _, File _ => True
  | Dir d, Dir d' => dom d ⊆ dom d'
  | _, _ => False
  end.

Definition grows (fs fs' : FS) : Prop :=
  forall n e, default ∅ fs !! n = Some e ->
    exists e', default ∅ fs' !! n = Some e' /\ kept e e'.

(** [fs'] is [fs] with some entries removed: what it holds, [fs] held with
    the same content, and the posts directory itself is there if and only
    if it was. *)
Definition shrinks (fs fs' : FS) : Prop :=
  default ∅ fs' ⊆ default ∅ fs /\ (is_Some fs' <-> is_Some fs).

(** The posts directory after [_ = os.Remove(...)]: without the entry if it
    could be removed, as it was if not. *)
Definition removed_file (name : string) (fs : FS) : FS :=
  match os_Remove name fs with
  | inr fs' => fs'
  | inl _ => fs
  end.

(** The posts directory of [loose_posts]. *)
Definition loose_dir : gmap string entry :=
  <["600.md" := File []]> (<["601.md" := File []]> (<["602.md" := File []]> ∅)).

(** The directory of the post [456] in [two_posts], and the posts
    directory. *)
Definition media_456 : gmap string (list byte) :=
  <["index.md" := []]>
    (<["image_0.jpg" := createJPEGBytes]>
       (<["image_1.png" := createPNGBytes]> ∅)).

Definition two_dir : gmap string entry :=
  <["456" := Dir media_456]> (<["200.md" := File []]> ∅).

(** A posts directory in which the directory of the post [7] holds its
    text and no image. *)
Definition bare_dir : gmap string entry :=
  <["7" := Dir (<["index.md" := []]> ∅)]> ∅.

(** The posts of the runs below. *)
Definition post_200 : Post :=
  mkPost 200 "@testchannel" "Test content" (mkTime 2024 1 15 10 30 0 0) [].

Definition post_456 : Post :=
  mkPost 456 "@testchannel" "Test content with images"
    (mkTime 2024 2 20 15 45 0 0) [].

(** A posts directory in which the names of two posts are taken by entries
    of the other kind: [456] is a file and [200.md] a directory. *)
Definition taken_dir : gmap string entry :=
  <["456" := File []]> (<["200.md" := Dir ∅]> ∅).

(** An element [<tag>body</tag>] of the content, by the tails [o] and [c]
    of its two tags after their [<]; a spoiler and a quotation, and what
    the spoiler becomes. *)
Definition element (o c body : string) : string :=
  String "<" (o +:+ body +:+ String "<" c).

Definition spoiler (body : string) : string :=
  element "spoiler>" "/spoiler>" body.

Definition blockquote (body : string) : string :=
  element "blockquote>" "/blockquote>" body.

Definition spoiler_rendered (body : string) : string :=
  "<span class=" +:+ String DQ "spoiler" +:+ String DQ ">" +:+ body
  +:+ "</span>".

(** The bytes of a language name that the fenced-block expression reads
    as one: no double quote, no newline, no [<]. *)
Definition language_char (c : ascii) : bool :=
  differs DQ c && differs LF c && differs "<" c.

(** The code point a UTF-8 sequence of one, two or three bytes encodes. *)
Definition byte_val (c : ascii) : Z := Z.of_nat (nat_of_ascii c).

Definition rune_of_utf8 (s : string) : Z :=
  match s with
  | String b1 EmptyString => byte_val b1
  | String b1 (String b2 EmptyString) =>
      (byte_val b1 - 192) * 64 + (byte_val b2 - 128)
  | String b1 (String b2 (String b3 EmptyString)) =>
      (byte_val b1 - 224) * 4096 + (byte_val b2 - 128) * 64
      + (byte_val b3 - 128)
  | _ => 0
  end.

(** * Properties *)

(** ** Paths *)

Example filepath_Join_post_file :
  filepath_Join ["content/posts"; filepath_Join ["456"; "index.md"]]
  = "content/posts/456/index.md".
Proof. reflexivity. Qed.

Example filepath_Join_image :
  filepath_Join ["content/posts"; "456"; "image_0.jpg"]
  = "content/posts/456/image_0.jpg".
Proof. reflexivity. Qed.

Example filepath_Join_cleans :
  filepath_Join ["./site//content/posts/"; "200.md"]
  = "site/content/posts/200.md"
  /\ filepath_Join ["/"; "200"] = "/200"
  /\ filepath_Join [EmptyString; "200"] = "200"
  /\ filepath_Join ["a/b/../.."; ".."] = "..".
Proof. repeat split. Qed.

Example PathError_Error_open :
  PathError_Error (mkPathError "open" "content/posts" ENOENT)
  = "open content/posts: no such file or directory".
Proof. reflexivity. Qed.

(** ** The image classifier *)

Example getImageFormat_jpeg : getImageFormat createJPEGBytes = "jpg".
Proof. reflexivity. Qed.

Example getImageFormat_png : getImageFormat createPNGBytes = "png".
Proof. reflexivity. Qed.

Example getImageFormat_gif :
  getImageFormat [x47; x49; x46; x38; x39; x61] = "gif".
Proof. reflexivity. Qed.

Example getImageFormat_webp :
  getImageFormat [x52; x49; x46; x46; x00; x00; x00; x00; x57; x45; x42; x50]
  = "webp".
Proof. reflexivity. Qed.

Example getImageFormat_empty : getImageFormat [] = "jpg".
Proof. reflexivity. Qed.

Example getImageFormat_unknown : getImageFormat [x00; x01; x02; x03] = "jpg".
Proof. reflexivity. Qed.

Lemma byte_eqb_eq (a b : byte) : Byte.eqb a b = true <-> a = b.
Proof.
  split; [apply Byte.byte_dec_bl | apply Byte.byte_dec_lb].
Qed.

Lemma at_byte_true (data : list byte) (i : nat) (b : byte) :
  at_byte data i b = true <-> nth_error data i = Some b.
Proof.
  unfold at_byte. destruct (nth_error data i) as [c|]; [|split; discriminate].
  rewrite byte_eqb_eq. split; congruence.
Qed.

Lemma getImageFormat_short (data : list byte) :
  (length data < 4)%nat -> getImageFormat data = "jpg".
Proof.
  intros Hlen. unfold getImageFormat.
  destruct (Nat.ltb_spec (length data) 4) as [_|Hge]; [reflexivity | lia].
Qed.

Lemma getImageFormat_jpg_magic (rest : list byte) :
  getImageFormat (xff :: xd8 :: xff :: rest) = "jpg".
Proof.
  unfold getImageFormat.
  destruct (length (xff :: xd8 :: xff :: rest) <? 4)%nat; [reflexivity|].
  destruct (4 <=? length (xff :: xd8 :: xff :: rest))%nat eqn:Hlen.
  - reflexivity.
  - apply Nat.leb_gt in Hlen. simpl in Hlen.
    destruct rest; [reflexivity | simpl in Hlen; lia].
Qed.

Lemma getImageFormat_png_magic (rest : list byte) :
  (4 <= length rest)%nat ->
  getImageFormat (x89 :: x50 :: x4e :: x47 :: rest) = "png".
Proof.
  intros Hlen. unfold getImageFormat.
  replace (length (x89 :: x50 :: x4e :: x47 :: rest))
    with (4 + length rest)%nat by reflexivity.
  destruct (Nat.ltb_spec (4 + length rest) 4); [lia|].
  destruct (Nat.leb_spec 8 (4 + length rest)); [|lia].
  destruct (Nat.leb_spec 4 (4 + length rest)); [|lia].
  reflexivity.
Qed.

Lemma getImageFormat_gif_magic (rest : list byte) :
  (3 <= length rest)%nat ->
  getImageFormat (x47 :: x49 :: x46 :: rest) = "gif".
Proof.
  intros Hlen. unfold getImageFormat.
  replace (length (x47 :: x49 :: x46 :: rest))
    with (3 + length rest)%nat by reflexivity.
  destruct (Nat.ltb_spec (3 + length rest) 4); [lia|].
  destruct (Nat.leb_spec 6 (3 + length rest)); [|lia].
  destruct (Nat.leb_spec 4 (3 + length rest)); [|lia].
  destruct (8 <=? 3 + length rest)%nat; reflexivity.
Qed.

Lemma getImageFormat_webp_magic (a b c d : byte) (rest : list byte) :
  getImageFormat
    (x52 :: x49 :: x46 :: x46 :: a :: b :: c :: d
     :: x57 :: x45 :: x42 :: x50 :: rest) = "webp".
Proof.
  unfold getImageFormat.
  replace (length (x52 :: x49 :: x46 :: x46 :: a :: b :: c :: d
                   :: x57 :: x45 :: x42 :: x50 :: rest))
    with (12 + length rest)%nat by reflexivity.
  destruct (Nat.ltb_spec (12 + length rest) 4); [lia|].
  destruct (Nat.leb_spec 12 (12 + length rest)); [|lia].
  destruct (Nat.leb_spec 4 (12 + length rest)); [|lia].
  destruct (Nat.leb_spec 8 (12 + length rest)); [|lia].
  destruct (Nat.leb_spec 6 (12 + length rest)); [|lia].
  reflexivity.
Qed.

(** Every value of the classifier is one of the four tokens. *)
Lemma getImageFormat_total (data : list byte) :
  getImageFormat data = "jpg" \/ getImageFormat data = "png"
  \/ getImageFormat data = "gif" \/ getImageFormat data = "webp".
Proof.
  unfold getImageFormat.
  repeat match goal with
         | |- context [if ?c then _ else _] => destruct c
         end; auto.
Qed.

(** What a result other than [jpg] tells about the buffer. *)
Lemma getImageFormat_png_inv (data : list byte) :
  getImageFormat data = "png" ->
  (8 <= length data)%nat /\
  exists rest, data = x89 :: x50 :: x4e :: x47 :: rest.
Proof.
  unfold getImageFormat.
  destruct (length data <? 4)%nat; [discriminate|].
  destruct (_ && _ && _ && _); [discriminate|].
  destruct (Nat.leb_spec 8 (length data)) as [Hlen|_]; simpl.
  - destruct (at_byte data 0 x89) eqn:H0; simpl;
      [destruct (at_byte data 1 x50) eqn:H1; simpl;
       [destruct (at_byte data 2 x4e) eqn:H2; simpl;
        [destruct (at_byte data 3 x47) eqn:H3; simpl|]|]|].
    + intros _. split; [exact Hlen|].
      apply at_byte_true in H0, H1, H2, H3.
      destruct data as [|b0 [|b1 [|b2 [|b3 rest]]]]; try discriminate.
      simpl in *. exists rest. congruence.
    + repeat match goal with
             | |- context [if ?c then _ else _] => destruct c
             end; discriminate.
    + repeat match goal with
             | |- context [if ?c then _ else _] => destruct c
             end; discriminate.
    + repeat match goal with
             | |- context [if ?c then _ else _] => destruct c
             end; discriminate.
    + repeat match goal with
             | |- context [if ?c then _ else _] => destruct c
             end; discriminate.
  - repeat match goal with
           | |- context [if ?c then _ else _] => destruct c
           end; discriminate.
Qed.

Lemma getImageFormat_gif_inv (data : list byte) :
  getImageFormat data = "gif" ->
  (6 <= length data)%nat /\ exists rest, data = x47 :: x49 :: x46 :: rest.
Proof.
  unfold getImageFormat. split_ifs; try discriminate. intros _.
  split_andb.
  repeat match goal with
         | H : at_byte _ _ _ = true |- _ => apply at_byte_true in H
         | H : (_ <=? _)%nat = true |- _ => apply Nat.leb_le in H
         end.
  split; [assumption|].
  destruct data as [|b0 [|b1 [|b2 rest]]]; try discriminate.
  simpl in *. exists rest. congruence.
Qed.

Lemma getImageFormat_webp_inv (data : list byte) :
  getImageFormat data = "webp" ->
  exists a b c d rest,
    data = x52 :: x49 :: x46 :: x46 :: a :: b :: c :: d
           :: x57 :: x45 :: x42 :: x50 :: rest.
Proof.
  unfold getImageFormat. split_ifs; try discriminate. intros _.
  split_andb.
  repeat match goal with
         | H : at_byte _ _ _ = true |- _ => apply at_byte_true in H
         | H : (_ <=? _)%nat = true |- _ => apply Nat.leb_le in H
         | H : String.eqb _ _ = true |- _ => apply String.eqb_eq in H
         end.
  destruct data as
    [|b0 [|b1 [|b2 [|b3 [|a [|b [|c [|d [|e0 [|e1 [|e2 [|e3 rest]]]]]]]]]]]];
    simpl in *; try lia.
  exists a, b, c, d, rest.
  match goal with
  | H : string_of_list_byte _ = _ |- _ =>
      apply (f_equal list_byte_of_string) in H;
      rewrite list_byte_of_string_of_list_byte in H;
      unfold slice in H; simpl in H; injection H as -> -> -> ->
  end.
  congruence.
Qed.

(** C3, as the code has it: the JPEG prefix gives [jpg]; the PNG prefix
    gives [png] on a buffer of at least 8 bytes, the GIF prefix [gif] on one
    of at least 6 bytes, RIFF with WEBP at offset 8 [webp]; a buffer shorter
    than 4 bytes and every buffer that is not recognised in this way gives
    [jpg]; the classifier always returns one of the four tokens. *)
Theorem getImageFormat_guarded :
  (forall rest, getImageFormat (xff :: xd8 :: xff :: rest) = "jpg")
  /\ (forall rest, (4 <= length rest)%nat ->
        getImageFormat (x89 :: x50 :: x4e :: x47 :: rest) = "png")
  /\ (forall rest, (3 <= length rest)%nat ->
        getImageFormat (x47 :: x49 :: x46 :: rest) = "gif")
  /\ (forall a b c d rest,
        getImageFormat (x52 :: x49 :: x46 :: x46 :: a :: b :: c :: d
                        :: x57 :: x45 :: x42 :: x50 :: rest) = "webp")
  /\ (forall data, (length data < 4)%nat -> getImageFormat data = "jpg")
  /\ (forall data, ~ recognised data -> getImageFormat data = "jpg")
  /\ (forall data,
        getImageFormat data = "jpg" \/ getImageFormat data = "png"
        \/ getImageFormat data = "gif" \/ getImageFormat data = "webp").
Proof.
  repeat apply conj.
  - apply getImageFormat_jpg_magic.
  - apply getImageFormat_png_magic.
  - apply getImageFormat_gif_magic.
  - apply getImageFormat_webp_magic.
  - apply getImageFormat_short.
  - intros data Hnot.
    destruct (getImageFormat_total data) as [Hj|[Hp|[Hg|Hw]]]; [exact Hj|..];
      exfalso; apply Hnot; unfold recognised.
    + left. by apply getImageFormat_png_inv.
    + right; left. by apply getImageFormat_gif_inv.
    + right; right. by apply getImageFormat_webp_inv.
  - apply getImageFormat_total.
Qed.

Lemma getImageFormat_guarded_witness :
  getImageFormat createPNGBytes = "png"
  /\ getImageFormat [x47; x49; x46; x38; x39; x61] = "gif"
  /\ getImageFormat [x89; x50] = "jpg"
  /\ getImageFormat [x00; x01; x02; x03] = "jpg".
Proof.
  destruct getImageFormat_guarded as (_ & Hpng & Hgif & _ & Hshort & Hnot & _).
  split; [|split; [|split]].
  - apply (Hpng [x0d; x0a; x1a; x0a]). simpl. lia.
  - apply (Hgif [x38; x39; x61]). simpl. lia.
  - apply (Hshort [x89; x50]). simpl. lia.
  - apply (Hnot [x00; x01; x02; x03]).
    intros [[_ [rest Heq]]|[[_ [rest Heq]]|(a & b & c & d & rest & Heq)]];
      discriminate.
Defined.

(** C3, as stated, fails: four bytes that are the PNG signature are
    classified as [jpg]. *)
Lemma getImageFormat_png_signature_alone :
  firstn 4 [x89; x50; x4e; x47] = [x89; x50; x4e; x47]
  /\ getImageFormat [x89; x50; x4e; x47] = "jpg"
  /\ getImageFormat [x89; x50; x4e; x47] <> "png".
Proof. repeat split. discriminate. Qed.

(** ** Strings: appending *)

Lemma sapp_nil_l (s : string) : EmptyString +:+ s = s.
Proof. reflexivity. Qed.

Lemma sapp_cons (c : ascii) (s t : string) :
  String c s +:+ t = String c (s +:+ t).
Proof. reflexivity. Qed.

Lemma sapp_nil_r (s : string) : s +:+ EmptyString = s.
Proof. induction s as [|c s IH]; [reflexivity|]. by rewrite sapp_cons, IH. Qed.

Lemma sapp_assoc (s t u : string) : (s +:+ t) +:+ u = s +:+ (t +:+ u).
Proof.
  induction s as [|c s IH]; [reflexivity|]. by rewrite !sapp_cons, IH.
Qed.

Lemma slength_app (s t : string) :
  String.length (s +:+ t) = (String.length s + String.length t)%nat.
Proof.
  induction s as [|c s IH]; [reflexivity|].
  rewrite sapp_cons. simpl. by rewrite IH.
Qed.

(** Two ways to cut a string into a head and a tail of the same length
    agree. *)
Lemma sapp_inj_length (p q a b : string) :
  p +:+ a = q +:+ b -> String.length a = String.length b -> p = q /\ a = b.
Proof.
  revert q. induction p as [|c p IH]; intros [|d q] Heq Hlen.
  - by rewrite !sapp_nil_l in Heq.
  - exfalso. apply (f_equal String.length) in Heq.
    rewrite sapp_nil_l, slength_app in Heq. simpl in Heq. lia.
  - exfalso. apply (f_equal String.length) in Heq.
    rewrite sapp_nil_l, slength_app in Heq. simpl in Heq. lia.
  - rewrite !sapp_cons in Heq. injection Heq as -> Heq.
    destruct (IH q Heq Hlen) as [-> ->]. done.
Qed.




(** ** The front-matter builder *)

Example BuildFrontMatter_Simple :
  BuildFrontMatter
    (mkPost 123 "Test Post" "Content here" (mkTime 2024 1 15 10 30 0 0) [])
  = "+++" +:+ str1 LF +:+ "title = " +:+ str1 DQ +:+ "Test Post" +:+ str1 DQ
    +:+ str1 LF +:+ "date = 2024-01-15T10:30:00Z" +:+ str1 LF +:+ str1 LF
    +:+ "+++" +:+ str1 LF +:+ str1 LF.
Proof. reflexivity. Qed.

Example BuildFrontMatter_WithImages :
  BuildFrontMatter
    (mkPost 456 "Post with Images" "Content" (mkTime 2024 2 20 15 45 0 0)
       ["image_0.jpg"; "image_1.png"])
  = "+++" +:+ str1 LF +:+ "title = " +:+ str1 DQ +:+ "Post with Images"
    +:+ str1 DQ +:+ str1 LF +:+ "date = 2024-02-20T15:45:00Z" +:+ str1 LF
    +:+ str1 LF +:+ "[extra]" +:+ str1 LF +:+ "images = [" +:+ str1 DQ
    +:+ "image_0.jpg" +:+ str1 DQ +:+ ", " +:+ str1 DQ +:+ "image_1.png"
    +:+ str1 DQ +:+ "]" +:+ str1 LF +:+ "+++" +:+ str1 LF +:+ str1 LF.
Proof. reflexivity. Qed.

Example BuildFrontMatter_EmptyImages :
  strings_Contains
    (BuildFrontMatter
       (mkPost 999 "No Images" "Content" (mkTime 2024 4 10 8 0 0 0) []))
    "[extra]" = false.
Proof. reflexivity. Qed.


Lemma BuildFrontMatter_images (post : Post) :
  ImageNames post <> [] ->
  BuildFrontMatter post
  = front_matter_head post +:+ str1 LF
    +:+ extra_section (write_images O (ImageNames post)) +:+ closing_marker.
Proof.
  intros Hne. unfold BuildFrontMatter, front_matter_head, extra_section.
  destruct (ImageNames post) as [|n names]; [done|].
  replace (0 <? length (n :: names))%nat with true by reflexivity.
  by rewrite !sapp_assoc.
Qed.



(** ** Edit-target resolution *)

Example getEditablePostID_103 :
  getEditablePostID test_service 103 three_posts = inr 105.
Proof. vm_compute. reflexivity. Qed.

Example getEditablePostID_107 :
  getEditablePostID test_service 107 three_posts = inr 105.
Proof. vm_compute. reflexivity. Qed.

(** [TestService_getEditablePostID_FiltersIndex] *)
Example getEditablePostID_FiltersIndex :
  getEditablePostID test_service 702
    (Some (<["700" := Dir (<["index.md" := []]> ∅)]>
             (<["701.md" := File []]> ∅)))
  = inr 701.
Proof. vm_compute. reflexivity. Qed.

Lemma entry_id_index (name : string) :
  strings_Contains name "index" = true -> entry_id name = None.
Proof. intros Hc. unfold entry_id. by rewrite Hc. Qed.

(** With no post on disk the requested identifier comes back, without an
    error. *)
Lemma getEditablePostID_empty_store (s : Service)
    (postID : Z) (m : gmap string entry) :
  collect_ids (sorted_names m) = [] ->
  getEditablePostID s postID (Some m) = inr postID.
Proof. intros Hnil. unfold getEditablePostID. simpl. by rewrite Hnil. Qed.

Lemma sorted_names_empty {A : Type} : sorted_names (∅ : gmap string A) = [].
Proof. unfold sorted_names. by rewrite map_to_list_empty. Qed.

Lemma getEditablePostID_empty_dir (s : Service) (postID : Z) :
  getEditablePostID s postID (Some ∅) = inr postID.
Proof. apply getEditablePostID_empty_store. by rewrite sorted_names_empty. Qed.

(** Where the subtraction does not leave [int64], [abs] of the difference
    is the distance of the two identifiers. *)
Lemma wrap64_small (z : Z) : in_int64 z -> wrap64 z = z.
Proof.
  unfold in_int64, wrap64. intros Hz.
  rewrite Z.mod_small; lia.
Qed.

Lemma abs_sub64 (a b : Z) :
  - 2 ^ 63 < a - b < 2 ^ 63 -> abs (sub64 a b) = Z.abs (a - b).
Proof.
  intros Hd. unfold abs, sub64, neg64.
  rewrite (wrap64_small (a - b)) by (unfold in_int64; lia).
  destruct (Z.ltb_spec (a - b) 0).
  - rewrite wrap64_small by (unfold in_int64; lia). lia.
  - lia.
Qed.

Lemma closest_loop_spec (postID : Z) (ids : list Z) (closestID : Z) :
  (forall id, In id (closestID :: ids) -> - 2 ^ 63 < postID - id < 2 ^ 63) ->
  let r := closest_loop postID ids closestID (Z.abs (postID - closestID)) in
  In r (closestID :: ids)
  /\ forall id, In id (closestID :: ids) ->
       Z.abs (postID - r) <= Z.abs (postID - id).
Proof.
  revert closestID. induction ids as [|id ids IH]; intros closestID Hrange r.
  - subst r. simpl. split; [by left|]. intros id [<-|[]]. lia.
  - subst r. simpl.
    rewrite (abs_sub64 postID id) by (apply Hrange; right; by left).
    destruct (Z.ltb_spec (Z.abs (postID - id)) (Z.abs (postID - closestID)))
      as [Hlt|Hge].
    + destruct (IH id) as [Hin Hmin].
      { intros x Hx. apply Hrange. by right. }
      split.
      * right. exact Hin.
      * intros x [<-|Hx].
        -- specialize (Hmin id (or_introl eq_refl)). lia.
        -- by apply Hmin.
    + destruct (IH closestID) as [Hin Hmin].
      { intros x [<-|Hx]; apply Hrange; [by left | by right; right]. }
      split.
      * destruct Hin as [<-|Hin]; [by left | by right; right].
      * intros x [<-|[<-|Hx]].
        -- apply Hmin. by left.
        -- specialize (Hmin closestID (or_introl eq_refl)). lia.
        -- apply Hmin. by right.
Qed.

(** Away from the ends of [int64], the resolved identifier is one of the
    identifiers on disk and none is nearer to the requested one. *)
Lemma closest_id_nearest (postID : Z) (postIDs : list Z) :
  postIDs <> [] ->
  (forall id, In id postIDs -> - 2 ^ 63 < postID - id < 2 ^ 63) ->
  In (closest_id postID postIDs) postIDs
  /\ forall id, In id postIDs ->
       Z.abs (postID - closest_id postID postIDs) <= Z.abs (postID - id).
Proof.
  intros Hne Hrange. destruct postIDs as [|first rest]; [done|].
  unfold closest_id.
  rewrite abs_sub64 by (apply Hrange; by left).
  by apply closest_loop_spec.
Qed.

Lemma getEditablePostID_nearest (s : Service)
    (postID : Z) (m : gmap string entry) :
  collect_ids (sorted_names m) <> [] ->
  (forall id, In id (collect_ids (sorted_names m)) ->
     - 2 ^ 63 < postID - id < 2 ^ 63) ->
  exists r,
    getEditablePostID s postID (Some m) = inr r
    /\ In r (collect_ids (sorted_names m))
    /\ forall id, In id (collect_ids (sorted_names m)) ->
         Z.abs (postID - r) <= Z.abs (postID - id).
Proof.
  intros Hne Hrange.
  exists (closest_id postID (collect_ids (sorted_names m))).
  split; [reflexivity|]. by apply closest_id_nearest.
Qed.

(** C2 at that directory: the post [-1] is returned for the request
    [2^63 - 1], though [2^63 - 2] is a post on disk at distance 1. *)
Theorem getEditablePostID_far_posts :
  os_ReadDir_posts far_posts = inr ["-1.md"; "9223372036854775806.md"]
  /\ collect_ids ["-1.md"; "9223372036854775806.md"]
     = [-1; 9223372036854775806]
  /\ getEditablePostID test_service 9223372036854775807 far_posts = inr (-1)
  /\ Z.abs (9223372036854775807 - 9223372036854775806)
     < Z.abs (9223372036854775807 - -1).
Proof. vm_compute. repeat split. Qed.

(** ** Deleting a batch *)

Section DeleteBatch.
Context {G : Type} `{GitService G}.

Implicit Types (s : Service) (w : @World G).

Lemma bind_ok {A B : Type} (c : M A) (k : A -> M B) (w w' : @World G) (a : A) :
  c w = (inr a, w') -> bind c k w = k a w'.
Proof. intros Hc. unfold bind. by rewrite Hc. Qed.

(** The loop over two lists in a row. *)
Lemma delete_loop_app s (l1 l2 : list string) w :
  delete_loop s (l1 ++ l2) w
  = bind (delete_loop s l1) (fun _ => delete_loop s l2) w.
Proof.
  revert w. induction l1 as [|idStr l1 IH]; intros w; [reflexivity|].
  simpl. destruct (decide (strings_TrimSpace idStr = EmptyString)); [apply IH|].
  destruct (ParseInt (strings_TrimSpace idStr)) as [postID|]; [|reflexivity].
  unfold bind in *.
  destruct (delete_one s postID w) as [[e|[]] w']; [reflexivity|].
  apply IH.
Qed.

(** In this model no step of the deletion of one identifier fails. *)
Lemma remove_images_ok (relPostDir : string) (imageNames : list string) w :
  exists w', remove_images relPostDir imageNames w = (inr tt, w')
             /\ w'.1 = w.1.
Proof.
  revert w. induction imageNames as [|n names IH]; intros w.
  - by exists w.
  - simpl. unfold bind, git_try at 1.
    destruct (IH (w.1, (git_Remove (filepath_Join [relPostDir; n]) w.1 w.2).2))
      as (w' & Hw' & Hfs).
    exists w'. by rewrite Hw'.
Qed.

Lemma delete_one_ok s (postID : Z) w :
  exists w', delete_one s postID w = (inr tt, w').
Proof.
  unfold delete_one, bind, os_read.
  destruct (getPostImageNames s postID w.1) as [e|imageNames]; [by exists w|].
  destruct (0 <? length imageNames)%nat.
  - unfold os_call, os_RemoveAll. destruct w as [[m|] g]; simpl.
    + edestruct remove_images_ok as (w' & Hw' & _). exists w'. exact Hw'.
    + edestruct remove_images_ok as (w' & Hw' & _). exists w'. exact Hw'.
  - unfold os_try, git_try.
    destruct (os_Remove _ w.1); eexists; reflexivity.
Qed.

Lemma delete_loop_ok s (idList : list string) w :
  Forall (fun idStr => blank idStr \/ parses idStr) idList ->
  exists w', delete_loop s idList w = (inr tt, w').
Proof.
  intros Hall. revert w. induction Hall as [|idStr l Hhd _ IH]; intros w.
  - by exists w.
  - simpl. destruct (decide (strings_TrimSpace idStr = EmptyString)) as [|Hnb];
      [apply IH|].
    destruct Hhd as [Hb|[postID Hp]]; [done|]. rewrite Hp.
    destruct (delete_one_ok s postID w) as [w1 Hw1].
    rewrite (bind_ok _ _ _ _ _ Hw1). apply IH.
Qed.

(** C8: an entry of the batch that does not parse makes [DeletePost] return
    an error; the world it leaves is the one the entries before it left,
    with their deletions and nothing more. *)
Theorem DeletePost_invalid_entry s (ids : string)
    (before after : list string) (bad : string) w :
  strings_Split ids ","%char = before ++ bad :: after ->
  Forall (fun idStr => blank idStr \/ parses idStr) before ->
  strings_TrimSpace bad <> EmptyString ->
  ParseInt (strings_TrimSpace bad) = None ->
  exists w1,
    delete_loop s before w = (inr tt, w1)
    /\ run (DeletePost s ids) w
       = (Some ("invalid post ID: " +:+ strings_TrimSpace bad), w1).
Proof.
  intros Hsplit Hbefore Hnb Hbad.
  destruct (delete_loop_ok s before w Hbefore) as [w1 Hw1].
  exists w1. split; [exact Hw1|].
  unfold run, DeletePost. rewrite Hsplit.
  unfold bind at 1. rewrite delete_loop_app, (bind_ok _ _ _ _ _ Hw1).
  simpl. destruct (decide (strings_TrimSpace bad = EmptyString)); [done|].
  by rewrite Hbad.
Qed.

(** The loop skips the entries that are empty once trimmed. *)
Lemma delete_loop_skips_blank s (idList : list string) w :
  delete_loop s idList w
  = delete_loop s
      (filter (fun idStr => strings_TrimSpace idStr <> EmptyString) idList) w.
Proof.
  revert w. induction idList as [|idStr l IH]; intros w; [reflexivity|].
  simpl. destruct (decide (strings_TrimSpace idStr = EmptyString)) as [Hb|Hnb].
  - rewrite filter_cons_False by (intros Hn; by apply Hn). apply IH.
  - rewrite filter_cons_True by done. simpl.
    destruct (decide (strings_TrimSpace idStr = EmptyString)); [done|].
    destruct (ParseInt (strings_TrimSpace idStr)) as [postID|]; [|reflexivity].
    unfold bind. destruct (delete_one s postID w) as [[e|[]] w']; [done|].
    apply IH.
Qed.

(** C10: [DeletePost] on a batch is [DeletePost] on the entries that are
    not empty after trimming: a blank entry raises no error, touches
    neither the files nor the collaborator, and the entries after it are
    processed. *)
Theorem DeletePost_skips_blank s (ids : string) w :
  run (DeletePost s ids) w
  = run (bind
           (delete_loop s
              (filter (fun idStr => strings_TrimSpace idStr <> EmptyString)
                 (strings_Split ids ","%char)))
           (fun _ =>
              git_call "failed to commit and push deletion"
                (git_CommitAndPush ("Delete post(s): " +:+ ids)))) w
  /\ forall idStr rest w0,
       strings_TrimSpace idStr = EmptyString ->
       delete_loop s (idStr :: rest) w0 = delete_loop s rest w0.
Proof.
  split.
  - unfold run, DeletePost, bind. by rewrite delete_loop_skips_blank.
  - intros idStr rest w0 Hb. simpl.
    by destruct (decide (strings_TrimSpace idStr = EmptyString)).
Qed.

End DeleteBatch.

Lemma DeletePost_invalid_entry_witness :
  exists w1,
    delete_loop test_service ["456"] two_posts = (inr tt, w1)
    /\ run (DeletePost test_service "456,x,200") two_posts
       = (Some ("invalid post ID: " +:+ strings_TrimSpace "x"), w1).
Proof.
  apply (DeletePost_invalid_entry test_service "456,x,200" ["456"] ["200"] "x"
           two_posts).
  - reflexivity.
  - constructor; [right; exists 456; reflexivity | constructor].
  - discriminate.
  - reflexivity.
Defined.

(** In that run the directory of [456] is gone and the post [200], which
    comes after the entry that does not parse, is still there. *)
Example DeletePost_invalid_entry_run :
  (run (DeletePost test_service "456,x,200") two_posts).1
  = Some "invalid post ID: x"
  /\ (run (DeletePost test_service "456,x,200") two_posts).2.1
     = Some (<["200.md" := File []]> ∅).
Proof. vm_compute. split; reflexivity. Qed.

Example DeletePost_MultipleIDs :
  run (DeletePost test_service "600, 601, 602") loose_posts
  = (None, (Some ∅, [])).
Proof. vm_compute. reflexivity. Qed.

Example DeletePost_doubled_comma :
  strings_Split "600,,601" ","%char = ["600"; EmptyString; "601"]
  /\ run (DeletePost test_service "600,,601") loose_posts
     = (None, (Some (<["602.md" := File []]> ∅), [])).
Proof. vm_compute. split; reflexivity. Qed.

Example DeletePost_trailing_comma :
  strings_Split "600," ","%char = ["600"; EmptyString]
  /\ run (DeletePost test_service "600,") loose_posts
     = (None,
        (Some (<["601.md" := File []]> (<["602.md" := File []]> ∅)), [])).
Proof. vm_compute. split; reflexivity. Qed.

Lemma DeletePost_skips_blank_witness :
  run (DeletePost test_service "600,,601") loose_posts
  = run (bind
           (delete_loop test_service
              (filter (fun idStr => strings_TrimSpace idStr <> EmptyString)
                 (strings_Split "600,,601" ","%char)))
           (fun _ =>
              git_call "failed to commit and push deletion"
                (git_CommitAndPush ("Delete post(s): " +:+ "600,,601"))))
      loose_posts
  /\ forall idStr rest w0,
       strings_TrimSpace idStr = EmptyString ->
       delete_loop test_service (idStr :: rest) w0
       = delete_loop test_service rest w0.
Proof. exact (DeletePost_skips_blank test_service "600,,601" loose_posts). Defined.

(** ** Reading the posts directory *)

Lemma os_WriteFile_file_at (p : path) (data : list byte) (fs fs' : FS) :
  os_WriteFile p data fs = inr fs' -> file_at p fs' = Some data.
Proof.
  unfold os_WriteFile. destruct fs as [m|]; [|discriminate].
  destruct p as [name|dir name].
  - destruct (m !! name) as [[c|d]|]; intros Heq; simplify_eq; simpl;
      by rewrite lookup_insert_eq.
  - destruct (m !! dir) as [[c|d]|]; intros Heq; simplify_eq; simpl.
    by rewrite !lookup_insert_eq.
Qed.

Section Monad.
Context {G : Type} `{GitService G}.

Lemma bind_inv {A B : Type} (c : M A) (k : A -> M B) (w w' : @World G)
    (b : B) :
  bind c k w = (inr b, w') ->
  exists a w1, c w = (inr a, w1) /\ k a w1 = (inr b, w').
Proof.
  unfold bind. destruct (c w) as [[e|a] w1]; [discriminate|]. eauto.
Qed.

Lemma run_ok_inv (c : M unit) (w w' : @World G) :
  run c w = (None, w') -> c w = (inr tt, w').
Proof.
  unfold run. destruct (c w) as [[e|[]] w1]; [discriminate|]. congruence.
Qed.

Lemma os_call_inv (ctx : string) (perr : oserror -> PathError)
    (op : FS -> oserror + FS) (w w' : @World G) (u : unit) :
  os_call ctx perr op w = (inr u, w') -> op w.1 = inr w'.1 /\ w'.2 = w.2.
Proof.
  unfold os_call. destruct (op w.1) as [e|fs']; [discriminate|].
  intros Heq. by simplify_eq.
Qed.

Lemma git_call_inv (ctx : string) (op : FS -> G -> option string * G)
    (w w' : @World G) (u : unit) :
  git_call ctx op w = (inr u, w') -> w'.1 = w.1.
Proof.
  unfold git_call. destruct (op w.1 w.2) as [[e|] g']; [discriminate|].
  intros Heq. by simplify_eq.
Qed.



End Monad.


(** The example of the specification: the unit [200], edited under the
    identifier [205] with a new PNG buffer and no new content, gets the
    asset [image_5.png]. *)
Example EditPost_image_5 :
  getEditablePostID test_service 205 created_200.1 = inr 200
  /\ image_name (sub64 205 200) (getImageFormat createPNGBytes)
     = "image_5.png"
  /\ file_at (Sub "200" "image_5.png")
       (run (EditPost test_service map_to_list
               (mkPost 205 EmptyString EmptyString
                  (mkTime 2024 1 15 10 30 0 0) [])
               (Some createPNGBytes))
          created_200).2.1
     = Some createPNGBytes.
Proof. vm_compute. repeat split. Qed.

(** [TestService_EditPost_WithNewMedia]: a post with media, [300], edited
    under [305] with new content and a PNG buffer. *)
Example EditPost_WithNewMedia :
  file_at (Sub "300" "image_5.png")
    (run (EditPost test_service map_to_list
            (mkPost 305 EmptyString "Updated content with new image"
               (mkTime 2024 1 15 10 30 0 0) [])
            (Some createPNGBytes))
       (Some (<["300" := Dir (<["image_0.jpg" := createJPEGBytes]> ∅)]> ∅),
        [])).2.1
  = Some createPNGBytes.
Proof. vm_compute. reflexivity. Qed.

(** ** The two shapes of a post *)

Lemma sapp_inj_l (a b s : string) : a +:+ s = b +:+ s -> a = b.
Proof. intros Heq. by destruct (sapp_inj_length _ _ _ _ Heq eq_refl). Qed.

Lemma sapp_md_neq (name : string) : name +:+ ".md" <> name.
Proof.
  intros Heq. apply (f_equal String.length) in Heq.
  rewrite slength_app in Heq. simpl in Heq. lia.
Qed.

Lemma shapes_ok_delete (k : string) (m : gmap string entry) :
  shapes_ok (Some m) -> shapes_ok (Some (delete k m)).
Proof.
  intros [Hnb Himg]. split.
  - intros name [[c Hc] [d Hd]]. apply (Hnb name).
    apply lookup_delete_Some in Hc as [_ Hc].
    apply lookup_delete_Some in Hd as [_ Hd].
    split; [by exists c | by exists d].
  - intros name d Hd. apply lookup_delete_Some in Hd as [_ Hd].
    by apply (Himg name d).
Qed.

Lemma shapes_ok_write_loose (name : string) (c : list byte)
    (m : gmap string entry) :
  shapes_ok (Some m) -> ~ is_dir m name -> ~ is_dir m (name +:+ ".md") ->
  shapes_ok (Some (<[name +:+ ".md" := File c]> m)).
Proof.
  intros [Hnb Himg] Hnd Hnd'. split.
  - intros n [[c' Hc] [d Hd]].
    destruct (decide (n = name +:+ ".md")) as [->|Hne1].
    { rewrite lookup_insert_eq in Hd. discriminate. }
    rewrite lookup_insert_ne in Hd by done.
    destruct (decide (n = name)) as [->|Hne2]; [apply Hnd; by exists d|].
    rewrite lookup_insert_ne in Hc.
    + apply (Hnb n). split; [by exists c' | by exists d].
    + intros Heq. by apply sapp_inj_l in Heq.
  - intros n d Hd.
    destruct (decide (n = name +:+ ".md")) as [->|Hne1].
    { rewrite lookup_insert_eq in Hd. discriminate. }
    rewrite lookup_insert_ne in Hd by done. by apply (Himg n d).
Qed.

Lemma has_image_insert (n : string) (data : list byte)
    (d : gmap string (list byte)) :
  has_image d -> has_image (<[n := data]> d).
Proof.
  intros (i & Hp & Hi). exists i. split; [exact Hp|].
  destruct (decide (n = i)) as [->|Hne].
  - rewrite lookup_insert_eq. by eexists.
  - by rewrite lookup_insert_ne.
Qed.

Lemma no_both_fill (x n : string) (data : list byte)
    (d : gmap string (list byte)) (m : gmap string entry) :
  m !! x = Some (Dir d) -> no_both m ->
  no_both (<[x := Dir (<[n := data]> d)]> m).
Proof.
  intros Hx Hnb name [[c Hc] [d' Hd]]. apply (Hnb name). split.
  - destruct (decide (x = name +:+ ".md")) as [->|Hne].
    + rewrite lookup_insert_eq in Hc. discriminate.
    + rewrite lookup_insert_ne in Hc by done. by exists c.
  - destruct (decide (x = name)) as [->|Hne]; [by exists d|].
    rewrite lookup_insert_ne in Hd by done. by exists d'.
Qed.

(** A file written into a directory keeps the shapes; a media file written
    into the directory that is being filled completes it. *)
Lemma shapes_ok_fill (x n : string) (data : list byte)
    (d : gmap string (list byte)) (m : gmap string entry) :
  m !! x = Some (Dir d) -> shapes_ok (Some m) ->
  shapes_ok (Some (<[x := Dir (<[n := data]> d)]> m)).
Proof.
  intros Hx [Hnb Himg]. split; [by eapply no_both_fill|].
  intros name d' Hd. right.
  destruct (decide (x = name)) as [->|Hne].
  - rewrite lookup_insert_eq in Hd. injection Hd as <-.
    apply has_image_insert. by destruct (Himg name d Hx).
  - rewrite lookup_insert_ne in Hd by done. by destruct (Himg name d' Hd).
Qed.

Lemma shapes_ok_but_fill (x n : string) (data : list byte)
    (d : gmap string (list byte)) (m : gmap string entry) :
  m !! x = Some (Dir d) -> shapes_ok_but x (Some m) ->
  shapes_ok_but x (Some (<[x := Dir (<[n := data]> d)]> m)).
Proof.
  intros Hx (Hnb & Himg & _). split; [by eapply no_both_fill|]. split.
  - intros name d' Hd.
    destruct (decide (x = name)) as [->|Hne]; [by left|].
    rewrite lookup_insert_ne in Hd by done. by apply (Himg name d').
  - eexists. apply lookup_insert_eq.
Qed.

Lemma shapes_ok_but_fill_image (x n : string) (data : list byte)
    (d : gmap string (list byte)) (m : gmap string entry) :
  strings_HasPrefix n "image_" = true ->
  m !! x = Some (Dir d) -> shapes_ok_but x (Some m) ->
  shapes_ok (Some (<[x := Dir (<[n := data]> d)]> m)).
Proof.
  intros Hp Hx (Hnb & Himg & _). split; [by eapply no_both_fill|].
  intros name d' Hd. right.
  destruct (decide (x = name)) as [->|Hne].
  - rewrite lookup_insert_eq in Hd. injection Hd as <-.
    exists n. split; [exact Hp|]. rewrite lookup_insert_eq. by eexists.
  - rewrite lookup_insert_ne in Hd by done.
    destruct (Himg name d' Hd) as [Heq|Hi]; [congruence | exact Hi].
Qed.

Lemma shapes_ok_weaken (x : string) (m : gmap string entry) :
  shapes_ok (Some m) -> is_dir m x -> shapes_ok_but x (Some m).
Proof.
  intros [Hnb Himg] Hd. split; [exact Hnb|]. split; [|exact Hd].
  intros name d Hn. right. by destruct (Himg name d Hn).
Qed.

(** [os.MkdirAll] of the directory of a post that has no loose file. *)
Lemma os_MkdirAll_shapes (x : string) (fs fs' : FS) :
  os_MkdirAll x fs = inr fs' -> shapes_ok fs -> ~ loose_at x fs ->
  shapes_ok_but x fs'.
Proof.
  unfold os_MkdirAll. intros Hmk Hok Hnl.
  destruct (default ∅ fs !! x) as [[c|d]|] eqn:Hx; simplify_eq.
  - destruct fs as [m|]; simpl in *.
    + apply shapes_ok_weaken; [exact Hok | by exists d].
    + by rewrite lookup_empty in Hx.
  - assert (no_both (default ∅ fs) /\ images_but None (default ∅ fs)
            /\ ~ is_file (default ∅ fs) (x +:+ ".md")) as (Hnb & Himg & Hnf).
    { destruct fs as [m|]; simpl in *.
      - destruct Hok. done.
      - split; [|split].
        + intros name [[c Hc] _]. by rewrite lookup_empty in Hc.
        + intros name d Hd. by rewrite lookup_empty in Hd.
        + intros [c Hc]. by rewrite lookup_empty in Hc. }
    split; [|split].
    + intros name [[c Hc] [d Hd]].
      destruct (decide (x = name)) as [->|Hne].
      * rewrite lookup_insert_ne in Hc by (symmetry; apply sapp_md_neq).
        apply Hnf. by exists c.
      * rewrite lookup_insert_ne in Hd by done.
        destruct (decide (x = name +:+ ".md")) as [->|Hne'].
        -- rewrite lookup_insert_eq in Hc. discriminate.
        -- rewrite lookup_insert_ne in Hc by done.
           apply (Hnb name). split; [by exists c | by exists d].
    + intros name d Hd.
      destruct (decide (x = name)) as [->|Hne]; [by left|].
      rewrite lookup_insert_ne in Hd by done. right.
      by destruct (Himg name d Hd).
    + eexists. apply lookup_insert_eq.
Qed.

Lemma os_MkdirAll_existing (x : string) (fs : FS) :
  dir_at x fs -> os_MkdirAll x fs = inr fs.
Proof.
  destruct fs as [m|]; [|done]. intros [d Hd].
  unfold os_MkdirAll. simpl. by rewrite Hd.
Qed.

Lemma os_WriteFile_Sub_inv (x n : string) (data : list byte) (fs fs' : FS) :
  os_WriteFile (Sub x n) data fs = inr fs' ->
  exists m d,
    fs = Some m /\ m !! x = Some (Dir d)
    /\ fs' = Some (<[x := Dir (<[n := data]> d)]> m).
Proof.
  unfold os_WriteFile. destruct fs as [m|]; [|discriminate].
  destruct (m !! x) as [[c|d]|] eqn:Hx; intros Heq; simplify_eq. eauto.
Qed.

Lemma os_WriteFile_Top_inv (name : string) (data : list byte) (fs fs' : FS) :
  os_WriteFile (Top name) data fs = inr fs' ->
  exists m,
    fs = Some m /\ ~ is_dir m name /\ fs' = Some (<[name := File data]> m).
Proof.
  unfold os_WriteFile. destruct fs as [m|]; [|discriminate].
  destruct (m !! name) as [[c|d]|] eqn:Hx; intros Heq; simplify_eq;
    exists m; (split; [done|split; [|done]]); intros [d Hd]; congruence.
Qed.

(** What [getPostImageNames] returns for a directory with a media file,
    and what a non-empty result tells. *)
Lemma sorted_names_elem {A : Type} (m : gmap string A) (n : string) :
  is_Some (m !! n) -> n ∈ sorted_names m.
Proof.
  intros [a Ha]. unfold sorted_names. rewrite merge_sort_Permutation.
  apply list_elem_of_In, (in_map fst _ (n, a)), list_elem_of_In.
  by apply elem_of_map_to_list.
Qed.

Lemma getPostImageNames_has_image (s : Service)
    (postID : Z) (m : gmap string entry)
    (d : gmap string (list byte)) :
  m !! FormatInt postID = Some (Dir d) -> has_image d ->
  exists n names, getPostImageNames s postID (Some m) = inr (n :: names).
Proof.
  intros Hd (i & Hp & Hi). unfold getPostImageNames. simpl. rewrite Hd.
  match goal with
  | |- context [merge_sort string_le ?l] =>
      assert (i ∈ merge_sort string_le l) as Hin
  end.
  { rewrite merge_sort_Permutation. apply list_elem_of_filter.
    split; [exact Hp | by apply sorted_names_elem]. }
  destruct (merge_sort string_le _) as [|n names]; [by inversion Hin|].
  by exists n, names.
Qed.

Lemma getPostImageNames_nonempty (s : Service)
    (postID : Z) (fs : FS) (n : string)
    (names : list string) :
  getPostImageNames s postID fs = inr (n :: names) ->
  dir_at (FormatInt postID) fs.
Proof.
  unfold getPostImageNames, os_ReadDir. destruct fs as [m|]; [|discriminate].
  destruct (m !! FormatInt postID) as [[c|d]|] eqn:Hd; try discriminate.
  intros _. by exists d.
Qed.

Lemma image_name_prefix (i : Z) (format : string) :
  strings_HasPrefix (image_name i format) "image_" = true.
Proof. reflexivity. Qed.

(** ** The shapes under the three operations *)

Section Shapes.
Context {G : Type} `{GitService G}.

Local Abbreviation hoare := (@hoare G) (only parsing).

Lemma hoare_ret {A : Type} (P : FS -> Prop) (a : A) (Q : A -> FS -> Prop)
    (E : FS -> Prop) :
  (forall fs, P fs -> Q a fs) -> hoare P (ret a) Q E.
Proof. intros HPQ w HP. by apply HPQ. Qed.

Lemma hoare_fail {A : Type} (P : FS -> Prop) (e : string)
    (Q : A -> FS -> Prop) (E : FS -> Prop) :
  (forall fs, P fs -> E fs) -> hoare P (fail e) Q E.
Proof. intros HPE w HP. by apply HPE. Qed.

Lemma hoare_bind {A B : Type} (P : FS -> Prop) (c : M A) (k : A -> M B)
    (R : A -> FS -> Prop) (Q : B -> FS -> Prop) (E : FS -> Prop) :
  hoare P c R E -> (forall a, hoare (R a) (k a) Q E) -> hoare P (bind c k) Q E.
Proof.
  intros Hc Hk w HP. specialize (Hc w HP). unfold bind.
  destruct (c w) as [[e|a] w1]; [exact Hc|]. by apply Hk.
Qed.

Lemma hoare_os_call (P : FS -> Prop) (ctx : string)
    (perr : oserror -> PathError) (op : FS -> oserror + FS)
    (Q : unit -> FS -> Prop) (E : FS -> Prop) :
  (forall fs fs', P fs -> op fs = inr fs' -> Q tt fs') ->
  (forall fs, P fs -> E fs) ->
  hoare P (os_call ctx perr op) Q E.
Proof.
  intros HQ HE w HP. unfold os_call.
  destruct (op w.1) as [err|fs'] eqn:Hop; simpl; [by apply HE|].
  by apply (HQ w.1).
Qed.

Lemma hoare_os_try (P : FS -> Prop) (op : FS -> oserror + FS)
    (Q : unit -> FS -> Prop) (E : FS -> Prop) :
  (forall fs fs', P fs -> op fs = inr fs' -> Q tt fs') ->
  (forall fs, P fs -> Q tt fs) ->
  hoare P (os_try op) Q E.
Proof.
  intros HQ HQ' w HP. unfold os_try.
  destruct (op w.1) as [err|fs'] eqn:Hop; simpl; [by apply HQ'|].
  by apply (HQ w.1).
Qed.

Lemma hoare_os_read {A : Type} (P : FS -> Prop) (op : FS -> string + A)
    (E : FS -> Prop) :
  hoare P (os_read op) (fun r fs => P fs /\ r = op fs) E.
Proof. intros w HP. by simpl. Qed.

Lemma hoare_git_call (P : FS -> Prop) (ctx : string)
    (op : FS -> G -> option string * G) (E : FS -> Prop) :
  (forall fs, P fs -> E fs) ->
  hoare P (git_call ctx op) (fun _ => P) E.
Proof.
  intros HE w HP. unfold git_call.
  destruct (op w.1 w.2) as [[err|] g']; simpl; [by apply HE | exact HP].
Qed.

Lemma hoare_git_try (P : FS -> Prop) (op : FS -> G -> option string * G)
    (E : FS -> Prop) :
  hoare P (git_try op) (fun _ => P) E.
Proof. intros w HP. exact HP. Qed.

Lemma hoare_assume {A : Type} (P : FS -> Prop) (phi : Prop) (c : M A)
    (Q : A -> FS -> Prop) (E : FS -> Prop) :
  (phi -> hoare P c Q E) -> hoare (fun fs => P fs /\ phi) c Q E.
Proof. intros Hc w [HP Hphi]. by apply Hc. Qed.

Lemma hoare_pre {A : Type} (P P' : FS -> Prop) (c : M A)
    (Q : A -> FS -> Prop) (E : FS -> Prop) :
  (forall fs, P fs -> P' fs) -> hoare P' c Q E -> hoare P c Q E.
Proof. intros HPP Hc w HP. apply Hc, HPP, HP. Qed.

(** The post file: written and staged. *)
Lemma hoare_write_post (s : Service)
    (order : gmap string string -> list (string * string)) (post : Post)
    (filename : path) (P Q E : FS -> Prop) :
  (forall fs fs' data, P fs -> os_WriteFile filename data fs = inr fs' -> Q fs') ->
  (forall fs, P fs -> E fs) -> (forall fs, Q fs -> E fs) ->
  hoare P (write_post s order post filename) (fun _ => Q) E.
Proof.
  intros Hw HPE HQE. unfold write_post.
  eapply hoare_bind with (R := fun _ => Q).
  - apply hoare_os_call; [|exact HPE]. intros fs fs' HP Hop. by eapply Hw.
  - intros ?; cbv beta. by apply hoare_git_call.
Qed.

(** The media files of [CreatePost], written into a directory. *)
Lemma hoare_write_media (s : Service) (postID : Z)
    (mediaFiles : list (list byte)) (names : list string) :
  hoare shapes_ok (write_media s postID mediaFiles names)
    (fun _ => shapes_ok) any_shape.
Proof.
  revert names. induction mediaFiles as [|mediaFile rest IH];
    intros [|n names]; try (apply hoare_ret; done).
  simpl. eapply hoare_bind with (R := fun _ => shapes_ok).
  - apply hoare_os_call; [|done]. intros fs fs' Hok Hw.
    apply os_WriteFile_Sub_inv in Hw as (m & d & -> & Hd & ->).
    by apply shapes_ok_fill.
  - intros ?; cbv beta. eapply hoare_bind with (R := fun _ => shapes_ok).
    + by apply hoare_git_call.
    + intros ?; cbv beta. apply IH.
Qed.

Lemma hoare_write_media_first (s : Service) (postID : Z)
    (mediaFile : list byte) (rest : list (list byte)) (n : string)
    (names : list string) :
  strings_HasPrefix n "image_" = true ->
  hoare (shapes_ok_but (FormatInt postID))
    (write_media s postID (mediaFile :: rest) (n :: names))
    (fun _ => shapes_ok) any_shape.
Proof.
  intros Hp. simpl. eapply hoare_bind with (R := fun _ => shapes_ok).
  - apply hoare_os_call; [|done]. intros fs fs' Hok Hw.
    apply os_WriteFile_Sub_inv in Hw as (m & d & -> & Hd & ->).
    by apply shapes_ok_but_fill_image.
  - intros ?; cbv beta. eapply hoare_bind with (R := fun _ => shapes_ok).
    + by apply hoare_git_call.
    + intros ?; cbv beta. apply hoare_write_media.
Qed.

(** [CreatePost] without media, on an identifier that has no directory. *)
Lemma CreatePost_loose_shapes (s : Service)
    (order : gmap string string -> list (string * string)) (post : Post) :
  hoare (no_dir_at (FormatInt (ID post)))
    (CreatePost s order post []) (fun _ => shapes_ok) shapes_ok.
Proof.
  unfold CreatePost. simpl.
  eapply hoare_bind with
    (R := fun filename fs =>
            no_dir_at (FormatInt (ID post)) fs
            /\ filename = Top (FormatInt (ID post) +:+ ".md")).
  - eapply hoare_bind with (R := fun _ => no_dir_at (FormatInt (ID post))).
    + apply hoare_os_call; [|by intros fs [? _]].
      intros fs fs' HP Hmk. destruct fs as [m|]; simpl in Hmk.
      * by injection Hmk as <-.
      * injection Hmk as <-. split.
        -- split; [intros name [[c Hc] _]|intros name d Hd];
             by rewrite lookup_empty in *.
        -- intros [d Hd]. by rewrite lookup_empty in Hd.
    + intros ?; cbv beta. by apply hoare_ret.
  - intros filename.
    eapply hoare_bind with (R := fun _ => shapes_ok);
      [|intros ?; by apply hoare_ret].
    apply hoare_assume; intros ->.
    apply hoare_write_post; [|by intros fs [? _]|done].
    intros fs fs' data (Hok & Hnd) Hw.
    apply os_WriteFile_Top_inv in Hw as (m & -> & Hnd' & ->).
    by apply shapes_ok_write_loose.
Qed.

(** [CreatePost] with media, on an identifier that has no loose file, when
    it succeeds. *)
Lemma CreatePost_media_shapes (s : Service)
    (order : gmap string string -> list (string * string)) (post : Post)
    (mediaFile : list byte) (rest : list (list byte)) :
  hoare
    (fun fs => shapes_ok fs /\ ~ loose_at (FormatInt (ID post)) fs)
    (CreatePost s order post (mediaFile :: rest))
    (fun _ => shapes_ok) any_shape.
Proof.
  unfold CreatePost. simpl.
  eapply hoare_bind with
    (R := fun filename fs =>
            shapes_ok_but (FormatInt (ID post)) fs
            /\ filename = Sub (FormatInt (ID post)) "index.md").
  - eapply hoare_bind with
      (R := fun _ => shapes_ok_but (FormatInt (ID post))).
    + apply hoare_os_call; [|done]. intros fs fs' [Hok Hnl] Hmk.
      by eapply os_MkdirAll_shapes.
    + intros ?; cbv beta. by apply hoare_ret.
  - intros filename.
    eapply hoare_bind with
      (R := fun _ => shapes_ok_but (FormatInt (ID post))).
    + apply hoare_assume; intros ->.
      apply hoare_write_post; [|done..].
      intros fs fs' data Hok Hw.
      apply os_WriteFile_Sub_inv in Hw as (m & d & -> & Hd & ->).
      by apply shapes_ok_but_fill.
    + intros ?; cbv beta. apply hoare_write_media_first, image_name_prefix.
Qed.

Lemma os_MkdirAll_same (x : string) (fs fs' : FS) :
  dir_at x fs -> os_MkdirAll x fs = inr fs' -> fs' = fs.
Proof.
  intros Hd Hmk. rewrite (os_MkdirAll_existing x fs Hd) in Hmk. congruence.
Qed.

Lemma dir_at_fill (x n : string) (data : list byte)
    (d : gmap string (list byte)) (m : gmap string entry) :
  dir_at x (Some (<[x := Dir (<[n := data]> d)]> m)).
Proof. eexists. apply lookup_insert_eq. Qed.

Lemma shapes_ok_dir_images (s : Service) (postID : Z) (fs : FS) :
  shapes_ok fs -> dir_at (FormatInt postID) fs ->
  exists n names, getPostImageNames s postID fs = inr (n :: names).
Proof.
  destruct fs as [m|]; [|done]. intros [_ Himg] [d Hd].
  apply (getPostImageNames_has_image s postID m d Hd).
  by destruct (Himg _ _ Hd).
Qed.

Lemma edit_content_shapes (s : Service)
    (order : gmap string string -> list (string * string)) (post : Post)
    (mediaFile : option (list byte)) (editablePostID : Z)
    (imageNames : list string) :
  hoare
    (fun fs =>
       edit_mid (FormatInt editablePostID) mediaFile fs
       /\ inr imageNames = getPostImageNames s editablePostID fs)
    (edit_content s order post editablePostID imageNames)
    (fun _ => edit_mid (FormatInt editablePostID) mediaFile)
    shapes_ok.
Proof.
  unfold edit_content. destruct imageNames as [|n names]; simpl.
  - eapply hoare_bind with
      (R := fun filename fs =>
              (edit_mid (FormatInt editablePostID) mediaFile fs
               /\ inr [] = getPostImageNames s editablePostID fs)
              /\ filename = Top (FormatInt editablePostID +:+ ".md"));
      [by apply hoare_ret|].
    intros filename; cbv beta. apply hoare_assume; intros ->.
    apply hoare_write_post; [|by intros fs [[? _] _]|by intros fs [? _]].
    intros fs fs' data [[Hok Hmedia] Hnames] Hw.
    apply os_WriteFile_Top_inv in Hw as (m & -> & Hnd & ->).
    assert (~ dir_at (FormatInt editablePostID) (Some m)) as Hnodir.
    { intros Hd.
      destruct (shapes_ok_dir_images s _ _ Hok Hd) as (i & l & Hl). congruence. }
    split; [by apply shapes_ok_write_loose|].
    intros Hm. exfalso. apply Hnodir, Hmedia, Hm.
  - eapply hoare_bind with
      (R := fun filename fs =>
              (edit_mid (FormatInt editablePostID) mediaFile fs
               /\ dir_at (FormatInt editablePostID) fs)
              /\ filename = Sub (FormatInt editablePostID) "index.md").
    + eapply hoare_bind with
        (R := fun _ fs =>
                edit_mid (FormatInt editablePostID) mediaFile fs
                /\ dir_at (FormatInt editablePostID) fs).
      * apply hoare_os_call; [|by intros fs [[? _] _]].
        intros fs fs' [Hmid Hnames] Hmk.
        assert (dir_at (FormatInt editablePostID) fs) as Hd
          by (by eapply getPostImageNames_nonempty).
        by rewrite (os_MkdirAll_same _ _ _ Hd Hmk).
      * intros ?; cbv beta. by apply hoare_ret.
    + intros filename; cbv beta. apply hoare_assume; intros ->.
      apply hoare_write_post; [|by intros fs [[? _] _]|by intros fs [? _]].
      intros fs fs' data [[Hok Hmedia] Hd] Hw.
      apply os_WriteFile_Sub_inv in Hw as (m & d & -> & Hx & ->).
      split; [by apply shapes_ok_fill|]. intros _. apply dir_at_fill.
Qed.

Lemma edit_media_shapes (s : Service) (originalPostID editablePostID : Z)
    (mediaFile : list byte) :
  hoare (edit_mid (FormatInt editablePostID) (Some mediaFile))
    (edit_media s originalPostID editablePostID mediaFile)
    (fun _ => shapes_ok) shapes_ok.
Proof.
  unfold edit_media.
  eapply hoare_bind with (R := fun _ => shapes_ok).
  - apply hoare_os_call; [|by intros fs [? _]].
    intros fs fs' [Hok Hd] Hmk.
    by rewrite (os_MkdirAll_same _ _ _ (Hd ltac:(done)) Hmk).
  - intros ?; cbv beta. eapply hoare_bind with (R := fun _ => shapes_ok).
    + apply hoare_os_call; [|done]. intros fs fs' Hok Hw.
      apply os_WriteFile_Sub_inv in Hw as (m & d & -> & Hx & ->).
      by apply shapes_ok_fill.
    + intros ?; cbv beta. by apply hoare_git_call.
Qed.

(** [EditPost] keeps the shapes, whatever it returns. *)
Lemma EditPost_shapes (s : Service)
    (order : gmap string string -> list (string * string)) (post : Post)
    (mediaFile : option (list byte)) :
  hoare (edit_pre s post mediaFile) (EditPost s order post mediaFile)
    (fun _ => shapes_ok) shapes_ok.
Proof.
  unfold EditPost.
  eapply hoare_bind; [apply hoare_os_read|].
  intros [err|editablePostID]; cbv beta;
    [apply hoare_fail; by intros fs [[? _] _]|].
  eapply hoare_bind; [apply hoare_os_read|].
  intros [err|imageNames]; cbv beta;
    [apply hoare_fail; by intros fs [[[? _] _] _]|].
  eapply hoare_bind with
    (R := fun _ => edit_mid (FormatInt editablePostID) mediaFile).
  - match goal with |- context [decide ?p] => destruct (decide p) end.
    + eapply hoare_pre; [|apply edit_content_shapes].
      intros fs [[[Hok Hmedia] He] Hn]. split; [|done]. split; [done|].
      intros Hm. by apply Hmedia.
    + apply hoare_ret. intros fs [[[Hok Hmedia] He] Hn]. split; [done|].
      intros Hm. by apply Hmedia.
  - intros ?; cbv beta. destruct mediaFile as [mediaFile|].
    + apply edit_media_shapes.
    + apply hoare_ret. by intros fs [? _].
Qed.

(** [DeletePost] keeps them too. *)
Lemma remove_images_shapes (relPostDir : string) (imageNames : list string) :
  hoare shapes_ok (remove_images relPostDir imageNames)
    (fun _ => shapes_ok) shapes_ok.
Proof.
  induction imageNames as [|n names IH]; simpl; [by apply hoare_ret|].
  eapply hoare_bind; [apply hoare_git_try|]. intros ?; cbv beta. exact IH.
Qed.

Lemma delete_one_shapes (s : Service) (postID : Z) :
  hoare shapes_ok (delete_one s postID) (fun _ => shapes_ok) shapes_ok.
Proof.
  unfold delete_one. eapply hoare_bind; [apply hoare_os_read|].
  intros [err|imageNames]; cbv beta; [apply hoare_ret; by intros fs [? _]|].
  destruct (0 <? length imageNames)%nat.
  - eapply hoare_bind with (R := fun _ => shapes_ok).
    + apply hoare_os_call; [|by intros fs [? _]].
      intros fs fs' [Hok _] Hrm. destruct fs as [m|]; simpl in Hrm;
        simplify_eq; [by apply shapes_ok_delete | done].
    + intros ?; cbv beta. eapply hoare_bind; [apply hoare_git_try|].
      intros ?; cbv beta. apply remove_images_shapes.
  - eapply hoare_bind with (R := fun _ => shapes_ok).
    + apply hoare_os_try; [|by intros fs [? _]].
      intros fs fs' [Hok _] Hrm. unfold os_Remove in Hrm.
      destruct fs as [m|]; [|discriminate].
      destruct (m !! _) as [[c|d]|]; try discriminate.
      * simplify_eq. by apply shapes_ok_delete.
      * destruct (decide (d = ∅)); simplify_eq. by apply shapes_ok_delete.
    + intros ?; cbv beta. apply hoare_git_try.
Qed.

Lemma delete_loop_shapes (s : Service) (idList : list string) :
  hoare shapes_ok (delete_loop s idList) (fun _ => shapes_ok) shapes_ok.
Proof.
  induction idList as [|idStr rest IH]; simpl; [by apply hoare_ret|].
  destruct (decide (strings_TrimSpace idStr = EmptyString)); [exact IH|].
  destruct (ParseInt (strings_TrimSpace idStr)) as [postID|];
    [|by apply hoare_fail].
  eapply hoare_bind; [apply delete_one_shapes|]. intros ?; cbv beta. exact IH.
Qed.

Lemma DeletePost_shapes (s : Service) (ids : string) :
  hoare shapes_ok (DeletePost s ids) (fun _ => shapes_ok) shapes_ok.
Proof.
  unfold DeletePost. eapply hoare_bind; [apply delete_loop_shapes|].
  intros ?; cbv beta. by apply hoare_git_call.
Qed.

Lemma hoare_run (P Q : FS -> Prop) (c : M unit) (w w' : @World G)
    (r : option string) :
  hoare P c (fun _ => Q) Q -> P w.1 -> run c w = (r, w') -> Q w'.1.
Proof.
  intros Hc HP Hrun. specialize (Hc w HP). unfold run in Hrun.
  destruct (c w) as [[e|u] w1]; by simplify_eq.
Qed.

Lemma hoare_run_ok (P Q : FS -> Prop) (c : M unit) (w w' : @World G) :
  hoare P c (fun _ => Q) any_shape -> P w.1 -> run c w = (None, w') ->
  Q w'.1.
Proof.
  intros Hc HP Hrun. specialize (Hc w HP). unfold run in Hrun.
  destruct (c w) as [[e|u] w1]; by simplify_eq.
Qed.

Lemma reachable_shapes_ok (s : Service) (w : @World G) :
  reachable s w -> shapes_ok w.1.
Proof.
  induction 1 as [g|g|w w' order post r _ IH Hnd Hrun
                 |w w' order post mediaFile rest _ IH Hnl Hrun
                 |w w' order post mediaFile r _ IH Hpre Hrun
                 |w w' ids r _ IH Hrun]; simpl.
  - done.
  - split; [intros name [[c Hc] _]|intros name d Hd];
      by rewrite lookup_empty in *.
  - eapply hoare_run; [apply CreatePost_loose_shapes| |exact Hrun]. done.
  - eapply hoare_run_ok; [apply CreatePost_media_shapes| |exact Hrun]. done.
  - eapply hoare_run; [apply EditPost_shapes| |exact Hrun]. done.
  - eapply hoare_run; [apply DeletePost_shapes| |exact Hrun]. done.
Qed.

(** C1, as the code has it: in every world reached in this way no post
    has both a loose file and a directory. *)
Theorem reachable_one_shape (s : Service) (w : @World G) (id : Z) :
  reachable s w -> ~ both_shapes id w.1.
Proof.
  intros Hreach Hboth. apply reachable_shapes_ok in Hreach.
  destruct w as [[m|] g]; simpl in *; [|done].
  destruct Hreach as [Hnb _]. by apply (Hnb (FormatInt id)).
Qed.

End Shapes.

Lemma reachable_one_shape_witness : ~ both_shapes 456 edited_456.1.
Proof.
  apply (reachable_one_shape test_service edited_456 456).
  eapply (reach_edit test_service created_456 edited_456 map_to_list
            (mkPost 457 EmptyString "Updated content"
               (mkTime 2024 2 21 9 0 0 0) [])
            (Some createPNGBytes) None).
  - eapply (reach_create_media test_service created_200 created_456
              map_to_list
              (mkPost 456 "@testchannel" "Test content with images"
                 (mkTime 2024 2 20 15 45 0 0) [])
              createJPEGBytes [createPNGBytes]).
    + eapply (reach_create_loose test_service (None, []) created_200
                map_to_list
                (mkPost 200 "@testchannel" "Test content"
                   (mkTime 2024 1 15 10 30 0 0) [])
                None).
      * apply reach_absent.
      * intros [].
      * vm_compute. reflexivity.
    + vm_compute. intros [c Hc]. discriminate.
    + vm_compute. reflexivity.
  - intros _ editablePostID He. vm_compute in He. injection He as <-.
    vm_compute. eexists. reflexivity.
  - vm_compute. reflexivity.
Defined.

(** C1, as stated, fails: the post [200] is created without media and then
    edited, under the identifier [205], with a media buffer and no new
    content. Both calls return no error, and the post has the loose file
    [200.md] and the directory [200] afterwards. *)
Lemma EditPost_media_beside_loose_file :
  (run (CreatePost test_service map_to_list
          (mkPost 200 "@testchannel" "Test content"
             (mkTime 2024 1 15 10 30 0 0) [])
          [])
     (None, [])).1 = None
  /\ (run (EditPost test_service map_to_list
             (mkPost 205 EmptyString EmptyString
                (mkTime 2024 1 15 10 30 0 0) [])
             (Some createPNGBytes))
        created_200).1 = None
  /\ both_shapes 200
       (run (EditPost test_service map_to_list
               (mkPost 205 EmptyString EmptyString
                  (mkTime 2024 1 15 10 30 0 0) [])
               (Some createPNGBytes))
          created_200).2.1.
Proof.
  split; [vm_compute; reflexivity|]. split; [vm_compute; reflexivity|].
  vm_compute. split; eexists; reflexivity.
Qed.

(** Two creations under one identifier, the first without and the second
    with media, leave both shapes as well. *)
Example CreatePost_twice_both_shapes :
  both_shapes 200
    (run (CreatePost test_service map_to_list
            (mkPost 200 "@testchannel" "Test content"
               (mkTime 2024 1 15 10 30 0 0) [])
            [createJPEGBytes])
       created_200).2.1.
Proof. vm_compute. split; eexists; reflexivity. Qed.

(** ** The address pattern *)

Example ExtractTitle_EmptyContent :
  ExtractTitle EmptyString "@channel" = "@channel".
Proof. reflexivity. Qed.

Example ExtractTitle_NoAddress :
  ExtractTitle "Some content without address" "@channel" = "@channel".
Proof. vm_compute. reflexivity. Qed.

Example ExtractTitle_WithAddress :
  ExtractTitle ("Some content" +:+ str1 LF +:+ "0x1234abcd") "@channel"
  = "@channel [0x1234abcd]".
Proof. vm_compute. reflexivity. Qed.

Example ExtractTitle_WithAddressAndNewline :
  ExtractTitle ("Some content" +:+ str1 LF +:+ "0x1234abcd" +:+ str1 LF)
    "@channel"
  = "@channel [0x1234abcd]".
Proof. vm_compute. reflexivity. Qed.

Example ExtractTitle_WithAddressAndWhitespace :
  ExtractTitle ("Some content  " +:+ str1 LF +:+ "0x1234abcd") "@channel"
  = "@channel [0x1234abcd]".
Proof. vm_compute. reflexivity. Qed.

Example RemoveAddressPattern_test :
  RemoveAddressPattern ("Some content" +:+ str1 LF +:+ "0x1234abcd")
  = "Some content" +:+ str1 LF.
Proof. vm_compute. reflexivity. Qed.

Example RemoveAddressPattern_WithNewline :
  RemoveAddressPattern
    ("Some content" +:+ str1 LF +:+ "0x1234abcd" +:+ str1 LF)
  = "Some content" +:+ str1 LF.
Proof. vm_compute. reflexivity. Qed.

Example RemoveAddressPattern_NoAddress :
  RemoveAddressPattern "Some content without address"
  = "Some content without address".
Proof. vm_compute. reflexivity. Qed.


(** Without the line break: [0x10x2] loses [0x2] and keeps [0x1]. *)
Example RemoveAddressPattern_adjacent : RemoveAddressPattern "0x10x2" = "0x1".
Proof. vm_compute. reflexivity. Qed.

(** The same in [CreatePost]: the transformer turns the newline between two
    address lines into a hard line break, the title takes the first
    address, and the body keeps the first and loses the second. *)
Example two_address_lines :
  let content := "see" +:+ str1 LF +:+ "0xAA" +:+ str1 LF +:+ "0xBB" in
  ExtractTitle content "@channel" = "@channel [0xAA]"
  /\ RemoveAddressPattern (ProcessContentIn map_to_list content)
     = "see  " +:+ str1 LF +:+ "0xAA".
Proof. vm_compute. split; reflexivity. Qed.

(** *** The equations of the matcher *)

Lemma rmatch_lit (l s : string) caps k :
  rmatch (RLit l) s caps k
  = match strip_prefix l s with Some s' => k s' caps | None => None end.
Proof. reflexivity. Qed.

Lemma rmatch_seq (r1 r2 : regex) (s : string) caps k :
  rmatch (RSeq r1 r2) s caps k
  = rmatch r1 s caps (fun s' caps' => rmatch r2 s' caps' k).
Proof. reflexivity. Qed.

Lemma rmatch_opt (r : regex) (s : string) caps k :
  rmatch (ROpt r) s caps k
  = match rmatch r s caps k with Some x => Some x | None => k s caps end.
Proof. reflexivity. Qed.

Lemma rmatch_group (r : regex) (s : string) caps k :
  rmatch (RGroup r) s caps k
  = rmatch r s caps (fun s' caps' => k s' (caps' ++ [consumed s s'])).
Proof. reflexivity. Qed.

Lemma rmatch_class p (s : string) caps k :
  rmatch (RClass p) s caps k
  = match s with
    | String c s' => if p c then k s' caps else None
    | EmptyString => None
    end.
Proof. reflexivity. Qed.

Lemma rmatch_plus p (s : string) caps k :
  rmatch (RPlus p) s caps k = greedy_plus p s (fun s' => k s' caps).
Proof. reflexivity. Qed.

Lemma rmatch_star_lazy p (s : string) caps k :
  rmatch (RStarLazy p) s caps k = lazy_star p s (fun s' => k s' caps).
Proof. reflexivity. Qed.


Lemma strip_prefix_cons (a b : ascii) (p s : string) :
  strip_prefix (String a p) (String b s)
  = if Ascii.eqb a b then strip_prefix p s else None.
Proof. reflexivity. Qed.

Lemma strip_prefix_LF (b : ascii) (s : string) :
  strip_prefix (str1 LF) (String b s) = if Ascii.eqb LF b then Some s else None.
Proof. reflexivity. Qed.

Lemma strip_prefix_app (l s : string) : strip_prefix l (l +:+ s) = Some s.
Proof.
  induction l as [|c l IH]; [reflexivity|].
  rewrite sapp_cons. simpl. by rewrite Ascii.eqb_refl.
Qed.

Lemma greedy_star_all {R : Type} (u tail : string)
    (k : string -> option R) (x : R) :
  all_hex u = true ->
  greedy_star hex_digit tail k = Some x ->
  greedy_star hex_digit (u +:+ tail) k = Some x.
Proof.
  intros Hu Hk. induction u as [|c u IH]; [exact Hk|].
  simpl in Hu. apply andb_prop in Hu as [Hc Hu].
  rewrite sapp_cons. simpl. rewrite Hc, (IH Hu). reflexivity.
Qed.

Lemma addressRegex_parts :
  addressRegex = RSeq (ROpt address_group) address_core.
Proof. reflexivity. Qed.

Lemma core_token (h tail : string) (caps : list string) :
  h <> EmptyString -> all_hex h = true -> line_end tail ->
  rmatch address_core ("0x" +:+ h +:+ tail) caps (fun s' c => Some (s', c))
  = Some (EmptyString, caps).
Proof.
  intros Hne Hh Htail. unfold address_core.
  rewrite rmatch_seq, rmatch_lit, strip_prefix_app, rmatch_seq, rmatch_plus.
  destruct h as [|c h]; [done|].
  simpl in Hh. apply andb_prop in Hh as [Hc Hh].
  rewrite sapp_cons. unfold greedy_plus. rewrite Hc.
  apply greedy_star_all; [exact Hh|].
  destruct Htail as [->| ->]; reflexivity.
Qed.

Lemma core_needs_0x (s : string) (caps : list string) k :
  strip_prefix "0x" s = None -> rmatch address_core s caps k = None.
Proof.
  intros Hs. unfold address_core. by rewrite rmatch_seq, rmatch_lit, Hs.
Qed.

(** Where a match of the address pattern can start. *)
Lemma match_at_address_inv (s rest : string) (caps : list string) :
  match_at addressRegex s = Some (rest, caps) ->
  strip_prefix "0x" s <> None
  \/ exists a b s3,
       s = String a (String b (String LF s3))
       /\ re_space a = true /\ re_space b = true
       /\ strip_prefix "0x" s3 <> None.
Proof.
  unfold match_at. rewrite addressRegex_parts, rmatch_seq, rmatch_opt.
  unfold address_group at 1.
  rewrite rmatch_group, rmatch_seq, rmatch_class.
  destruct (strip_prefix "0x" s) eqn:H0x; [intros _; by left|].
  rewrite (core_needs_0x s) by done.
  destruct s as [|a s1]; [discriminate|].
  destruct (re_space a) eqn:Ha; [|discriminate].
  rewrite rmatch_seq, rmatch_class.
  destruct s1 as [|b s2]; [discriminate|].
  destruct (re_space b) eqn:Hb; [|discriminate].
  rewrite rmatch_lit.
  destruct s2 as [|c s3]; [discriminate|].
  rewrite strip_prefix_LF.
  destruct (Ascii.eqb LF c) eqn:Hc; [|discriminate].
  apply Ascii.eqb_eq in Hc. subst c.
  destruct (strip_prefix "0x" s3) eqn:H3.
  - intros _. right. exists a, b, s3. rewrite H3. done.
  - rewrite core_needs_0x by done. discriminate.
Qed.

Lemma match_at_address_token (h tail : string) :
  h <> EmptyString -> all_hex h = true -> line_end tail ->
  match_at addressRegex ("0x" +:+ h +:+ tail) = Some (EmptyString, []).
Proof.
  intros Hne Hh Htail.
  unfold match_at. rewrite addressRegex_parts, rmatch_seq, rmatch_opt.
  unfold address_group at 1.
  rewrite rmatch_group, rmatch_seq, rmatch_class.
  rewrite sapp_cons. replace (re_space "0") with false by reflexivity.
  rewrite <- sapp_cons. by apply core_token.
Qed.


(** The replacement loop. *)
Lemma replace_matches_skip_all {St : Type} (r : regex) f (n : nat)
    (s : string) (st : St) :
  (String.length s <= n)%nat ->
  replace_matches r f n s st = (EmptyString, st).
Proof.
  revert n. induction s as [|c s IH]; intros n Hn; [reflexivity|].
  simpl in Hn. destruct n as [|n]; [lia|]. simpl. apply IH. lia.
Qed.

Lemma replace_matches_no_match {St : Type} (r : regex) f (c : ascii)
    (s : string) (st : St) :
  match_at r (String c s) = None ->
  replace_matches r f O (String c s) st
  = let '(t, st1) := replace_matches r f O s st in (String c t, st1).
Proof. intros Hm. simpl. by rewrite Hm. Qed.

Lemma take_string_length (u : string) : take_string (String.length u) u = u.
Proof. induction u as [|a u IH]; [reflexivity|]. simpl. by rewrite IH. Qed.

Lemma consumed_all (u : string) : consumed u EmptyString = u.
Proof.
  unfold consumed. simpl String.length at 2. rewrite Nat.sub_0_r.
  apply take_string_length.
Qed.

Lemma replace_matches_to_end {St : Type} (r : regex) f (c : ascii)
    (s : string) (caps : list string) (st : St) :
  match_at r (String c s) = Some (EmptyString, caps) ->
  replace_matches r f O (String c s) st
  = let '(out, st1) := f (String c s) caps st in (out +:+ EmptyString, st1).
Proof.
  intros Hm. cbn [replace_matches]. rewrite Hm.
  cbn [String.length Nat.sub]. rewrite consumed_all.
  destruct (f (String c s) caps st) as [out st1].
  by rewrite replace_matches_skip_all.
Qed.

Lemma strings_Contains_cons (c : ascii) (s sub : string) :
  strings_Contains (String c s) sub
  = strings_HasPrefix (String c s) sub || strings_Contains s sub.
Proof. reflexivity. Qed.

Lemma RemoveAddressPattern_token (h tail : string) :
  h <> EmptyString -> all_hex h = true -> line_end tail ->
  RemoveAddressPattern ("0x" +:+ h +:+ tail) = EmptyString.
Proof.
  intros Hne Hh Htail. unfold RemoveAddressPattern, ReplaceAllString.
  pose proof (match_at_address_token h tail Hne Hh Htail) as Hm.
  rewrite sapp_cons in *. by rewrite (replace_matches_to_end _ _ _ _ _ _ Hm).
Qed.

Lemma strings_Contains_prefix (s sub : string) :
  strings_HasPrefix s sub = true -> strings_Contains s sub = true.
Proof. intros Hp. destruct s; simpl; by rewrite Hp. Qed.


Lemma RemoveAddressPattern_cons (c : ascii) (s : string) :
  match_at addressRegex (String c s) = None ->
  RemoveAddressPattern (String c s) = String c (RemoveAddressPattern s).
Proof.
  intros Hm. unfold RemoveAddressPattern, ReplaceAllString.
  rewrite replace_matches_no_match by done.
  by destruct (replace_matches _ _ _ s tt).
Qed.



Lemma strings_Contains_app_r (p sub r : string) :
  strings_Contains (p +:+ sub +:+ r) sub = true.
Proof.
  induction p as [|c p IH].
  - rewrite sapp_nil_l. apply strings_Contains_prefix.
    unfold strings_HasPrefix. by rewrite strip_prefix_app.
  - by rewrite sapp_cons, strings_Contains_cons, IH, orb_true_r.
Qed.


(** *** The title *)

Lemma nat_of_ascii_byte (c : ascii) :
  nat_of_ascii c = Byte.to_nat (byte_of_ascii c).
Proof. destruct c as [[] [] [] [] [] [] [] []]; reflexivity. Qed.









Lemma trim_stop (width : string -> nat) (s : string) :
  width s = O -> trim_spaces width O s = s.
Proof. intros Hw. destruct s as [|c s]; [reflexivity|]. simpl. by rewrite Hw. Qed.


Lemma list_ascii_app (s t : string) :
  list_ascii_of_string (s +:+ t)
  = (list_ascii_of_string s ++ list_ascii_of_string t)%list.
Proof.
  induction s as [|c s IH]; [reflexivity|].
  rewrite sapp_cons. simpl. by rewrite IH.
Qed.

Lemma string_of_list_app (l k : list ascii) :
  string_of_list_ascii (l ++ k)
  = string_of_list_ascii l +:+ string_of_list_ascii k.
Proof.
  induction l as [|c l IH]; [reflexivity|].
  simpl. by rewrite sapp_cons, IH.
Qed.

Lemma string_rev_app (s t : string) :
  string_rev (s +:+ t) = string_rev t +:+ string_rev s.
Proof.
  unfold string_rev. by rewrite list_ascii_app, rev_app_distr, string_of_list_app.
Qed.

Lemma string_rev_involutive (s : string) : string_rev (string_rev s) = s.
Proof.
  unfold string_rev.
  by rewrite list_ascii_of_string_of_list_ascii, rev_involutive,
    string_of_list_ascii_of_string.
Qed.

Lemma string_rev_cons (c : ascii) (s : string) :
  string_rev (String c s) = string_rev s +:+ str1 c.
Proof. apply (string_rev_app (str1 c) s). Qed.





Lemma find_match_here (r : regex) (s : string) (caps : list string) :
  match_at r s = Some (EmptyString, caps) -> find_match r s = Some (s, caps).
Proof.
  intros Hm. destruct s as [|c s]; simpl; rewrite Hm; [reflexivity|].
  by rewrite consumed_all.
Qed.

Lemma find_match_later (r : regex) (c : ascii) (s : string) :
  match_at r (String c s) = None ->
  find_match r (String c s) = find_match r s.
Proof. intros Hm. simpl. by rewrite Hm. Qed.



(** *** The replacement loop at a match

    Where the content has no [0x] the pattern does not match; at a match
    the loop goes over the bytes of the match and on behind it. *)

Lemma strings_Contains_tail (c : ascii) (s sub : string) :
  strings_Contains (String c s) sub = false -> strings_Contains s sub = false.
Proof. rewrite strings_Contains_cons. by intros [_ ?]%orb_false_elim. Qed.

Lemma match_at_address_none (s : string) :
  strings_Contains s "0x" = false -> match_at addressRegex s = None.
Proof.
  intros Hs. destruct (match_at addressRegex s) as [[rest caps]|] eqn:Hm;
    [|reflexivity].
  exfalso.
  apply match_at_address_inv in Hm as [H0x|(a & b & s3 & -> & _ & _ & H3)].
  - destruct s as [|c s].
    + by apply H0x.
    + rewrite strings_Contains_cons in Hs.
      apply orb_false_elim in Hs as [Hp _]. unfold strings_HasPrefix in Hp.
      by destruct (strip_prefix "0x" (String c s)).
  - rewrite !strings_Contains_cons in Hs.
    apply orb_false_elim in Hs as [_ Hs].
    apply orb_false_elim in Hs as [_ Hs].
    apply orb_false_elim in Hs as [_ Hs].
    destruct s3 as [|c s]; [by apply H3|].
    rewrite strings_Contains_cons in Hs.
    apply orb_false_elim in Hs as [Hp _]. unfold strings_HasPrefix in Hp.
    by destruct (strip_prefix "0x" (String c s)).
Qed.

Lemma replace_matches_skip {St : Type} (r : regex)
    (f : string -> list string -> St -> string * St) (u v : string) (st : St) :
  replace_matches r f (String.length u) (u +:+ v) st
  = replace_matches r f O v st.
Proof.
  induction u as [|c u IH]; [by rewrite sapp_nil_l|].
  rewrite sapp_cons. cbn [String.length replace_matches]. exact IH.
Qed.

Lemma consumed_app (u v : string) : consumed (u +:+ v) v = u.
Proof.
  unfold consumed. rewrite slength_app.
  replace (String.length u + String.length v - String.length v)%nat
    with (String.length u) by lia.
  induction u as [|c u IH]; [by destruct v|].
  rewrite sapp_cons. cbn [String.length take_string]. by rewrite IH.
Qed.

Lemma replace_matches_hit {St : Type} (r : regex)
    (f : string -> list string -> St -> string * St) (c : ascii)
    (u rest : string) (caps : list string) (st : St) :
  match_at r (String c (u +:+ rest)) = Some (rest, caps) ->
  replace_matches r f O (String c (u +:+ rest)) st
  = let '(out, st1) := f (String c u) caps st in
    let '(t, st2) := replace_matches r f O rest st1 in
    (out +:+ t, st2).
Proof.
  intros Hm. cbn [replace_matches]. rewrite Hm.
  cbn [String.length]. rewrite slength_app.
  replace (S (String.length u + String.length rest) - String.length rest)%nat
    with (S (String.length u)) by lia.
  rewrite <- sapp_cons, consumed_app.
  destruct (f (String c u) caps st) as [out st1].
  by rewrite replace_matches_skip.
Qed.

(** *** A content with one occurrence of [0x] *)









Lemma strip_break_cons (a : ascii) (s : string) :
  (forall b, s = String b (String LF EmptyString) ->
             re_space a && re_space b = false) ->
  strip_break (String a s) = String a (strip_break s).
Proof.
  intros Hs. cbn [strip_break].
  destruct s as [|b [|c [|d s]]]; try reflexivity.
  destruct (Ascii.eqb_spec c LF) as [->|]; [|by rewrite andb_false_r].
  by rewrite (Hs b eq_refl).
Qed.

(** [strip_break] removes a hard line break at the end, and only that. *)
Lemma strip_break_break (p : string) (a b : ascii) :
  re_space a = true -> re_space b = true ->
  strip_break (p +:+ String a (String b (str1 LF))) = p.
Proof.
  intros Ha Hb. induction p as [|c p IH].
  - rewrite sapp_nil_l. cbn [strip_break str1].
    by rewrite Ha, Hb, Ascii.eqb_refl.
  - rewrite sapp_cons, strip_break_cons; [by rewrite IH|].
    intros d Heq. apply (f_equal String.length) in Heq.
    rewrite slength_app in Heq. cbn in Heq. lia.
Qed.

Example strip_break_examples :
  strip_break ("Some content  " +:+ str1 LF) = "Some content"
  /\ strip_break ("Some content" +:+ str1 LF) = "Some content" +:+ str1 LF
  /\ strip_break "Some content " = "Some content ".
Proof. repeat split. Qed.

















(** ** The markup transformer *)

Lemma map_to_list_order : iteration_order map_to_list.
Proof. intros m. reflexivity. Qed.

Lemma reverse_order : iteration_order (fun m => reverse (map_to_list m)).
Proof. intros m. apply reverse_Permutation. Qed.

(** The cases of processor_test.go hold in every run. *)
Example ProcessContent_Empty (out : string) :
  ProcessContent EmptyString out -> out = EmptyString.
Proof. by intros (order & _ & ->). Qed.

Example ProcessContent_LineBreaks (out : string) :
  ProcessContent ("Line 1" +:+ str1 LF +:+ "Line 2" +:+ str1 LF +:+ "Line 3")
    out ->
  out = "Line 1  " +:+ str1 LF +:+ "Line 2  " +:+ str1 LF +:+ "Line 3".
Proof. intros (order & Horder & ->). run_in_order Horder. one_order Hm. Qed.

Example ProcessContent_SpoilerTags (out : string) :
  ProcessContent "This is a <spoiler>hidden message</spoiler> in the text"
    out ->
  out = "This is a <span class=" +:+ String DQ "spoiler" +:+ String DQ
        ">hidden message</span> in the text".
Proof. intros (order & Horder & ->). run_in_order Horder. one_order Hm. Qed.

Example ProcessContent_InlineCodeWithAngleBrackets (out : string) :
  ProcessContent "Check <code>if x < 10 && y > 5</code> condition" out ->
  out = "Check <code>if x &lt; 10 && y &gt; 5</code> condition".
Proof. intros (order & Horder & ->). run_in_order Horder. one_order Hm. Qed.

Example ProcessContent_CodeBlock (out : string) :
  ProcessContent
    (fenced "go"
       ("package main" +:+ str1 LF +:+ str1 LF +:+ "func main() {"
        +:+ str1 LF +:+ "    println(1)" +:+ str1 LF +:+ "}" +:+ str1 LF))
    out ->
  out = rendered "go"
          ("package main" +:+ str1 LF +:+ str1 LF +:+ "func main() {"
           +:+ str1 LF +:+ "    println(1)" +:+ str1 LF +:+ "}").
Proof. intros (order & Horder & ->). run_in_order Horder. one_order Hm. Qed.

Example ProcessContent_Blockquote (out : string) :
  ProcessContent
    ("<blockquote>This is a quote" +:+ str1 LF
     +:+ "with multiple lines</blockquote>") out ->
  out = "<blockquote>This is a quote<br>with multiple lines</blockquote>".
Proof. intros (order & Horder & ->). run_in_order Horder. one_order Hm. Qed.

Example ProcessContent_ComplexContent (out : string) :
  ProcessContent
    ("Here's some text" +:+ str1 LF +:+ "with line breaks." +:+ str1 LF
     +:+ str1 LF +:+ "<blockquote>This is quoted" +:+ str1 LF
     +:+ "text</blockquote>" +:+ str1 LF +:+ str1 LF
     +:+ "More text with <spoiler>hidden content</spoiler>." +:+ str1 LF
     +:+ str1 LF
     +:+ fenced "go"
           ("func test() {" +:+ str1 LF +:+ "    return true" +:+ str1 LF
            +:+ "}" +:+ str1 LF)
     +:+ str1 LF +:+ str1 LF +:+ "Final text.") out ->
  out = "Here's some text  " +:+ str1 LF +:+ "with line breaks.  " +:+ str1 LF
        +:+ str1 LF +:+ "<blockquote>This is quoted<br>text</blockquote>  "
        +:+ str1 LF +:+ str1 LF +:+ "More text with <span class="
        +:+ String DQ "spoiler" +:+ String DQ ">hidden content</span>.  "
        +:+ str1 LF +:+ str1 LF
        +:+ rendered "go"
              ("func test() {" +:+ str1 LF +:+ "    return true" +:+ str1 LF
               +:+ "}")
        +:+ "  " +:+ str1 LF +:+ str1 LF +:+ "Final text.".
Proof. intros (order & Horder & ->). run_in_order Horder. one_order Hm. Qed.

(** The placeholders of the first blocks differ; from the block number
    55231 on they do not, since [string(rune(n))] is U+FFFD for every
    surrogate [n]. *)
Example placeholder_of_first :
  placeholder_of 0 = "___CODEBLOCK_A___"
  /\ placeholder_of 1 = "___CODEBLOCK_B___".
Proof. split; reflexivity. Qed.

Example placeholder_of_surrogates : placeholder_of 55231 = placeholder_of 55232.
Proof. vm_compute. reflexivity. Qed.

(** With at most one fenced block in the content the map has at most one
    entry, the loop has one order, and every run returns the same string. *)
Lemma Permutation_short {A : Type} (l k : list A) :
  (length k <= 1)%nat -> l ≡ₚ k -> l = k.
Proof.
  intros Hlen Hp. destruct k as [|x [|y k]]; [| |simpl in Hlen; lia].
  - by apply Permutation_nil, Permutation_sym.
  - by apply Permutation_length_1_inv, Permutation_sym.
Qed.

Lemma ProcessContent_one_block (content out1 out2 : string) :
  (length (map_to_list (extract_stage content).2) <= 1)%nat ->
  ProcessContent content out1 -> ProcessContent content out2 -> out1 = out2.
Proof.
  intros Hlen (o1 & Ho1 & ->) (o2 & Ho2 & ->). unfold ProcessContentIn.
  destruct (decide _); [reflexivity|].
  destruct (extract_stage content) as [c m]. simpl in Hlen.
  by rewrite (Permutation_short _ _ Hlen (Ho1 m)),
    (Permutation_short _ _ Hlen (Ho2 m)).
Qed.

(** C6 at an input with two fenced blocks, the first of which has the text
    of the placeholder of the second as its body: one order of the loop
    over the map keeps the body, the other puts the second block into
    it. *)
Theorem ProcessContent_two_results :
  ProcessContent (fenced "a" (placeholder_of 1) +:+ fenced "b" "x")
    (rendered "a" (placeholder_of 1) +:+ rendered "b" "x")
  /\ ProcessContent (fenced "a" (placeholder_of 1) +:+ fenced "b" "x")
       (rendered "a" (rendered "b" "x") +:+ rendered "b" "x")
  /\ rendered "a" (placeholder_of 1) +:+ rendered "b" "x"
     <> rendered "a" (rendered "b" "x") +:+ rendered "b" "x".
Proof.
  split; [|split].
  - exists (fun m => reverse (map_to_list m)).
    split; [apply reverse_order | vm_compute; reflexivity].
  - exists map_to_list.
    split; [apply map_to_list_order | vm_compute; reflexivity].
  - vm_compute. discriminate.
Qed.

(** C5 at an input with two fenced blocks, each with the text of the
    placeholder of the other as its body: in no run does the output hold
    both blocks as they were; the block reinserted first gets the other
    block put into its body. *)
Theorem ProcessContent_blocks_mixed (out : string) :
  ProcessContent
    (fenced "a" (placeholder_of 1) +:+ fenced "b" (placeholder_of 0)) out ->
  (out = rendered "a" (rendered "b" (placeholder_of 0))
         +:+ rendered "b" (placeholder_of 0)
   \/ out = rendered "a" (placeholder_of 1)
            +:+ rendered "b" (rendered "a" (placeholder_of 1)))
  /\ ~ (strings_Contains out (rendered "a" (placeholder_of 1)) = true
        /\ strings_Contains out (rendered "b" (placeholder_of 0)) = true).
Proof.
  intros (order & Horder & ->). run_in_order Horder.
  apply Permutation_sym, Permutation_length_2_inv in Hm.
  destruct Hm as [Hm|Hm]; rewrite Hm; vm_compute;
    (split; [auto | intros [? ?]; discriminate]).
Qed.

Lemma ProcessContent_blocks_mixed_witness :
  let out :=
    ProcessContentIn map_to_list
      (fenced "a" (placeholder_of 1) +:+ fenced "b" (placeholder_of 0)) in
  (out = rendered "a" (rendered "b" (placeholder_of 0))
         +:+ rendered "b" (placeholder_of 0)
   \/ out = rendered "a" (placeholder_of 1)
            +:+ rendered "b" (rendered "a" (placeholder_of 1)))
  /\ ~ (strings_Contains out (rendered "a" (placeholder_of 1)) = true
        /\ strings_Contains out (rendered "b" (placeholder_of 0)) = true).
Proof.
  apply (ProcessContent_blocks_mixed
           (ProcessContentIn map_to_list
              (fenced "a" (placeholder_of 1)
               +:+ fenced "b" (placeholder_of 0)))).
  exists map_to_list. split; [apply map_to_list_order | reflexivity].
Defined.

(** * Further properties of the code *)

(** ** Identifiers as text *)

Lemma all_chars_app (p : ascii -> bool) (s t : string) :
  all_chars p (s +:+ t) = all_chars p s && all_chars p t.
Proof.
  induction s as [|c s IH]; [reflexivity|].
  rewrite sapp_cons. simpl. by rewrite IH, andb_assoc.
Qed.

Lemma all_chars_impl (p q : ascii -> bool) (s : string) :
  (forall c, p c = true -> q c = true) ->
  all_chars p s = true -> all_chars q s = true.
Proof.
  intros Hpq. induction s as [|c s IH]; [done|]. simpl.
  intros [Hc Hs]%andb_prop. by rewrite (Hpq c Hc), IH.
Qed.

Lemma digits_of_uint (d : Decimal.uint) :
  all_chars is_digit (NilEmpty.string_of_uint d) = true.
Proof. induction d; simpl; try done. Qed.

(** [parse_digits] reads back what [string_of_uint] writes. *)
Lemma parse_digits_acc (d : Decimal.uint) (acc : positive) :
  parse_digits (NilEmpty.string_of_uint d) (Z.pos acc)
  = Some (Z.pos (Pos.of_uint_acc d acc)).
Proof.
  revert acc. induction d; intros acc; [reflexivity|..];
    cbn [NilEmpty.string_of_uint parse_digits Pos.of_uint_acc];
    match goal with
    | |- context [digit_val ?c] =>
        let v := eval vm_compute in (digit_val c) in
        change (digit_val c) with v
    end; cbv iota;
    match goal with
    | |- parse_digits _ ?a = Some (Z.pos (Pos.of_uint_acc _ ?b)) =>
        replace a with (Z.pos b) by lia
    end; apply IHd.
Qed.

Lemma parse_digits_uint (d : Decimal.uint) :
  parse_digits (NilEmpty.string_of_uint d) 0 = Some (Z.of_N (Pos.of_uint d)).
Proof.
  induction d; [reflexivity|..];
    cbn [NilEmpty.string_of_uint parse_digits Pos.of_uint];
    match goal with
    | |- context [digit_val ?c] =>
        let v := eval vm_compute in (digit_val c) in
        change (digit_val c) with v
    end; cbv iota; [exact IHd|..];
    match goal with
    | |- parse_digits _ ?a = _ =>
        let v := eval vm_compute in a in change a with v
    end; rewrite parse_digits_acc; reflexivity.
Qed.

Lemma string_of_pos_digits (p : positive) :
  exists c r, NilZero.string_of_uint (Pos.to_uint p) = String c r
              /\ is_digit c = true /\ all_chars is_digit r = true
              /\ NilZero.string_of_uint (Pos.to_uint p)
                 = NilEmpty.string_of_uint (Pos.to_uint p).
Proof.
  pose proof (DecimalPos.Unsigned.to_uint_nonnil p) as Hnn.
  pose proof (digits_of_uint (Pos.to_uint p)) as Hd.
  destruct (Pos.to_uint p) eqn:E; [done|..];
    (eexists _, _; split; [reflexivity|]);
    simpl in Hd; (split; [reflexivity|split; [exact Hd|reflexivity]]).
Qed.

Lemma is_digit_not_sign (c : ascii) :
  is_digit c = true -> ascii_is c x2b = false /\ ascii_is c x2d = false.
Proof.
  unfold is_digit, digit_val, ascii_is.
  destruct (_ && _) eqn:E; [|done]. intros _.
  apply andb_prop in E as [H1%Z.leb_le H2%Z.leb_le].
  split; apply not_true_is_false; intros Hb%byte_eqb_eq;
    apply (f_equal ascii_of_byte) in Hb; rewrite ascii_of_byte_of_ascii in Hb;
    subst c; vm_compute in H1; vm_compute in H2;
    try (by apply H1); try (by apply H2).
Qed.

(** [strconv.ParseInt] reads back what [strconv.FormatInt] writes. *)
Lemma ParseInt_FormatInt (z : Z) : in_int64 z -> ParseInt (FormatInt z) = Some z.
Proof.
  unfold in_int64, FormatInt. intros Hz. destruct z as [|p|p].
  - reflexivity.
  - cbn [Z.to_int NilZero.string_of_int].
    destruct (string_of_pos_digits p) as (c & r & Hs & Hc & Hr & He).
    unfold ParseInt. rewrite Hs.
    destruct (is_digit_not_sign c Hc) as [-> ->]. cbn [orb negb andb].
    rewrite <- Hs, He. unfold ParseUint.
    rewrite parse_digits_uint, DecimalPos.Unsigned.of_to.
    rewrite He in Hs. rewrite Hs. cbn [Z.of_N].
    destruct (Z.leb_spec (2 ^ 63) (Z.pos p)); [lia|]. reflexivity.
  - cbn [Z.to_int NilZero.string_of_int].
    destruct (string_of_pos_digits p) as (c & r & Hs & Hc & Hr & He).
    unfold ParseInt.
    change (ascii_is "-" x2d) with true.
    change (ascii_is "-" x2b) with false. cbn [orb negb andb].
    rewrite He. unfold ParseUint.
    rewrite parse_digits_uint, DecimalPos.Unsigned.of_to.
    rewrite He in Hs. rewrite Hs. cbn [Z.of_N].
    destruct (Z.ltb_spec (2 ^ 63) (Z.pos p)); [lia|]. reflexivity.
Qed.

Lemma parse_digits_FormatInt (z : Z) :
  0 <= z -> parse_digits (FormatInt z) 0 = Some z.
Proof.
  intros Hz. unfold FormatInt. destruct z as [|p|p]; [reflexivity| |lia].
  cbn [Z.to_int NilZero.string_of_int].
  destruct (string_of_pos_digits p) as (c & r & _ & _ & _ & ->).
  by rewrite parse_digits_uint, DecimalPos.Unsigned.of_to.
Qed.

Lemma FormatInt_chars (z : Z) : all_chars id_char (FormatInt z) = true.
Proof.
  assert (forall r, all_chars is_digit r = true -> all_chars id_char r = true)
    as Hweak.
  { intros r. apply all_chars_impl. intros a Ha. unfold id_char. by rewrite Ha. }
  unfold FormatInt. destruct z as [|p|p]; [reflexivity|..];
    cbn [Z.to_int NilZero.string_of_int];
    destruct (string_of_pos_digits p) as (c & r & Hs & Hc & Hr & He);
    rewrite Hs.
  - apply (Hweak (String c r)). cbn [all_chars]. by apply andb_true_intro.
  - cbn [all_chars]. apply andb_true_intro. split; [reflexivity|].
    apply (Hweak (String c r)). cbn [all_chars]. by apply andb_true_intro.
Qed.

Lemma FormatInt_nonempty (z : Z) : FormatInt z <> EmptyString.
Proof.
  unfold FormatInt. destruct z as [|p|p]; [done|..];
    cbn [Z.to_int NilZero.string_of_int];
    destruct (string_of_pos_digits p) as (c & r & Hs & _); by rewrite ?Hs.
Qed.

Lemma id_char_differs (a c : ascii) :
  id_char a = false -> id_char c = true -> differs a c = true.
Proof.
  intros Ha Hc. unfold differs.
  destruct (Ascii.eqb_spec c a) as [->|]; [congruence|reflexivity].
Qed.

Lemma FormatInt_differs (a : ascii) (z : Z) :
  id_char a = false -> all_chars (differs a) (FormatInt z) = true.
Proof.
  intros Ha. eapply all_chars_impl; [|apply FormatInt_chars].
  intros c. by apply id_char_differs.
Qed.

Lemma id_char_range (c : ascii) :
  id_char c = true -> (45 <= nat_of_ascii c <= 57)%nat.
Proof.
  unfold id_char, is_digit, digit_val, ascii_is.
  intros [Hd|Hm]%orb_prop.
  - destruct (_ && _) eqn:E; [|done].
    apply andb_prop in E as [H1%Z.leb_le H2%Z.leb_le]. lia.
  - apply byte_eqb_eq in Hm. apply (f_equal ascii_of_byte) in Hm.
    rewrite ascii_of_byte_of_ascii in Hm. subst c. vm_compute. lia.
Qed.

Lemma id_char_ascii_is (c : ascii) (b : byte) :
  id_char c = true ->
  (Byte.to_nat b < 45 \/ 57 < Byte.to_nat b)%nat ->
  ascii_is c b = false.
Proof.
  intros Hc Hb. apply id_char_range in Hc.
  unfold ascii_is. destruct (Byte.eqb (byte_of_ascii c) b) eqn:Heq; [|done].
  apply byte_eqb_eq in Heq. rewrite nat_of_ascii_byte, Heq in Hc. lia.
Qed.

(** A substring whose first byte does not occur, or one that holds a byte
    that does not occur, is not contained. *)
Lemma strings_Contains_absent (a : ascii) (r s : string) :
  all_chars (differs a) s = true -> strings_Contains s (String a r) = false.
Proof.
  induction s as [|c s IH]; [reflexivity|].
  cbn [all_chars]. intros [Hc Hs]%andb_prop.
  rewrite strings_Contains_cons, (IH Hs), orb_false_r.
  unfold strings_HasPrefix. rewrite strip_prefix_cons.
  unfold differs in Hc. rewrite Ascii.eqb_sym in Hc.
  by destruct (Ascii.eqb a c).
Qed.

Lemma strings_Contains_char (a : ascii) (s : string) :
  strings_Contains s (str1 a) = false -> all_chars (differs a) s = true.
Proof.
  induction s as [|c s IH]; [reflexivity|].
  rewrite strings_Contains_cons. intros [Hp Hs]%orb_false_elim.
  cbn [all_chars]. rewrite (IH Hs), andb_true_r.
  unfold strings_HasPrefix, str1 in Hp. rewrite strip_prefix_cons in Hp.
  unfold differs. rewrite Ascii.eqb_sym. by destruct (Ascii.eqb a c).
Qed.

Lemma strip_prefix_chars (p : ascii -> bool) (old s rest : string) :
  strip_prefix old s = Some rest ->
  all_chars p s = true -> all_chars p old = true.
Proof.
  revert s. induction old as [|a old IH]; intros s; [done|].
  destruct s as [|c s]; [done|]. rewrite strip_prefix_cons.
  destruct (Ascii.eqb_spec a c) as [->|]; [|done].
  cbn [all_chars]. intros Hr [Hc Hs]%andb_prop.
  by rewrite Hc, (IH s).
Qed.

Lemma strings_Contains_missing (a : ascii) (s old : string) :
  all_chars (differs a) s = true ->
  all_chars (differs a) old = false ->
  strings_Contains s old = false.
Proof.
  intros Hs Hold. induction s as [|c s IH].
  - cbn. unfold strings_HasPrefix.
    destruct (strip_prefix old EmptyString) as [rest|] eqn:Hp; [|reflexivity].
    by rewrite (strip_prefix_chars _ _ _ _ Hp Hs) in Hold.
  - rewrite strings_Contains_cons. unfold strings_HasPrefix.
    destruct (strip_prefix old (String c s)) as [rest|] eqn:Hp.
    + by rewrite (strip_prefix_chars _ _ _ _ Hp Hs) in Hold.
    + cbn [all_chars] in Hs. apply andb_prop in Hs as [_ Hs]. by apply IH.
Qed.

(** [strings.Split] where the separator first occurs, and where it does
    not occur. *)
Lemma split_on_stop (sep : ascii) (cur d rest : string) :
  all_chars (differs sep) d = true ->
  split_on sep cur (d +:+ String sep rest)
  = (cur +:+ d) :: split_on sep EmptyString rest.
Proof.
  revert cur. induction d as [|c d IH]; intros cur.
  - intros _. rewrite sapp_nil_l, sapp_nil_r. simpl. by rewrite Ascii.eqb_refl.
  - cbn [all_chars]. intros [Hc Hd]%andb_prop. rewrite sapp_cons. simpl.
    unfold differs in Hc. destruct (Ascii.eqb c sep); [done|].
    rewrite (IH _ Hd), sapp_assoc. by rewrite sapp_cons, sapp_nil_l.
Qed.

Lemma split_on_none (sep : ascii) (cur d : string) :
  all_chars (differs sep) d = true -> split_on sep cur d = [cur +:+ d].
Proof.
  revert cur. induction d as [|c d IH]; intros cur.
  - intros _. by rewrite sapp_nil_r.
  - cbn [all_chars]. intros [Hc Hd]%andb_prop. simpl.
    unfold differs in Hc. destruct (Ascii.eqb c sep); [done|].
    rewrite (IH _ Hd), sapp_assoc. by rewrite sapp_cons, sapp_nil_l.
Qed.

(** [strings.TrimSpace] leaves the text of an identifier as it is. *)
Lemma space_width_id (c1 : ascii) (r : string) :
  id_char c1 = true -> space_width (String c1 r) = O.
Proof.
  intros Hc. unfold space_width, unicode_space2, unicode_space3, ascii_space.
  rewrite !(id_char_ascii_is c1) by (assumption || (simpl; lia)).
  by destruct r as [|c2 [|c3 r]].
Qed.

Lemma space_width_rev_id (c1 : ascii) (r : string) :
  id_char c1 = true -> space_width_rev (String c1 r) = O.
Proof.
  intros Hc. unfold space_width_rev, unicode_space2, unicode_space3, ascii_space.
  rewrite !(id_char_ascii_is c1) by (assumption || (simpl; lia)).
  apply id_char_range in Hc.
  destruct (Nat.leb_spec 128 (nat_of_ascii c1)); [lia|].
  destruct r as [|c2 [|c3 r]]; cbn [orb andb]; rewrite ?andb_false_r;
    reflexivity.
Qed.

Lemma string_rev_chars (p : ascii -> bool) (s : string) :
  all_chars p s = true -> all_chars p (string_rev s) = true.
Proof.
  induction s as [|c s IH]; [reflexivity|].
  cbn [all_chars]. intros [Hc Hs]%andb_prop.
  rewrite string_rev_cons, all_chars_app, (IH Hs). cbn. by rewrite Hc.
Qed.

Lemma strings_TrimSpace_id (s : string) :
  all_chars id_char s = true -> strings_TrimSpace s = s.
Proof.
  intros Hs. unfold strings_TrimSpace.
  assert (forall t, all_chars id_char t = true ->
                    trim_spaces space_width O t = t) as Hl.
  { intros [|c t] Ht; [reflexivity|]. apply trim_stop.
    cbn [all_chars] in Ht. apply andb_prop in Ht as [Hc _].
    by apply space_width_id. }
  assert (forall t, all_chars id_char t = true ->
                    trim_spaces space_width_rev O t = t) as Hr.
  { intros [|c t] Ht; [reflexivity|]. apply trim_stop.
    cbn [all_chars] in Ht. apply andb_prop in Ht as [Hc _].
    by apply space_width_rev_id. }
  rewrite (Hl s Hs), Hr by (by apply string_rev_chars).
  apply string_rev_involutive.
Qed.

(** The two names of a post on disk are read back as its identifier by the
    scan of [getEditablePostID]. *)
Lemma entry_id_md (z : Z) :
  in_int64 z -> entry_id (FormatInt z +:+ ".md") = Some z.
Proof.
  intros Hz. unfold entry_id.
  rewrite strings_Contains_absent.
  2:{ rewrite all_chars_app, FormatInt_differs by reflexivity. reflexivity. }
  change (FormatInt z +:+ ".md") with (FormatInt z +:+ "." +:+ "md").
  rewrite strings_Contains_app_r.
  unfold strings_Split.
  change (FormatInt z +:+ "." +:+ "md") with (FormatInt z +:+ String "." "md").
  rewrite split_on_stop by (by apply FormatInt_differs).
  cbn [hd]. rewrite sapp_nil_l. by apply ParseInt_FormatInt.
Qed.

Lemma entry_id_dir (z : Z) : in_int64 z -> entry_id (FormatInt z) = Some z.
Proof.
  intros Hz. unfold entry_id.
  rewrite !strings_Contains_absent by (by apply FormatInt_differs).
  by apply ParseInt_FormatInt.
Qed.

(** ** [abs] *)

(** X1: on [int64], [abs] is the absolute value except at the least value,
    [-2^63], which it returns unchanged: the only argument with a negative
    result. *)
Theorem abs_most_negative (x : Z) :
  in_int64 x ->
  in_int64 (abs x)
  /\ abs (- 2 ^ 63) = - 2 ^ 63
  /\ (x <> - 2 ^ 63 -> abs x = Z.abs x)
  /\ (abs x < 0 <-> x = - 2 ^ 63).
Proof.
  intros Hx. split; [|split; [reflexivity|]]; revert Hx;
    unfold in_int64, abs, neg64, wrap64; intros Hx;
    destruct (Z.ltb_spec x 0) as [Hneg|Hpos]; try lia;
    (destruct (Z.eq_dec x (- 2 ^ 63)) as [->|Hne];
     [vm_compute; repeat split; done | rewrite Z.mod_small by lia; lia]).
Qed.

Lemma abs_most_negative_witness :
  in_int64 (abs (- 2 ^ 63))
  /\ abs (- 2 ^ 63) = - 2 ^ 63
  /\ (- 2 ^ 63 <> - 2 ^ 63 -> abs (- 2 ^ 63) = Z.abs (- 2 ^ 63))
  /\ (abs (- 2 ^ 63) < 0 <-> - 2 ^ 63 = - 2 ^ 63).
Proof. apply (abs_most_negative (- 2 ^ 63)). unfold in_int64. lia. Defined.

(** ** The identifier [getEditablePostID] resolves to *)

Lemma collect_ids_elem (entries : list string) (name : string) (id : Z) :
  name ∈ entries -> entry_id name = Some id -> In id (collect_ids entries).
Proof.
  intros Hin Hid. apply list_elem_of_In. unfold collect_ids.
  apply list_elem_of_omap. by exists name.
Qed.

Lemma collect_ids_inv (entries : list string) (id : Z) :
  In id (collect_ids entries) ->
  exists name, name ∈ entries /\ entry_id name = Some id.
Proof.
  intros Hin%list_elem_of_In. unfold collect_ids in Hin.
  by apply list_elem_of_omap in Hin.
Qed.

Lemma sorted_names_inv {A : Type} (m : gmap string A) (n : string) :
  n ∈ sorted_names m -> is_Some (m !! n).
Proof.
  unfold sorted_names. rewrite merge_sort_Permutation.
  intros ((k & a) & -> & Hin)%list_elem_of_fmap.
  apply elem_of_map_to_list in Hin. by exists a.
Qed.

Lemma closest_loop_elem (postID : Z) (ids : list Z) (closestID minDiff : Z) :
  In (closest_loop postID ids closestID minDiff) (closestID :: ids).
Proof.
  revert closestID minDiff. induction ids as [|id ids IH]; intros c d.
  - by left.
  - cbn [closest_loop]. cbv zeta.
    destruct (_ <? d).
    + right. apply IH.
    + destruct (IH c d) as [<-|Hin]; [by left|by right; right].
Qed.

(** X2: on a posts directory that exists, [getEditablePostID] returns no
    error, and what it returns is the identifier some entry of the
    directory parses to, or the requested one when no entry parses: also
    where the distances leave [int64]. *)
Theorem getEditablePostID_on_disk (s : Service)
    (postID : Z) (m : gmap string entry) :
  exists r,
    getEditablePostID s postID (Some m) = inr r
    /\ ((forall name, is_Some (m !! name) -> entry_id name = None)
        /\ r = postID
        \/ exists name, is_Some (m !! name) /\ entry_id name = Some r).
Proof.
  unfold getEditablePostID. cbn [os_ReadDir_posts].
  eexists; split; [reflexivity|].
  destruct (collect_ids (sorted_names m)) as [|first rest] eqn:Hids.
  - left. split; [|reflexivity]. intros name Hin%sorted_names_elem.
    destruct (entry_id name) as [id|] eqn:Hid; [|reflexivity].
    pose proof (collect_ids_elem _ _ _ Hin Hid) as Hc. rewrite Hids in Hc.
    destruct Hc.
  - right. unfold closest_id.
    pose proof (closest_loop_elem postID rest first (abs (sub64 postID first)))
      as Hin.
    rewrite <- Hids in Hin. apply collect_ids_inv in Hin as (name & Hn & Hid).
    exists name. split; [by apply sorted_names_inv|exact Hid].
Qed.

(** An identifier among those on disk resolves to itself, away from the
    ends of [int64]. *)
Lemma getEditablePostID_present (s : Service)
    (postID : Z) (m : gmap string entry) :
  In postID (collect_ids (sorted_names m)) ->
  (forall id, In id (collect_ids (sorted_names m)) ->
     - 2 ^ 63 < postID - id < 2 ^ 63) ->
  getEditablePostID s postID (Some m) = inr postID.
Proof.
  intros Hin Hrange.
  destruct (getEditablePostID_nearest s postID m) as (r & Hr & _ & Hmin).
  { intros Hnil. rewrite Hnil in Hin. destruct Hin. }
  { exact Hrange. }
  rewrite Hr. f_equal. specialize (Hmin postID Hin). lia.
Qed.

(** X3: a post that is on disk, as the loose file [<id>.md] or as the
    directory [<id>], is the post an edit under its own identifier resolves
    to, provided no distance to an identifier on disk leaves [int64]. *)
Theorem getEditablePostID_exact (s : Service)
    (postID : Z) (m : gmap string entry) :
  in_int64 postID ->
  is_Some (m !! (FormatInt postID +:+ ".md"))
  \/ is_Some (m !! FormatInt postID) ->
  (forall id, In id (collect_ids (sorted_names m)) ->
     - 2 ^ 63 < postID - id < 2 ^ 63) ->
  getEditablePostID s postID (Some m) = inr postID.
Proof.
  intros Hz Hdisk Hrange. apply getEditablePostID_present; [|exact Hrange].
  destruct Hdisk as [Hf|Hd].
  - eapply collect_ids_elem; [by apply sorted_names_elem|by apply entry_id_md].
  - eapply collect_ids_elem; [by apply sorted_names_elem|by apply entry_id_dir].
Qed.

Lemma getEditablePostID_exact_witness :
  getEditablePostID test_service 105 three_posts = inr 105.
Proof.
  apply (getEditablePostID_exact test_service 105
           (<["100.md" := File []]> (<["105.md" := File []]>
              (<["110.md" := File []]> ∅)))).
  - unfold in_int64. lia.
  - left. vm_compute. eauto.
  - intros id Hin.
    assert (collect_ids
              (sorted_names
                 (<["100.md" := File []]> (<["105.md" := File []]>
                    (<["110.md" := File []]> (∅ : gmap string entry)))))
            = [100; 105; 110]) as Hids by (vm_compute; reflexivity).
    rewrite Hids in Hin. destruct Hin as [<-|[<-|[<-|[]]]]; lia.
Defined.

(** ** The image names of a post: [getPostImageNames] *)

Lemma string_le_total : Total string_le.
Proof. intros a b. unfold string_le. apply String.leb_total. Qed.

Lemma NoDup_sorted_names {A : Type} (m : gmap string A) : NoDup (sorted_names m).
Proof.
  unfold sorted_names. rewrite merge_sort_Permutation.
  apply NoDup_fst_map_to_list.
Qed.

Lemma getPostImageNames_elem (s : Service) (postID : Z) (m : gmap string entry)
    (d : gmap string (list byte)) :
  m !! FormatInt postID = Some (Dir d) ->
  exists names,
    getPostImageNames s postID (Some m) = inr names
    /\ names ≡ₚ filter (fun name => strings_HasPrefix name "image_" = true)
                  (sorted_names d)
    /\ forall n, n ∈ names
                 <-> is_Some (d !! n) /\ strings_HasPrefix n "image_" = true.
Proof.
  intros Hd. unfold getPostImageNames. cbn [os_ReadDir]. rewrite Hd.
  eexists. split; [reflexivity|]. split; [apply merge_sort_Permutation|].
  intros n. rewrite merge_sort_Permutation, list_elem_of_filter.
  split.
  - intros [Hp Hin]. split; [by apply sorted_names_inv|exact Hp].
  - intros [Hin Hp]. split; [exact Hp|by apply sorted_names_elem].
Qed.

Lemma getPostImageNames_none (s : Service)
    (postID : Z) (m : gmap string entry) :
  m !! FormatInt postID = None -> getPostImageNames s postID (Some m) = inr [].
Proof. intros Hm. unfold getPostImageNames. cbn. by rewrite Hm. Qed.

Lemma getPostImageNames_no_image (s : Service)
    (postID : Z) (m : gmap string entry)
    (d : gmap string (list byte)) :
  m !! FormatInt postID = Some (Dir d) -> ~ has_image d ->
  getPostImageNames s postID (Some m) = inr [].
Proof.
  intros Hd Hno.
  destruct (getPostImageNames_elem s postID m d Hd) as (names & -> & _ & Hin).
  destruct names as [|n names]; [reflexivity|].
  exfalso. apply Hno. exists n.
  destruct (proj1 (Hin n)) as [? ?]; [by left|done].
Qed.

(** X4: for a post that is a directory, [getPostImageNames] returns the
    names of the directory that start with [image_], each once and no
    other, in ascending byte order. *)
Theorem getPostImageNames_spec (s : Service)
    (postID : Z) (m : gmap string entry)
    (d : gmap string (list byte)) :
  m !! FormatInt postID = Some (Dir d) ->
  exists names,
    getPostImageNames s postID (Some m) = inr names
    /\ (forall n, n ∈ names
                  <-> is_Some (d !! n) /\ strings_HasPrefix n "image_" = true)
    /\ NoDup names
    /\ Sorted string_le names.
Proof.
  intros Hd.
  destruct (getPostImageNames_elem s postID m d Hd) as (names & Hn & Hp & Hin).
  exists names. split; [exact Hn|]. split; [exact Hin|]. split.
  - rewrite Hp. apply NoDup_filter, NoDup_sorted_names.
  - unfold getPostImageNames in Hn. cbn [os_ReadDir] in Hn. rewrite Hd in Hn.
    injection Hn as <-. pose proof string_le_total as Htotal.
    apply (Sorted_merge_sort string_le).
Qed.

Lemma getPostImageNames_spec_witness :
  exists names,
    getPostImageNames test_service 456 (Some two_dir) = inr names
    /\ (forall n, n ∈ names
                  <-> is_Some (media_456 !! n)
                      /\ strings_HasPrefix n "image_" = true)
    /\ NoDup names
    /\ Sorted string_le names.
Proof. apply (getPostImageNames_spec test_service 456 two_dir media_456). reflexivity. Defined.

(** ** What the operations leave on disk *)

Lemma kept_refl (e : entry) : kept e e.
Proof. destruct e; simpl; [done|set_solver]. Qed.

Lemma kept_trans (e1 e2 e3 : entry) : kept e1 e2 -> kept e2 e3 -> kept e1 e3.
Proof. destruct e1, e2, e3; simpl; try done. set_solver. Qed.

Lemma grows_refl (fs : FS) : grows fs fs.
Proof. intros n e He. exists e. split; [done|apply kept_refl]. Qed.

Lemma grows_trans (fs1 fs2 fs3 : FS) :
  grows fs1 fs2 -> grows fs2 fs3 -> grows fs1 fs3.
Proof.
  intros H12 H23 n e He. destruct (H12 n e He) as (e2 & He2 & Hk2).
  destruct (H23 n e2 He2) as (e3 & He3 & Hk3).
  exists e3. split; [done|by eapply kept_trans].
Qed.

Lemma os_MkdirAll_posts_grows (fs fs' : FS) :
  os_MkdirAll_posts fs = inr fs' -> grows fs fs'.
Proof.
  destruct fs as [m|]; cbn; intros Heq; simplify_eq; [apply grows_refl|].
  intros n e He. cbn in He. by rewrite lookup_empty in He.
Qed.

Lemma os_MkdirAll_grows (dir : string) (fs fs' : FS) :
  os_MkdirAll dir fs = inr fs' -> grows fs fs'.
Proof.
  unfold os_MkdirAll.
  destruct (default ∅ fs !! dir) as [[c|d]|] eqn:Hd; intros Heq; simplify_eq.
  - intros n e He. exists e. split; [exact He|apply kept_refl].
  - intros n e He. cbn [from_option id].
    destruct (decide (n = dir)) as [->|Hne]; [congruence|].
    rewrite lookup_insert_ne by done. exists e. split; [done|apply kept_refl].
Qed.

Lemma os_WriteFile_grows (p : path) (data : list byte) (fs fs' : FS) :
  os_WriteFile p data fs = inr fs' -> grows fs fs'.
Proof.
  unfold os_WriteFile. destruct fs as [m|]; [|discriminate].
  destruct p as [name|dir name].
  - destruct (m !! name) as [[c|d]|] eqn:Hn; intros Heq; simplify_eq;
      intros n e He; cbn [from_option id] in *;
      (destruct (decide (n = name)) as [->|Hne];
       [rewrite lookup_insert_eq; simplify_eq; eexists; split; done
       |rewrite lookup_insert_ne by done; exists e; split;
        [done|apply kept_refl]]).
  - destruct (m !! dir) as [[c|d]|] eqn:Hn; intros Heq; simplify_eq.
    intros n e He; cbn [from_option id] in *.
    destruct (decide (n = dir)) as [->|Hne].
    + rewrite lookup_insert_eq. simplify_eq. eexists. split; [done|].
      simpl. set_solver.
    + rewrite lookup_insert_ne by done. exists e. split; [done|apply kept_refl].
Qed.

Lemma shrinks_refl (fs : FS) : shrinks fs fs.
Proof. done. Qed.

Lemma shrinks_trans (fs1 fs2 fs3 : FS) :
  shrinks fs1 fs2 -> shrinks fs2 fs3 -> shrinks fs1 fs3.
Proof.
  intros [H12 I12] [H23 I23]. split; [by etrans|]. by rewrite I23.
Qed.

Lemma os_RemoveAll_shrinks (dir : string) (fs fs' : FS) :
  os_RemoveAll dir fs = inr fs' -> shrinks fs fs'.
Proof.
  destruct fs as [m|]; cbn; intros Heq; simplify_eq; [|done].
  split; [apply delete_subseteq|done].
Qed.

Lemma os_Remove_shrinks (name : string) (fs fs' : FS) :
  os_Remove name fs = inr fs' -> shrinks fs fs'.
Proof.
  unfold os_Remove. destruct fs as [m|]; [|discriminate].
  destruct (m !! name) as [[c|d]|]; [| |discriminate].
  - intros Heq; simplify_eq. split; [apply delete_subseteq|done].
  - destruct (decide (d = ∅)); intros Heq; simplify_eq.
    split; [apply delete_subseteq|done].
Qed.

(** What a write into a directory, and the creation of one, leave as it
    was. *)
Lemma os_WriteFile_Sub_frame (x n : string) (data : list byte) (fs fs' : FS) :
  os_WriteFile (Sub x n) data fs = inr fs' ->
  (forall n', n' <> n -> file_at (Sub x n') fs' = file_at (Sub x n') fs)
  /\ (forall k, k <> x -> default ∅ fs' !! k = default ∅ fs !! k).
Proof.
  intros (m & d & -> & Hd & ->)%os_WriteFile_Sub_inv. split.
  - intros n' Hne. cbn [file_at]. rewrite lookup_insert_eq, Hd.
    by rewrite lookup_insert_ne.
  - intros k Hne. cbn. by rewrite lookup_insert_ne.
Qed.

Lemma os_MkdirAll_frame (x : string) (fs fs' : FS) :
  os_MkdirAll x fs = inr fs' ->
  forall k, k <> x -> default ∅ fs' !! k = default ∅ fs !! k.
Proof.
  unfold os_MkdirAll.
  destruct (default ∅ fs !! x) as [[c|d]|]; intros Heq k Hne; simplify_eq.
  - reflexivity.
  - cbn. by rewrite lookup_insert_ne.
Qed.

(** The names of the media files of one creation differ from one another
    and from [index.md]. *)
Lemma sapp_inj_r (p a b : string) : p +:+ a = p +:+ b -> a = b.
Proof.
  induction p as [|c p IH]; [by rewrite !sapp_nil_l|].
  rewrite !sapp_cons. intros Heq. injection Heq as Heq. by apply IH.
Qed.

Lemma image_name_inj (i j : Z) (f g : string) :
  0 <= i -> 0 <= j -> image_name i f = image_name j g -> i = j.
Proof.
  intros Hi Hj Heq. unfold image_name in Heq.
  apply sapp_inj_r in Heq.
  apply (f_equal (fun t => hd EmptyString (strings_Split t "."%char))) in Heq.
  unfold strings_Split in Heq.
  change ("." +:+ f) with (String "." f) in Heq.
  change ("." +:+ g) with (String "." g) in Heq.
  rewrite !split_on_stop in Heq by (by apply FormatInt_differs).
  cbn [hd] in Heq. rewrite !sapp_nil_l in Heq.
  apply (f_equal (fun t => parse_digits t 0)) in Heq.
  rewrite !parse_digits_FormatInt in Heq by done. congruence.
Qed.

Lemma image_name_not_index (i : Z) (f : string) : image_name i f <> "index.md".
Proof.
  intros Heq. pose proof (image_name_prefix i f) as Hp.
  rewrite Heq in Hp. discriminate.
Qed.

Lemma created_names_lookup (mediaFiles : list (list byte)) (i : nat)
    (n : string) :
  created_names mediaFiles !! i = Some n ->
  exists mediaFile,
    mediaFiles !! i = Some mediaFile
    /\ n = image_name (Z.of_nat i) (getImageFormat mediaFile).
Proof.
  unfold created_names. rewrite list_lookup_imap.
  destruct (mediaFiles !! i) as [mediaFile|]; [|discriminate].
  cbn. intros Heq. simplify_eq. by exists mediaFile.
Qed.

Lemma NoDup_created_names (mediaFiles : list (list byte)) :
  NoDup (created_names mediaFiles).
Proof.
  apply NoDup_alt. intros i j n Hi Hj.
  apply created_names_lookup in Hi as (a & _ & Ha).
  apply created_names_lookup in Hj as (b & _ & Hb).
  rewrite Ha in Hb. apply image_name_inj in Hb; lia.
Qed.

Lemma created_names_index (mediaFiles : list (list byte)) :
  "index.md" ∉ created_names mediaFiles.
Proof.
  intros Hin. apply list_elem_of_lookup in Hin as [i Hi].
  apply created_names_lookup in Hi as (a & _ & Ha).
  symmetry in Ha. by apply image_name_not_index in Ha.
Qed.

Section Disk.
Context {G : Type} `{GitService G}.

Local Abbreviation hoare := (@hoare G) (only parsing).

Implicit Types (s : Service) (w : @World G).

(** The post file [write_post] writes. *)
Lemma write_post_file s order (post : Post) (filename : path) w :
  write_post s order post filename w
  = bind (os_call "failed to write post file"
            (mkPathError "open"
               (filepath_Join [postsDir s; path_text filename]))
            (os_WriteFile filename (post_file s order post)))
      (fun _ => git_call "failed to add post file to git"
                  (git_Add (filepath_Join [relPostsDir s; path_text filename])))
      w.
Proof.
  unfold write_post, post_file. cbv zeta.
  destruct (decide (Title post = EmptyString)); [reflexivity|].
  by destruct post.
Qed.

Lemma write_post_world s order (post : Post) (filename : path) w (fs' : FS) :
  os_WriteFile filename (post_file s order post) w.1 = inr fs' ->
  match write_post s order post filename w with
  | (r, w') =>
      w'.1 = fs'
      /\ (r = inr tt
          \/ exists e, r = inl ("failed to add post file to git: " +:+ e))
  end.
Proof.
  intros Hw. rewrite write_post_file. unfold bind, os_call. rewrite Hw.
  unfold git_call. cbn [fst snd].
  destruct (git_Add _ _ _) as [[e|] g']; (split; [reflexivity|]);
    [right; by exists e|by left].
Qed.

(** *** [CreatePost] *)



Lemma write_media_files s (postID : Z) (mediaFiles : list (list byte))
    (names : list string) w w' :
  write_media s postID mediaFiles names w = (inr tt, w') ->
  NoDup names ->
  (forall i n data, names !! i = Some n -> mediaFiles !! i = Some data ->
     file_at (Sub (FormatInt postID) n) w'.1 = Some data)
  /\ (forall n, n ∉ names ->
        file_at (Sub (FormatInt postID) n) w'.1
        = file_at (Sub (FormatInt postID) n) w.1)
  /\ (forall k, k <> FormatInt postID ->
        default ∅ w'.1 !! k = default ∅ w.1 !! k).
Proof.
  revert names w. induction mediaFiles as [|mediaFile rest IH];
    intros [|n names] w Hrun Hnd; cbn [write_media] in Hrun;
    try (unfold ret in Hrun; simplify_eq;
         split; [intros i n0 data Hn Hd; by rewrite ?lookup_nil in *|done]).
  apply bind_inv in Hrun as ([] & w1 & Hw1 & Hrun).
  apply bind_inv in Hrun as ([] & w2 & Hw2 & Hrun).
  apply os_call_inv in Hw1 as [Hw1 _]. apply git_call_inv in Hw2.
  apply NoDup_cons in Hnd as [Hn Hnd].
  destruct (IH names w2 Hrun Hnd) as (Hfiles & Hframe & Hout).
  pose proof (os_WriteFile_file_at _ _ _ _ Hw1) as Hhere.
  apply os_WriteFile_Sub_frame in Hw1 as [Hother Hkeys].
  rewrite Hw2 in *. split; [|split].
  - intros [|i] n0 data Hn0 Hd; cbn in Hn0, Hd; simplify_eq.
    + by rewrite (Hframe _ Hn).
    + by eapply Hfiles.
  - intros n0 Hn0. apply not_elem_of_cons in Hn0 as [Hne Hn0].
    rewrite (Hframe _ Hn0). by apply Hother.
  - intros k Hk. rewrite (Hout k Hk). by apply Hkeys.
Qed.

Lemma CreatePost_media_world s order (post : Post)
    (mediaFiles : list (list byte)) w w' :
  mediaFiles <> [] ->
  run (CreatePost s order post mediaFiles) w = (None, w') ->
  file_at (Sub (FormatInt (ID post)) "index.md") w'.1
  = Some (post_file s order
            (mkPost (ID post) (Title post) (Content post) (Date post)
               (created_names mediaFiles)))
  /\ (forall i mediaFile,
        mediaFiles !! i = Some mediaFile ->
        file_at (Sub (FormatInt (ID post))
                   (image_name (Z.of_nat i) (getImageFormat mediaFile))) w'.1
        = Some mediaFile)
  /\ (forall k, k <> FormatInt (ID post) ->
        default ∅ w'.1 !! k = default ∅ w.1 !! k).
Proof.
  intros Hne Hrun. apply run_ok_inv in Hrun.
  unfold CreatePost in Hrun. cbv zeta in Hrun.
  fold (created_names mediaFiles) in Hrun. cbn [ImageNames ID] in Hrun.
  assert ((0 <? length (created_names mediaFiles))%nat = true) as Hlen.
  { unfold created_names. rewrite length_imap.
    destruct mediaFiles; [done|reflexivity]. }
  rewrite Hlen in Hrun.
  apply bind_inv in Hrun as (filename & w1 & Hw1 & Hrun).
  apply bind_inv in Hw1 as ([] & w0 & Hw0 & Hret).
  unfold ret in Hret. simplify_eq.
  apply os_call_inv in Hw0 as [Hmk _].
  apply bind_inv in Hrun as ([] & w2 & Hw2 & Hrun).
  rewrite write_post_file in Hw2.
  apply bind_inv in Hw2 as ([] & w3 & Hw3 & Hw2).
  apply os_call_inv in Hw3 as [Hw3 _]. apply git_call_inv in Hw2.
  pose proof (os_WriteFile_file_at _ _ _ _ Hw3) as Hindex.
  apply os_WriteFile_Sub_frame in Hw3 as [_ Hkeys3].
  destruct (write_media_files _ _ _ _ _ _ Hrun (NoDup_created_names mediaFiles))
    as (Hfiles & Hframe & Hout).
  rewrite Hw2 in *. split; [|split].
  - rewrite (Hframe _ (created_names_index mediaFiles)). exact Hindex.
  - intros i mediaFile Hi. eapply Hfiles; [|exact Hi].
    unfold created_names. rewrite list_lookup_imap, Hi. reflexivity.
  - intros k Hk. rewrite (Hout k Hk), (Hkeys3 k Hk).
    by apply (os_MkdirAll_frame _ _ _ Hmk).
Qed.

(** X6: when [CreatePost] with media returns no error, the directory [<id>]
    holds [index.md], whose front matter lists [image_0], [image_1], ... with
    the extensions of the buffers, and each buffer is on disk under its
    name, none overwritten by a later one; the listing of the directory
    reports each of these names; no entry of the posts directory other than
    [<id>] has changed. *)
Theorem CreatePost_media_files s order (post : Post)
    (mediaFiles : list (list byte)) w w' :
  mediaFiles <> [] ->
  run (CreatePost s order post mediaFiles) w = (None, w') ->
  file_at (Sub (FormatInt (ID post)) "index.md") w'.1
  = Some (post_file s order
            (mkPost (ID post) (Title post) (Content post) (Date post)
               (created_names mediaFiles)))
  /\ (forall i mediaFile,
        mediaFiles !! i = Some mediaFile ->
        file_at (Sub (FormatInt (ID post))
                   (image_name (Z.of_nat i) (getImageFormat mediaFile))) w'.1
        = Some mediaFile)
  /\ (exists names,
        getPostImageNames s (ID post) w'.1 = inr names
        /\ forall n, n ∈ created_names mediaFiles -> n ∈ names)
  /\ (forall k, k <> FormatInt (ID post) ->
        default ∅ w'.1 !! k = default ∅ w.1 !! k).
Proof.
  intros Hne Hrun.
  destruct (CreatePost_media_world s order post mediaFiles w w' Hne Hrun)
    as (Hindex & Hfiles & Hout).
  split; [exact Hindex|]. split; [exact Hfiles|]. split; [|exact Hout].
  destruct w'.1 as [m'|] eqn:Hfs; [|discriminate].
  cbn [file_at] in Hindex.
  destruct (m' !! FormatInt (ID post)) as [[c|d]|] eqn:Hd; try discriminate.
  destruct (getPostImageNames_elem s (ID post) m' d Hd) as (names & Hn & _ & Hin).
  exists names. split; [exact Hn|].
  intros n Hcreated. apply Hin.
  apply list_elem_of_lookup in Hcreated as [i Hi].
  apply created_names_lookup in Hi as (mediaFile & Hi & ->).
  specialize (Hfiles i mediaFile Hi). cbn [file_at] in Hfiles.
  rewrite Hd in Hfiles. split; [by exists mediaFile|apply image_name_prefix].
Qed.

(** X7: [CreatePost] returns an error, and changes neither the posts
    directory nor the collaborator, when the name it needs is taken by an
    entry of the other kind. With media, when [<id>] is a file, the error
    is the one of [os.MkdirAll] on the path of the post directory; without,
    when [<id>.md] is a directory, the one of [os.WriteFile] on the path of
    the post file. *)
Theorem CreatePost_name_taken s order (post : Post)
    (mediaFile : list byte) (rest : list (list byte))
    (m : gmap string entry) (g : G) :
  (is_file m (FormatInt (ID post)) ->
   run (CreatePost s order post (mediaFile :: rest)) (Some m, g)
   = (Some ("failed to create post directory: mkdir "
            +:+ filepath_Join [postsDir s; FormatInt (ID post)]
            +:+ ": not a directory"),
      (Some m, g)))
  /\ (is_dir m (FormatInt (ID post) +:+ ".md") ->
      run (CreatePost s order post []) (Some m, g)
      = (Some ("failed to write post file: open "
               +:+ filepath_Join [postsDir s; FormatInt (ID post) +:+ ".md"]
               +:+ ": is a directory"),
         (Some m, g))).
Proof.
  split.
  - intros [c Hc]. unfold run, CreatePost. cbv zeta.
    cbn [imap ImageNames ID length Nat.ltb Nat.leb].
    unfold bind, os_call, os_MkdirAll. cbn [fst snd from_option id].
    rewrite Hc. reflexivity.
  - intros [d Hd]. unfold run, CreatePost. cbv zeta.
    cbn [imap ImageNames ID length Nat.ltb Nat.leb].
    unfold bind, os_call, ret. cbn [fst snd os_MkdirAll_posts].
    rewrite write_post_file.
    unfold bind, os_call, os_WriteFile. cbn [fst snd]. rewrite Hd.
    reflexivity.
Qed.

(** *** Nothing is removed by [CreatePost] and [EditPost] *)

Lemma hoare_grows_call (fs0 : FS) (ctx : string)
    (perr : oserror -> PathError) (op : FS -> oserror + FS) :
  (forall fs fs', op fs = inr fs' -> grows fs fs') ->
  hoare (grows fs0) (os_call ctx perr op) (fun _ => grows fs0) (grows fs0).
Proof.
  intros Hop. apply hoare_os_call; [|done].
  intros fs fs' H0 Hfs. eapply grows_trans; [exact H0|by apply Hop].
Qed.

Lemma hoare_grows_git (fs0 : FS) (ctx : string)
    (op : FS -> G -> option string * G) :
  hoare (grows fs0) (git_call ctx op) (fun _ => grows fs0) (grows fs0).
Proof. by apply hoare_git_call. Qed.

Lemma hoare_grows_write_post (fs0 : FS) s order (post : Post) (filename : path) :
  hoare (grows fs0) (write_post s order post filename)
    (fun _ => grows fs0) (grows fs0).
Proof.
  apply hoare_write_post; [|done..].
  intros fs fs' data H0 Hw. eapply grows_trans; [exact H0|].
  by eapply os_WriteFile_grows.
Qed.

Lemma hoare_grows_write_media (fs0 : FS) s (postID : Z)
    (mediaFiles : list (list byte)) (names : list string) :
  hoare (grows fs0) (write_media s postID mediaFiles names)
    (fun _ => grows fs0) (grows fs0).
Proof.
  revert names. induction mediaFiles as [|mediaFile rest IH];
    intros [|n names]; try (apply hoare_ret; done).
  simpl. eapply hoare_bind with (R := fun _ => grows fs0).
  - apply hoare_grows_call. apply os_WriteFile_grows.
  - intros ?; cbv beta. eapply hoare_bind with (R := fun _ => grows fs0).
    + apply hoare_grows_git.
    + intros ?; cbv beta. apply IH.
Qed.

Lemma hoare_grows_CreatePost (fs0 : FS) s order (post : Post)
    (mediaFiles : list (list byte)) :
  hoare (grows fs0) (CreatePost s order post mediaFiles)
    (fun _ => grows fs0) (grows fs0).
Proof.
  unfold CreatePost. cbv zeta.
  eapply hoare_bind with (R := fun _ => grows fs0).
  - destruct (0 <? _)%nat.
    + eapply hoare_bind with (R := fun _ => grows fs0).
      * apply hoare_grows_call. apply os_MkdirAll_grows.
      * intros ?; cbv beta. by apply hoare_ret.
    + eapply hoare_bind with (R := fun _ => grows fs0).
      * apply hoare_grows_call. apply os_MkdirAll_posts_grows.
      * intros ?; cbv beta. by apply hoare_ret.
  - intros filename; cbv beta.
    eapply hoare_bind with (R := fun _ => grows fs0).
    + apply hoare_grows_write_post.
    + intros ?; cbv beta. apply hoare_grows_write_media.
Qed.

Lemma hoare_grows_EditPost (fs0 : FS) s order (post : Post)
    (mediaFile : option (list byte)) :
  hoare (grows fs0) (EditPost s order post mediaFile)
    (fun _ => grows fs0) (grows fs0).
Proof.
  unfold EditPost. cbv zeta.
  eapply hoare_bind; [apply hoare_os_read|]. intros r; cbv beta.
  eapply hoare_pre with (P' := grows fs0); [by intros fs [? _]|].
  destruct r as [err|editablePostID]; [by apply hoare_fail|].
  eapply hoare_bind; [apply hoare_os_read|]. intros r; cbv beta.
  eapply hoare_pre with (P' := grows fs0); [by intros fs [? _]|].
  destruct r as [err|imageNames]; [by apply hoare_fail|].
  eapply hoare_bind with (R := fun _ => grows fs0).
  - cbn [Content]. destruct (decide _); [|by apply hoare_ret].
    unfold edit_content. cbv zeta.
    eapply hoare_bind with (R := fun _ => grows fs0).
    + destruct (0 <? _)%nat; [|by apply hoare_ret].
      eapply hoare_bind with (R := fun _ => grows fs0).
      * apply hoare_grows_call. apply os_MkdirAll_grows.
      * intros ?; cbv beta. by apply hoare_ret.
    + intros filename; cbv beta. apply hoare_grows_write_post.
  - intros ?; cbv beta.
    destruct mediaFile as [mediaFile|]; [|by apply hoare_ret].
    unfold edit_media. cbv zeta.
    eapply hoare_bind with (R := fun _ => grows fs0).
    + apply hoare_grows_call. apply os_MkdirAll_grows.
    + intros ?; cbv beta. eapply hoare_bind with (R := fun _ => grows fs0).
      * apply hoare_grows_call. apply os_WriteFile_grows.
      * intros ?; cbv beta. apply hoare_grows_git.
Qed.

(** X8: [CreatePost] and [EditPost] remove nothing, whether they return an
    error or not: every entry of the posts directory is still there
    afterwards, a file as a file and a directory as a directory, and a
    directory still has the files it had. *)
Theorem CreatePost_EditPost_never_remove s order (post : Post)
    (mediaFiles : list (list byte)) (mediaFile : option (list byte)) w :
  grows w.1 (run (CreatePost s order post mediaFiles) w).2.1
  /\ grows w.1 (run (EditPost s order post mediaFile) w).2.1.
Proof.
  split.
  - destruct (run (CreatePost s order post mediaFiles) w) as [r w'] eqn:Hrun.
    cbn [fst snd].
    apply (hoare_run (grows w.1) (grows w.1) _ w w' r
             (hoare_grows_CreatePost w.1 s order post mediaFiles)
             (grows_refl w.1) Hrun).
  - destruct (run (EditPost s order post mediaFile) w) as [r w'] eqn:Hrun.
    cbn [fst snd].
    apply (hoare_run (grows w.1) (grows w.1) _ w w' r
             (hoare_grows_EditPost w.1 s order post mediaFile)
             (grows_refl w.1) Hrun).
Qed.

(** *** [EditPost] *)

(** X9: the two reads [EditPost] starts with can fail, and then nothing is
    changed. On a posts directory that does not exist the listing fails on
    the path [postsDir]: [EditPost] does not create the directory, unlike
    [CreatePost]. When the name [<id>] of the resolved post is a regular
    file, the listing of the post directory fails on the path of that
    name. *)
Theorem EditPost_read_errors s order (post : Post)
    (mediaFile : option (list byte)) (g : G) :
  run (EditPost s order post mediaFile) (None, g)
  = (Some ("failed to find editable post: failed to read posts directory: "
           +:+ "open " +:+ postsDir s +:+ ": no such file or directory"),
     (None, g))
  /\ forall (m : gmap string entry) (r : Z),
       getEditablePostID s (ID post) (Some m) = inr r ->
       is_file m (FormatInt r) ->
       run (EditPost s order post mediaFile) (Some m, g)
       = (Some ("failed to get post image names: "
                +:+ "failed to read post directory: open "
                +:+ filepath_Join [postsDir s; FormatInt r]
                +:+ ": not a directory"),
          (Some m, g)).
Proof.
  split; [reflexivity|].
  intros m r Hr [c Hc]. unfold run, EditPost. cbv zeta.
  unfold bind at 1, os_read at 1. cbn [fst]. rewrite Hr.
  unfold bind at 1, os_read at 1. cbn [fst].
  unfold getPostImageNames, os_ReadDir. rewrite Hc. reflexivity.
Qed.

(** X10: [EditPost] with an empty content and no media buffer leaves the
    posts directory and the collaborator as they are, whatever it
    returns. *)
Theorem EditPost_nothing_to_do s order (post : Post) w :
  Content post = EmptyString ->
  (run (EditPost s order post None) w).2 = w.
Proof.
  intros Hc. unfold run, EditPost, bind, os_read. cbv zeta.
  destruct (getEditablePostID s (ID post) w.1) as [err|editablePostID];
    [reflexivity|].
  destruct (getPostImageNames s editablePostID w.1) as [err|imageNames];
    [reflexivity|].
  cbn [Content]. by destruct (decide (Content post <> EmptyString)).
Qed.

(** X11: an edit of the text of a post that is on disk as a loose file,
    under its own identifier and with no image names set by the caller,
    is the creation of that post without media: the same result and the
    same world. No entry [<id>] stands beside the file, and no distance to
    an identifier on disk leaves [int64]. *)
Theorem EditPost_loose_as_CreatePost s order (post : Post) (g : G)
    (m : gmap string entry) :
  in_int64 (ID post) ->
  is_Some (m !! (FormatInt (ID post) +:+ ".md")) ->
  m !! FormatInt (ID post) = None ->
  (forall id, In id (collect_ids (sorted_names m)) ->
     - 2 ^ 63 < ID post - id < 2 ^ 63) ->
  Content post <> EmptyString ->
  ImageNames post = [] ->
  run (EditPost s order post None) (Some m, g)
  = run (CreatePost s order post []) (Some m, g).
Proof.
  intros Hid Hf Hd Hrange Hc Hnames.
  unfold run, EditPost, CreatePost. cbv zeta.
  unfold bind at 1, os_read at 1. cbn [fst].
  rewrite getEditablePostID_present; [|  |exact Hrange].
  2:{ eapply collect_ids_elem; [by apply sorted_names_elem|by apply entry_id_md]. }
  unfold bind at 1, os_read at 1. cbn [fst].
  rewrite getPostImageNames_none by done.
  cbn [Content]. destruct (decide (Content post <> EmptyString)); [|done].
  unfold edit_content. cbv zeta.
  cbn [length Nat.ltb Nat.leb imap ImageNames ID Title Content Date].
  rewrite <- Hnames.
  replace (mkPost (ID post) (Title post) (Content post) (Date post)
             (ImageNames post)) with post by (by destruct post).
  unfold bind, ret, os_call. cbn [fst snd os_MkdirAll_posts].
  by destruct (write_post s order post _ _) as [[e|[]] w2].
Qed.

(** X12: an edit of the text of a post that is a directory with images,
    with no image names set by the caller, rewrites [index.md] in that
    directory, with the front matter listing the image names the directory
    holds, as [getPostImageNames] reports them; the images and every other
    entry stay as they were. The file is written whether staging it
    succeeds or not. *)
Theorem EditPost_media_post_text s order (post : Post) (g : G)
    (m : gmap string entry) (d : gmap string (list byte)) (r : Z) :
  getEditablePostID s (ID post) (Some m) = inr r ->
  m !! FormatInt r = Some (Dir d) ->
  has_image d ->
  Content post <> EmptyString ->
  ImageNames post = [] ->
  exists names,
    getPostImageNames s r (Some m) = inr names
    /\ (run (EditPost s order post None) (Some m, g)).2.1
       = Some (<[FormatInt r :=
                   Dir (<["index.md" :=
                            post_file s order
                              (mkPost r (Title post) (Content post)
                                 (Date post) names)]> d)]> m).
Proof.
  intros Hr Hd Himg Hc Hnames.
  destruct (getPostImageNames_has_image s r m d Hd Himg) as (n & names & Hn).
  exists (n :: names). split; [exact Hn|].
  unfold run, EditPost. cbv zeta.
  unfold bind at 1, os_read at 1. cbn [fst]. rewrite Hr.
  unfold bind at 1, os_read at 1. cbn [fst]. rewrite Hn.
  cbn [Content]. destruct (decide (Content post <> EmptyString)); [|done].
  unfold bind at 1. unfold edit_content. cbv zeta.
  cbn [length Nat.ltb Nat.leb ImageNames ID Title Content Date].
  rewrite Hnames.
  unfold bind at 1. unfold bind at 1. unfold os_call at 1. cbn [fst snd].
  rewrite os_MkdirAll_existing by (by exists d).
  unfold ret at 1.
  set (post1 := mkPost r (Title post) (Content post) (Date post) (n :: names)).
  pose proof (write_post_world s order post1 (Sub (FormatInt r) "index.md")
                (Some m, g)
                (Some (<[FormatInt r :=
                           Dir (<["index.md" := post_file s order post1]> d)]>
                         m))) as Hwp.
  destruct (write_post s order post1 _ _) as [r1 [fs2 g2]].
  destruct Hwp as [Hfs Hr1].
  { cbn [fst os_WriteFile]. by rewrite Hd. }
  cbn [fst] in Hfs. subst fs2.
  by destruct Hr1 as [->|[e ->]].
Qed.

(** *** [DeletePost] *)

(** [DeletePost] on the text of one identifier. *)
Lemma DeletePost_single s (id : Z) w :
  in_int64 id ->
  DeletePost s (FormatInt id) w
  = bind (delete_one s id)
      (fun _ => git_call "failed to commit and push deletion"
                  (git_CommitAndPush ("Delete post(s): " +:+ FormatInt id))) w.
Proof.
  intros Hid. unfold DeletePost, strings_Split.
  rewrite split_on_none by (by apply FormatInt_differs).
  rewrite sapp_nil_l. cbn [delete_loop].
  rewrite strings_TrimSpace_id by apply FormatInt_chars.
  destruct (decide (FormatInt id = EmptyString)) as [He|_];
    [by apply FormatInt_nonempty in He|].
  rewrite ParseInt_FormatInt by done.
  unfold bind. destruct (delete_one s id w) as [[e|[]] w1]; reflexivity.
Qed.

(** The branch of [DeletePost] for a post without images: [<id>.md] is
    removed if it can be. *)
Lemma DeletePost_loose_world s (id : Z) (m : gmap string entry) (g : G) :
  in_int64 id ->
  getPostImageNames s id (Some m) = inr [] ->
  exists r g',
    run (DeletePost s (FormatInt id)) (Some m, g)
    = (r, (removed_file (FormatInt id +:+ ".md") (Some m), g'))
    /\ (r = None
        \/ exists e, r = Some ("failed to commit and push deletion: " +:+ e)).
Proof.
  intros Hid Hnames. unfold run. rewrite DeletePost_single by done.
  unfold delete_one, bind, os_read. cbn [fst].
  rewrite Hnames. cbn [length Nat.ltb Nat.leb].
  unfold os_try, git_try, git_call, removed_file. cbn [fst snd].
  destruct (os_Remove (FormatInt id +:+ ".md") (Some m)) as [err|fs'];
    cbn [fst snd];
    destruct (git_CommitAndPush _ _ _) as [[e|] g']; eexists _, _;
    (split; [reflexivity|]); first [by left|right; by exists e].
Qed.




(** X15: a directory [<id>] that holds no file named [image_...], with
    no loose file [<id>.md] beside it, is not a post with images for
    [DeletePost]: it is left in place, with what it holds, and no error is
    returned for it. *)
Theorem DeletePost_directory_without_images s (id : Z)
    (m : gmap string entry) (d : gmap string (list byte)) (g : G) :
  in_int64 id ->
  m !! FormatInt id = Some (Dir d) ->
  ~ has_image d ->
  m !! (FormatInt id +:+ ".md") = None ->
  (run (DeletePost s (FormatInt id)) (Some m, g)).2.1 = Some m
  /\ ((run (DeletePost s (FormatInt id)) (Some m, g)).1 = None
      \/ exists e,
           (run (DeletePost s (FormatInt id)) (Some m, g)).1
           = Some ("failed to commit and push deletion: " +:+ e)).
Proof.
  intros Hid Hd Himg Hf.
  destruct (DeletePost_loose_world s id m g Hid) as (r & g' & -> & Hr).
  { by apply (getPostImageNames_no_image s id m d). }
  split; [|exact Hr]. unfold removed_file, os_Remove. cbn [fst snd].
  by rewrite Hf.
Qed.

(** X16: the identifier of a post that is not on disk, in either form, is
    no error for [DeletePost]. The posts directory stays as it is; the
    collaborator is asked to remove [<id>.md], whatever it answers, and then
    to commit and push under the message of the batch; and [DeletePost]
    returns what the commit returns, an error in the context
    [failed to commit and push deletion]. *)
Theorem DeletePost_missing_post s (id : Z) (m : gmap string entry) (g : G) :
  in_int64 id ->
  m !! FormatInt id = None ->
  m !! (FormatInt id +:+ ".md") = None ->
  run (DeletePost s (FormatInt id)) (Some m, g)
  = (option_map (wrap_error "failed to commit and push deletion")
       (git_CommitAndPush ("Delete post(s): " +:+ FormatInt id) (Some m)
          (git_Remove
             (filepath_Join [relPostsDir s; FormatInt id +:+ ".md"])
             (Some m) g).2).1,
     (Some m,
      (git_CommitAndPush ("Delete post(s): " +:+ FormatInt id) (Some m)
         (git_Remove
            (filepath_Join [relPostsDir s; FormatInt id +:+ ".md"])
            (Some m) g).2).2)).
Proof.
  intros Hid Hd Hf. unfold run. rewrite DeletePost_single by done.
  unfold delete_one, bind, os_read. cbn [fst].
  rewrite getPostImageNames_none by done. cbn [length Nat.ltb Nat.leb].
  unfold os_try, git_try, git_call, os_Remove. cbn [fst snd].
  rewrite Hf. cbn [fst snd].
  by destruct (git_CommitAndPush _ _ _) as [[e|] g'].
Qed.

(** *** Nothing is created by [DeletePost] *)

Lemma hoare_remove_images (P : FS -> Prop) (relPostDir : string)
    (imageNames : list string) :
  hoare P (remove_images relPostDir imageNames) (fun _ => P) P.
Proof.
  induction imageNames as [|n names IH]; [by apply hoare_ret|].
  simpl. eapply hoare_bind with (R := fun _ => P).
  - apply hoare_git_try.
  - intros ?; cbv beta. exact IH.
Qed.

Lemma hoare_shrinks_delete_one (fs0 : FS) s (postID : Z) :
  hoare (shrinks fs0) (delete_one s postID) (fun _ => shrinks fs0) (shrinks fs0).
Proof.
  unfold delete_one.
  eapply hoare_bind; [apply hoare_os_read|]. intros r; cbv beta.
  eapply hoare_pre with (P' := shrinks fs0); [by intros fs [? _]|].
  destruct r as [err|imageNames]; [by apply hoare_ret|].
  destruct (0 <? _)%nat.
  - eapply hoare_bind with (R := fun _ => shrinks fs0).
    + apply hoare_os_call; [|done]. intros fs fs' H0 Hop.
      eapply shrinks_trans; [exact H0|by eapply os_RemoveAll_shrinks].
    + intros ?; cbv beta. eapply hoare_bind with (R := fun _ => shrinks fs0).
      * apply hoare_git_try.
      * intros ?; cbv beta. apply hoare_remove_images.
  - eapply hoare_bind with (R := fun _ => shrinks fs0).
    + apply hoare_os_try; [|done]. intros fs fs' H0 Hop.
      eapply shrinks_trans; [exact H0|by eapply os_Remove_shrinks].
    + intros ?; cbv beta. apply hoare_git_try.
Qed.

Lemma hoare_shrinks_delete_loop (fs0 : FS) s (idList : list string) :
  hoare (shrinks fs0) (delete_loop s idList) (fun _ => shrinks fs0) (shrinks fs0).
Proof.
  induction idList as [|idStr rest IH]; [by apply hoare_ret|].
  simpl. destruct (decide _); [exact IH|].
  destruct (ParseInt _) as [postID|]; [|by apply hoare_fail].
  eapply hoare_bind with (R := fun _ => shrinks fs0).
  - apply hoare_shrinks_delete_one.
  - intros ?; cbv beta. exact IH.
Qed.

(** X17: [DeletePost] creates and rewrites nothing, on any batch and
    whether it returns an error or not: every entry of the posts directory
    after the call was there before, with the same content, and the posts
    directory itself is neither created nor removed. *)
Theorem DeletePost_only_removes s (ids : string) w :
  shrinks w.1 (run (DeletePost s ids) w).2.1.
Proof.
  destruct (run (DeletePost s ids) w) as [r w'] eqn:Hrun.
  cbn [fst snd].
  refine (hoare_run (shrinks w.1) (shrinks w.1) _ w w' r _
            (shrinks_refl w.1) Hrun).
  unfold DeletePost. cbv zeta.
  eapply hoare_bind with (R := fun _ => shrinks w.1).
  - apply hoare_shrinks_delete_loop.
  - intros ?; cbv beta. by apply hoare_git_call.
Qed.

(** *** Creation, then deletion *)


End Disk.

(** *** The properties above on the runs of the tests *)


Lemma CreatePost_media_files_witness :
  file_at (Sub (FormatInt (ID post_456)) "index.md") created_456.1
  = Some (post_file test_service map_to_list
            (mkPost (ID post_456) (Title post_456) (Content post_456)
               (Date post_456)
               (created_names [createJPEGBytes; createPNGBytes])))
  /\ (forall i mediaFile,
        [createJPEGBytes; createPNGBytes] !! i = Some mediaFile ->
        file_at (Sub (FormatInt (ID post_456))
                   (image_name (Z.of_nat i) (getImageFormat mediaFile)))
          created_456.1
        = Some mediaFile)
  /\ (exists names,
        getPostImageNames test_service (ID post_456) created_456.1 = inr names
        /\ forall n, n ∈ created_names [createJPEGBytes; createPNGBytes] ->
                     n ∈ names)
  /\ (forall k, k <> FormatInt (ID post_456) ->
        default ∅ created_456.1 !! k = default ∅ created_200.1 !! k).
Proof.
  apply (CreatePost_media_files test_service map_to_list post_456
           [createJPEGBytes; createPNGBytes] created_200 created_456).
  - discriminate.
  - vm_compute. reflexivity.
Defined.

Lemma CreatePost_name_taken_witness :
  run (CreatePost test_service map_to_list post_456 [[]]) (Some taken_dir, [])
  = (Some ("failed to create post directory: "
           +:+ "mkdir content/posts/456: not a directory"),
     (Some taken_dir, ([] : list staged)))
  /\ run (CreatePost test_service map_to_list post_200 [])
       (Some taken_dir, [])
     = (Some ("failed to write post file: "
              +:+ "open content/posts/200.md: is a directory"),
        (Some taken_dir, ([] : list staged))).
Proof.
  split.
  - apply (proj1 (CreatePost_name_taken test_service map_to_list post_456
                    [] [] taken_dir [])).
    eexists. vm_compute. reflexivity.
  - apply (proj2 (CreatePost_name_taken test_service map_to_list post_200
                    [] [] taken_dir [])).
    eexists. vm_compute. reflexivity.
Defined.

Lemma EditPost_read_errors_witness :
  run (EditPost test_service map_to_list post_200 None) (None, [])
  = (Some ("failed to find editable post: failed to read posts directory: "
           +:+ "open content/posts: no such file or directory"),
     (None, ([] : list staged)))
  /\ run (EditPost test_service map_to_list post_456 None)
       (Some taken_dir, [])
     = (Some ("failed to get post image names: "
              +:+ "failed to read post directory: "
              +:+ "open content/posts/456: not a directory"),
        (Some taken_dir, ([] : list staged))).
Proof.
  split.
  - apply (proj1 (EditPost_read_errors test_service map_to_list post_200
                    None [])).
  - apply (proj2 (EditPost_read_errors test_service map_to_list post_456
                    None []) taken_dir 456).
    + vm_compute. reflexivity.
    + eexists. vm_compute. reflexivity.
Defined.

Lemma EditPost_nothing_to_do_witness :
  (run (EditPost test_service map_to_list
          (mkPost 457 EmptyString EmptyString (mkTime 2024 2 21 9 0 0 0) [])
          None) two_posts).2
  = two_posts.
Proof.
  apply (EditPost_nothing_to_do test_service map_to_list
           (mkPost 457 EmptyString EmptyString (mkTime 2024 2 21 9 0 0 0) [])
           two_posts).
  reflexivity.
Defined.

Lemma collect_ids_loose_dir :
  collect_ids (sorted_names loose_dir) = [600; 601; 602].
Proof. vm_compute. reflexivity. Qed.

Lemma EditPost_loose_as_CreatePost_witness :
  run (EditPost test_service map_to_list
         (mkPost 601 EmptyString "Edited" (mkTime 2024 2 21 9 0 0 0) []) None)
    (Some loose_dir, [])
  = run (CreatePost test_service map_to_list
           (mkPost 601 EmptyString "Edited" (mkTime 2024 2 21 9 0 0 0) []) [])
      (Some loose_dir, []).
Proof.
  apply (EditPost_loose_as_CreatePost test_service map_to_list
           (mkPost 601 EmptyString "Edited" (mkTime 2024 2 21 9 0 0 0) [])
           [] loose_dir).
  - unfold in_int64. cbn [ID]. lia.
  - vm_compute. eauto.
  - vm_compute. reflexivity.
  - intros id Hin. rewrite collect_ids_loose_dir in Hin. cbn [ID].
    destruct Hin as [<-|[<-|[<-|[]]]]; lia.
  - discriminate.
  - reflexivity.
Defined.

Lemma has_image_media_456 : has_image media_456.
Proof.
  exists "image_0.jpg". split; [reflexivity|]. vm_compute. eauto.
Qed.

Lemma EditPost_media_post_text_witness :
  exists names,
    getPostImageNames test_service 456 (Some two_dir) = inr names
    /\ (run (EditPost test_service map_to_list
               (mkPost 456 EmptyString "Updated content"
                  (mkTime 2024 2 21 9 0 0 0) [])
               None) (Some two_dir, [])).2.1
       = Some (<[FormatInt 456 :=
                   Dir (<["index.md" :=
                            post_file test_service map_to_list
                              (mkPost 456 EmptyString "Updated content"
                                 (mkTime 2024 2 21 9 0 0 0) names)]>
                          media_456)]> two_dir).
Proof.
  apply (EditPost_media_post_text test_service map_to_list
           (mkPost 456 EmptyString "Updated content"
              (mkTime 2024 2 21 9 0 0 0) [])
           [] two_dir media_456 456).
  - vm_compute. reflexivity.
  - vm_compute. reflexivity.
  - exact has_image_media_456.
  - discriminate.
  - reflexivity.
Defined.



Lemma no_image_bare :
  ~ has_image (<["index.md" := []]> (∅ : gmap string (list byte))).
Proof.
  intros (n & Hp & [x Hx]).
  apply lookup_insert_Some in Hx as [[<- _]|[_ Hx]]; [discriminate|].
  by rewrite lookup_empty in Hx.
Qed.

Lemma DeletePost_directory_without_images_witness :
  (run (DeletePost test_service (FormatInt 7)) (Some bare_dir, [])).2.1
  = Some bare_dir
  /\ ((run (DeletePost test_service (FormatInt 7)) (Some bare_dir, [])).1
      = None
      \/ exists e,
           (run (DeletePost test_service (FormatInt 7))
              (Some bare_dir, [])).1
           = Some ("failed to commit and push deletion: " +:+ e)).
Proof.
  apply (DeletePost_directory_without_images test_service 7 bare_dir
           (<["index.md" := []]> ∅) []).
  - unfold in_int64. lia.
  - vm_compute. reflexivity.
  - exact no_image_bare.
  - vm_compute. reflexivity.
Defined.

Lemma DeletePost_missing_post_witness :
  run (DeletePost test_service (FormatInt 999)) (Some loose_dir, [])
  = (None, (Some loose_dir, ([] : list staged))).
Proof.
  refine (eq_trans
            (DeletePost_missing_post test_service 999 loose_dir [] _ _ _) _).
  - unfold in_int64. lia.
  - vm_compute. reflexivity.
  - vm_compute. reflexivity.
  - reflexivity.
Defined.


(** ** The markup transformer on text without markup *)

Lemma replace_from_chars (p : ascii -> bool) (skip : nat) (s old new : string) :
  all_chars p s = true -> all_chars p new = true ->
  all_chars p (replace_from skip s old new) = true.
Proof.
  intros Hs Hnew. revert skip Hs. induction s as [|c s IH]; intros skip Hs.
  - reflexivity.
  - cbn [all_chars] in Hs. apply andb_prop in Hs as [Hc Hs].
    cbn [replace_from]. destruct skip as [|n]; [|by apply IH].
    destruct old as [|a old'].
    + cbn [all_chars]. by rewrite Hc, IH.
    + destruct (strip_prefix (String a old') (String c s)).
      * by rewrite all_chars_app, Hnew, IH.
      * cbn [all_chars]. by rewrite Hc, IH.
Qed.

Lemma replace_char_gone (a : ascii) (s new : string) :
  all_chars (differs a) new = true ->
  all_chars (differs a) (strings_ReplaceAll s (str1 a) new) = true.
Proof.
  intros Hnew. unfold strings_ReplaceAll, str1.
  induction s as [|c s IH]; [reflexivity|].
  cbn [replace_from]. rewrite strip_prefix_cons.
  destruct (Ascii.eqb a c) eqn:Hac.
  - cbn [strip_prefix String.length]. by rewrite all_chars_app, Hnew, IH.
  - cbn [all_chars]. rewrite IH, andb_true_r.
    unfold differs. by rewrite Ascii.eqb_sym, Hac.
Qed.

Lemma replace_from_none (s old new : string) :
  strings_Contains s old = false -> replace_from O s old new = s.
Proof.
  induction s as [|c s IH]; [reflexivity|].
  rewrite strings_Contains_cons. intros [Hp Hs]%orb_false_elim.
  cbn [replace_from]. unfold strings_HasPrefix in Hp.
  destruct old as [|a old']; [by rewrite (IH Hs)|].
  destruct (strip_prefix (String a old') (String c s)); [done|].
  by rewrite (IH Hs).
Qed.

(** An expression that starts with a literal finds no match in a text
    without the first byte of the literal. *)
Lemma match_at_lit_absent (a : ascii) (l : string) (r2 : regex) (s : string) :
  all_chars (differs a) s = true ->
  match_at (RSeq (RLit (String a l)) r2) s = None.
Proof.
  intros Hs. unfold match_at. rewrite rmatch_seq, rmatch_lit.
  destruct s as [|c s]; [reflexivity|].
  cbn [all_chars] in Hs. apply andb_prop in Hs as [Hc _].
  rewrite strip_prefix_cons. unfold differs in Hc. rewrite Ascii.eqb_sym in Hc.
  by destruct (Ascii.eqb a c).
Qed.

Lemma replace_matches_absent {St : Type} (a : ascii) (l : string) (r2 : regex)
    (f : string -> list string -> St -> string * St) (s : string) (st : St) :
  all_chars (differs a) s = true ->
  replace_matches (RSeq (RLit (String a l)) r2) f O s st = (s, st).
Proof.
  induction s as [|c s IH]; intros Hs; [reflexivity|].
  rewrite replace_matches_no_match by (by apply match_at_lit_absent).
  cbn [all_chars] in Hs. apply andb_prop in Hs as [_ Hs].
  by rewrite (IH Hs).
Qed.

Lemma line_breaks_chars (p : ascii -> bool) (content : string) :
  p " "%char = true -> p LF = true ->
  all_chars p content = true -> all_chars p (line_breaks content) = true.
Proof.
  intros Hsp Hlf Hc. unfold line_breaks, strings_ReplaceAll.
  unfold LF in Hlf.
  apply replace_from_chars; [apply replace_from_chars; [exact Hc|]|];
    cbv; by rewrite ?Hsp, ?Hlf.
Qed.

Lemma extract_stage_plain (content : string) :
  all_chars (differs "<") content = true ->
  extract_stage content = (line_breaks content, ∅).
Proof.
  intros Hc. unfold extract_stage, ReplaceAllStringFunc.
  change codeRegex
    with (RSeq (RLit (String "<" "code>"))
            (RSeq (RGroup (RStarLazy any_char)) (RLit "</code>"))).
  rewrite replace_matches_absent by done. cbn [fst].
  change codeBlockRegex
    with (RSeq (RLit (String "<" ("pre><code class=" +:+ String DQ "language-")))
            (RSeq (RGroup (RStarLazy not_newline))
               (RSeq (RLit (String DQ ">"))
                  (RSeq (RGroup (RStarLazy any_char)) (RLit "</code></pre>"))))).
  rewrite replace_matches_absent by done.
  change blockquoteRegex
    with (RSeq (RLit (String "<" "blockquote>"))
            (RSeq (RGroup (RStarLazy any_char)) (RLit "</blockquote>"))).
  rewrite replace_matches_absent by done. reflexivity.
Qed.

Lemma ProcessContentIn_plain
    (order : gmap string string -> list (string * string)) (content : string) :
  iteration_order order ->
  all_chars (differs "<") content = true ->
  ProcessContentIn order content = line_breaks content.
Proof.
  intros Horder Hc. unfold ProcessContentIn.
  destruct (decide (content = EmptyString)) as [->|_]; [reflexivity|].
  rewrite extract_stage_plain by done.
  pose proof (Horder ∅) as Hnil. rewrite map_to_list_empty in Hnil.
  apply Permutation_nil_r in Hnil. rewrite Hnil. cbn [reinsert foldl].
  unfold ReplaceAllString.
  change spoilerRegex
    with (RSeq (RLit (String "<" "spoiler>"))
            (RSeq (RGroup (RStarLazy any_char)) (RLit "</spoiler>"))).
  rewrite replace_matches_absent; [reflexivity|].
  by apply line_breaks_chars.
Qed.

(** X19: on a content without the byte [<], [ProcessContent] only rewrites
    the line breaks: two spaces are put before every newline, and the pair
    that two newlines in a row give keeps the first hard break only. Every
    run returns this string: with no fenced block the order of the map does
    not matter. *)
Theorem ProcessContent_plain (content out : string) :
  strings_Contains content "<" = false ->
  (ProcessContent content out <-> out = line_breaks content).
Proof.
  intros Hc%strings_Contains_char. split.
  - intros (order & Horder & ->). by apply ProcessContentIn_plain.
  - intros ->. exists map_to_list. split; [apply map_to_list_order|].
    symmetry. apply ProcessContentIn_plain; [apply map_to_list_order|done].
Qed.

Lemma ProcessContent_plain_witness :
  ProcessContent ("Line 1" +:+ str1 LF +:+ str1 LF +:+ "Line 2")
    ("Line 1  " +:+ str1 LF +:+ str1 LF +:+ "Line 2")
  <-> "Line 1  " +:+ str1 LF +:+ str1 LF +:+ "Line 2"
      = line_breaks ("Line 1" +:+ str1 LF +:+ str1 LF +:+ "Line 2").
Proof.
  apply (ProcessContent_plain
           ("Line 1" +:+ str1 LF +:+ str1 LF +:+ "Line 2")
           ("Line 1  " +:+ str1 LF +:+ str1 LF +:+ "Line 2")).
  reflexivity.
Defined.

(** X20: a content of one line without the byte [<] is returned as it
    is. *)
Theorem ProcessContent_plain_line (content out : string) :
  strings_Contains content "<" = false ->
  strings_Contains content (str1 LF) = false ->
  (ProcessContent content out <-> out = content).
Proof.
  intros Hc%strings_Contains_char Hl%strings_Contains_char.
  assert (line_breaks content = content) as Hid.
  { unfold line_breaks, strings_ReplaceAll.
    rewrite (replace_from_none content (str1 LF))
      by (by apply (strings_Contains_missing LF)).
    apply replace_from_none. by apply (strings_Contains_missing LF). }
  split.
  - intros (order & Horder & ->).
    by rewrite ProcessContentIn_plain, Hid.
  - intros ->. exists map_to_list. split; [apply map_to_list_order|].
    by rewrite ProcessContentIn_plain, Hid by (done || apply map_to_list_order).
Qed.

Lemma ProcessContent_plain_line_witness :
  ProcessContent "Text with &lt;entities&gt; and &amp; symbols"
    "Text with &lt;entities&gt; and &amp; symbols"
  <-> "Text with &lt;entities&gt; and &amp; symbols"
      = "Text with &lt;entities&gt; and &amp; symbols".
Proof.
  apply (ProcessContent_plain_line
           "Text with &lt;entities&gt; and &amp; symbols"
           "Text with &lt;entities&gt; and &amp; symbols");
    reflexivity.
Defined.

(** X21: whatever the match, the callback of the inline-code replacement
    returns a [code] element whose body has neither [<] nor [>]. *)
Theorem escape_code_no_markup (m : string) :
  exists body,
    escape_code m = "<code>" +:+ body +:+ "</code>"
    /\ strings_Contains body "<" = false
    /\ strings_Contains body ">" = false.
Proof.
  unfold escape_code. eexists. split; [reflexivity|]. split.
  - apply strings_Contains_absent.
    apply replace_from_chars; [|reflexivity].
    by apply (replace_char_gone "<").
  - apply strings_Contains_absent. by apply (replace_char_gone ">").
Qed.

(** ** The address pattern on a content without an address *)

Lemma find_match_address_none (s : string) :
  strings_Contains s "0x" = false -> find_match addressRegex s = None.
Proof.
  induction s as [|c s IH]; intros Hs.
  - reflexivity.
  - rewrite find_match_later by (by apply match_at_address_none).
    apply IH. by apply strings_Contains_tail in Hs.
Qed.

(** X22: a content in which [0x] does not occur has no address:
    [RemoveAddressPattern] returns it unchanged and [ExtractTitle] returns
    the channel identifier alone. *)
Theorem no_address_untouched (content channelID : string) :
  strings_Contains content "0x" = false ->
  RemoveAddressPattern content = content
  /\ ExtractTitle content channelID = channelID.
Proof.
  intros Hs. split.
  - induction content as [|c s IH]; [reflexivity|].
    rewrite RemoveAddressPattern_cons by (by apply match_at_address_none).
    rewrite IH; [reflexivity|]. by apply strings_Contains_tail in Hs.
  - unfold ExtractTitle. destruct (decide (content = EmptyString)); [done|].
    unfold FindString. rewrite find_match_address_none by done.
    by destruct (decide (EmptyString <> EmptyString)).
Qed.

Lemma no_address_untouched_witness :
  RemoveAddressPattern "Some content without address"
  = "Some content without address"
  /\ ExtractTitle "Some content without address" "@channel" = "@channel".
Proof.
  apply (no_address_untouched "Some content without address" "@channel").
  reflexivity.
Defined.

Lemma replace_matches_deletes {St : Type} (r : regex)
    (f : string -> list string -> St -> string * St) (skip : nat)
    (s : string) (st : St) :
  (forall m caps st0, (f m caps st0).1 = EmptyString) ->
  list_ascii_of_string (replace_matches r f skip s st).1
    `sublist_of` list_ascii_of_string s.
Proof.
  intros Hf. revert skip st. induction s as [|c s IH]; intros skip st.
  - reflexivity.
  - cbn [replace_matches list_ascii_of_string].
    destruct skip as [|n]; [|by apply sublist_cons].
    destruct (match_at r (String c s)) as [[rest caps]|].
    + destruct (_ - _)%nat as [|n].
      * specialize (IH O st).
        destruct (replace_matches r f 0 s st) as [t st1].
        cbn [fst list_ascii_of_string] in *. by apply sublist_skip.
      * specialize (Hf (consumed (String c s) rest) caps st).
        destruct (f (consumed (String c s) rest) caps st) as [out st1].
        cbn [fst] in Hf. subst out.
        specialize (IH n st1).
        destruct (replace_matches r f n s st1) as [t st2].
        cbn [fst] in *. rewrite sapp_nil_l. by apply sublist_cons.
    + specialize (IH O st).
      destruct (replace_matches r f 0 s st) as [t st1].
      cbn [fst list_ascii_of_string] in *. by apply sublist_skip.
Qed.

(** X23: [RemoveAddressPattern] only deletes: what it returns is the
    content with some bytes left out, in the same order, and so is not
    longer than the content. *)
Theorem RemoveAddressPattern_only_deletes (content : string) :
  list_ascii_of_string (RemoveAddressPattern content)
    `sublist_of` list_ascii_of_string content
  /\ (String.length (RemoveAddressPattern content) <= String.length content)%nat.
Proof.
  assert (list_ascii_of_string (RemoveAddressPattern content)
            `sublist_of` list_ascii_of_string content) as Hsub.
  { unfold RemoveAddressPattern, ReplaceAllString.
    by apply replace_matches_deletes. }
  split; [exact Hsub|].
  apply sublist_length in Hsub.
  assert (forall s, length (list_ascii_of_string s) = String.length s) as Hlen.
  { intros s. induction s as [|c s IH]; [reflexivity|]. simpl. by rewrite IH. }
  by rewrite !Hlen in Hsub.
Qed.

(** ** The image list of the front matter *)

Lemma quoted_app (n x : string) :
  quoted n +:+ x = str1 DQ +:+ n +:+ str1 DQ +:+ x.
Proof. unfold quoted. by rewrite !sapp_assoc. Qed.

Lemma write_images_join (i : nat) (names : list string) :
  write_images i names
  = (if (0 <? i)%nat && (0 <? length names)%nat then ", " else EmptyString)
    +:+ String.concat ", " (map quoted names).
Proof.
  revert i. induction names as [|n names IH]; intros i.
  - by rewrite andb_false_r.
  - cbn [write_images]. rewrite (IH (S i)).
    replace (0 <? length (n :: names))%nat with true by reflexivity.
    rewrite andb_true_r.
    destruct names as [|n' names].
    + cbn [map String.concat length Nat.ltb Nat.leb andb].
      by rewrite sapp_nil_l, sapp_nil_r.
    + replace (0 <? S i)%nat with true by reflexivity.
      replace (0 <? length (n' :: names))%nat with true by reflexivity.
      cbn [andb].
      change (String.concat ", " (map quoted (n :: n' :: names)))
        with (quoted n +:+ ", "
              +:+ String.concat ", " (map quoted (n' :: names))).
      by rewrite quoted_app.
Qed.

(** X24: the [images] array of the front matter holds the image names in
    the order of the post, each between double quotes, with a comma and a
    space between two of them and nothing after the last. *)
Theorem BuildFrontMatter_image_list (post : Post) :
  ImageNames post <> [] ->
  BuildFrontMatter post
  = front_matter_head post +:+ str1 LF
    +:+ extra_section (String.concat ", " (map quoted (ImageNames post)))
    +:+ closing_marker.
Proof.
  intros Hne. rewrite BuildFrontMatter_images by done.
  by rewrite write_images_join, sapp_nil_l.
Qed.

Lemma BuildFrontMatter_image_list_witness :
  let post :=
    mkPost 456 "Post with Images" "Content" (mkTime 2024 2 20 15 45 0 0)
      ["image_0.jpg"; "image_1.png"] in
  BuildFrontMatter post
  = front_matter_head post +:+ str1 LF
    +:+ extra_section (String.concat ", " (map quoted (ImageNames post)))
    +:+ closing_marker.
Proof.
  apply (BuildFrontMatter_image_list
           (mkPost 456 "Post with Images" "Content"
              (mkTime 2024 2 20 15 45 0 0)
              ["image_0.jpg"; "image_1.png"])).
  discriminate.
Defined.

(** ** The markup transformer on one element *)

(** The replacement loop: over a prefix without the first byte of the
    expression, and over one byte where the first literal does not match. *)
Lemma replace_matches_copy {St : Type} (a : ascii) (l : string) (r2 : regex)
    (f : string -> list string -> St -> string * St) (u v : string) (st : St) :
  all_chars (differs a) u = true ->
  replace_matches (RSeq (RLit (String a l)) r2) f O (u +:+ v) st
  = ((u +:+ (replace_matches (RSeq (RLit (String a l)) r2) f O v st).1),
     (replace_matches (RSeq (RLit (String a l)) r2) f O v st).2).
Proof.
  induction u as [|c u IH]; intros Hu.
  - rewrite !sapp_nil_l. by destruct (replace_matches _ _ _ v st).
  - cbn [all_chars] in Hu. apply andb_prop in Hu as [Hc Hu].
    rewrite sapp_cons, replace_matches_no_match.
    2:{ unfold match_at. rewrite rmatch_seq, rmatch_lit, strip_prefix_cons.
        unfold differs in Hc. rewrite Ascii.eqb_sym in Hc.
        by destruct (Ascii.eqb a c). }
    rewrite (IH Hu). cbn. by rewrite sapp_cons.
Qed.

Lemma replace_matches_step {St : Type} (lit : string) (r2 : regex)
    (f : string -> list string -> St -> string * St) (c : ascii) (v : string)
    (st : St) :
  strip_prefix lit (String c v) = None ->
  replace_matches (RSeq (RLit lit) r2) f O (String c v) st
  = (String c (replace_matches (RSeq (RLit lit) r2) f O v st).1,
     (replace_matches (RSeq (RLit lit) r2) f O v st).2).
Proof.
  intros Hp. rewrite replace_matches_no_match.
  - by destruct (replace_matches _ _ _ v st).
  - unfold match_at. by rewrite rmatch_seq, rmatch_lit, Hp.
Qed.

(** The lazy star goes over the bytes at which what follows it cannot
    match, and stops where it can. *)
Lemma all_chars_elem (p : ascii -> bool) (s : string) (c : ascii) :
  all_chars p s = true -> c ∈ list_ascii_of_string s -> p c = true.
Proof.
  induction s as [|a s IH]; cbn; [by intros _ ?%elem_of_nil|].
  intros [Ha Hs]%andb_prop [->|Hin]%elem_of_cons; [done|by apply IH].
Qed.

Lemma lazy_star_pass {R : Type} (p : ascii -> bool) (u v : string)
    (k : string -> option R) :
  all_chars p u = true ->
  (forall c t, c ∈ list_ascii_of_string u -> k (String c t) = None) ->
  lazy_star p (u +:+ v) k = lazy_star p v k.
Proof.
  intros Hu Hk. induction u as [|c u IH]; [by rewrite sapp_nil_l|].
  cbn [all_chars] in Hu. apply andb_prop in Hu as [Hc Hu].
  rewrite sapp_cons. cbn [lazy_star].
  rewrite (Hk c _) by (cbn; by left). rewrite Hc.
  apply IH; [exact Hu|]. intros c' t Hin. apply Hk. cbn. by right.
Qed.

Lemma lazy_star_here {R : Type} (p : ascii -> bool) (v : string)
    (k : string -> option R) (x : R) :
  k v = Some x -> lazy_star p v k = Some x.
Proof. intros Hk. destruct v; cbn [lazy_star]; by rewrite Hk. Qed.

Lemma lazy_star_body {R : Type} (body v : string)
    (k : string -> option R) :
  all_chars (differs "<") body = true ->
  (forall c t, differs "<" c = true -> k (String c t) = None) ->
  lazy_star any_char (body +:+ v) k = lazy_star any_char v k.
Proof.
  intros Hb Hk. apply lazy_star_pass.
  - eapply all_chars_impl; [|exact Hb]. done.
  - intros c t Hin. apply Hk. by apply (all_chars_elem _ body).
Qed.

(** An expression whose first literal starts with [<] and matches neither
    tag of an element finds nothing in a text with that element and no
    other [<]. *)
Lemma replace_matches_element {St : Type} (l : string) (r2 : regex)
    (f : string -> list string -> St -> string * St)
    (o c pre body post : string) (st : St) :
  all_chars (differs "<") pre = true ->
  all_chars (differs "<") (o +:+ body) = true ->
  all_chars (differs "<") (c +:+ post) = true ->
  (forall rest, strip_prefix (String "<" l) (String "<" (o +:+ rest)) = None) ->
  (forall rest, strip_prefix (String "<" l) (String "<" (c +:+ rest)) = None) ->
  replace_matches (RSeq (RLit (String "<" l)) r2) f O
    (pre +:+ element o c body +:+ post) st
  = (pre +:+ element o c body +:+ post, st).
Proof.
  intros Hpre Hbody Hpost Hopen Hclose. unfold element.
  rewrite replace_matches_copy by done.
  rewrite sapp_cons, !sapp_assoc, sapp_cons.
  rewrite replace_matches_step by apply Hopen.
  rewrite <- (sapp_assoc o body).
  rewrite replace_matches_copy by done.
  rewrite replace_matches_step by apply Hclose.
  rewrite replace_matches_absent by done.
  reflexivity.
Qed.

(** The element is what the expression [<tag>([\s\S]*?)</tag>] matches,
    with the body as its group. *)
Lemma match_at_element (o c body post : string) :
  all_chars (differs "<") body = true ->
  match_at (RSeq (RLit (String "<" o))
              (RSeq (RGroup (RStarLazy any_char)) (RLit (String "<" c))))
    (element o c body +:+ post)
  = Some (post, [body]).
Proof.
  intros Hb. unfold match_at, element.
  rewrite rmatch_seq, rmatch_lit.
  rewrite sapp_cons, !sapp_assoc, <- sapp_cons, strip_prefix_app.
  rewrite rmatch_seq, rmatch_group, rmatch_star_lazy.
  rewrite lazy_star_body; [|exact Hb|].
  2:{ intros a t Ha. rewrite rmatch_lit, strip_prefix_cons.
      unfold differs in Ha. rewrite Ascii.eqb_sym in Ha.
      by destruct (Ascii.eqb "<" a). }
  erewrite lazy_star_here; [reflexivity|].
  rewrite rmatch_lit, sapp_cons, <- sapp_cons, strip_prefix_app. cbn [app].
  by rewrite consumed_app.
Qed.

Lemma find_match_element (o c body : string) :
  all_chars (differs "<") body = true ->
  find_match (RSeq (RLit (String "<" o))
                (RSeq (RGroup (RStarLazy any_char)) (RLit (String "<" c))))
    (element o c body)
  = Some (element o c body, [body]).
Proof.
  intros Hb. apply find_match_here.
  rewrite <- (sapp_nil_r (element o c body)) at 1.
  by apply match_at_element.
Qed.

Lemma replace_matches_at_element {St : Type}
    (f : string -> list string -> St -> string * St)
    (o c pre body post : string) (st : St) :
  all_chars (differs "<") pre = true ->
  all_chars (differs "<") body = true ->
  all_chars (differs "<") post = true ->
  replace_matches
    (RSeq (RLit (String "<" o))
       (RSeq (RGroup (RStarLazy any_char)) (RLit (String "<" c))))
    f O (pre +:+ element o c body +:+ post) st
  = (pre +:+ (f (element o c body) [body] st).1 +:+ post,
     (f (element o c body) [body] st).2).
Proof.
  intros Hpre Hbody Hpost.
  rewrite replace_matches_copy by done.
  pose proof (match_at_element o c body post Hbody) as Hm.
  unfold element in *. rewrite sapp_cons in *.
  rewrite (replace_matches_hit _ _ _ _ _ _ _ Hm).
  destruct (f _ [body] st) as [out st1].
  rewrite replace_matches_absent by done. reflexivity.
Qed.

(** *** A spoiler *)

Lemma ProcessContentIn_spoiler
    (order : gmap string string -> list (string * string))
    (pre body post : string) :
  iteration_order order ->
  all_chars (differs "<") (pre +:+ body +:+ post) = true ->
  all_chars (differs LF) (pre +:+ body +:+ post) = true ->
  ProcessContentIn order (pre +:+ spoiler body +:+ post)
  = pre +:+ spoiler_rendered body +:+ post.
Proof.
  intros Horder Hlt Hlf.
  rewrite !all_chars_app in Hlt. rewrite !all_chars_app in Hlf.
  apply andb_prop in Hlt as [Hpre [Hbody Hpost]%andb_prop].
  apply andb_prop in Hlf as [Lpre [Lbody Lpost]%andb_prop].
  unfold ProcessContentIn.
  destruct (decide _) as [Hempty|_].
  { destruct pre; discriminate Hempty. }
  assert (extract_stage (pre +:+ spoiler body +:+ post)
          = (pre +:+ spoiler body +:+ post, ∅)) as ->.
  { unfold extract_stage, ReplaceAllStringFunc, spoiler.
    change codeRegex
      with (RSeq (RLit (String "<" "code>"))
              (RSeq (RGroup (RStarLazy any_char)) (RLit "</code>"))).
    rewrite replace_matches_element
      by (done || by rewrite all_chars_app, ?Hbody, ?Hpost).
    cbn [fst].
    change codeBlockRegex
      with (RSeq (RLit (String "<"
                          ("pre><code class=" +:+ String DQ "language-")))
              (RSeq (RGroup (RStarLazy not_newline))
                 (RSeq (RLit (String DQ ">"))
                    (RSeq (RGroup (RStarLazy any_char))
                       (RLit "</code></pre>"))))).
    rewrite replace_matches_element
      by (done || by rewrite all_chars_app, ?Hbody, ?Hpost).
    change blockquoteRegex
      with (RSeq (RLit (String "<" "blockquote>"))
              (RSeq (RGroup (RStarLazy any_char)) (RLit "</blockquote>"))).
    rewrite replace_matches_element
      by (done || by rewrite all_chars_app, ?Hbody, ?Hpost).
    assert (all_chars (differs LF)
              (pre +:+ element "spoiler>" "/spoiler>" body +:+ post) = true)
      as Hno.
    { unfold element. rewrite all_chars_app, sapp_cons. cbn [all_chars].
      by rewrite !all_chars_app, Lpre, Lbody, Lpost. }
    unfold strings_ReplaceAll.
    rewrite (replace_from_none _ (str1 LF))
      by (by apply (strings_Contains_missing LF)).
    rewrite replace_from_none by (by apply (strings_Contains_missing LF)).
    reflexivity. }
  pose proof (Horder ∅) as Hnil. rewrite map_to_list_empty in Hnil.
  apply Permutation_nil_r in Hnil. rewrite Hnil. cbn [reinsert foldl].
  unfold ReplaceAllString, spoiler.
  change spoilerRegex
    with (RSeq (RLit (String "<" "spoiler>"))
            (RSeq (RGroup (RStarLazy any_char))
               (RLit (String "<" "/spoiler>")))).
  rewrite replace_matches_at_element by done. cbn [fst].
  unfold spoiler_span, spoiler_rendered. cbn [nth].
  by rewrite !sapp_assoc.
Qed.

(** X25: in a one-line content whose only markup is one spoiler element,
    the element becomes a [span] of class [spoiler] around the same text,
    and the text before and after it stays as it is. *)
Theorem ProcessContent_spoiler (pre body post out : string) :
  strings_Contains (pre +:+ body +:+ post) "<" = false ->
  strings_Contains (pre +:+ body +:+ post) (str1 LF) = false ->
  (ProcessContent (pre +:+ spoiler body +:+ post) out
   <-> out = pre +:+ spoiler_rendered body +:+ post).
Proof.
  intros Hlt%strings_Contains_char Hlf%strings_Contains_char. split.
  - intros (order & Horder & ->). by apply ProcessContentIn_spoiler.
  - intros ->. exists map_to_list. split; [apply map_to_list_order|].
    symmetry. by apply ProcessContentIn_spoiler; [apply map_to_list_order|..].
Qed.

Lemma ProcessContent_spoiler_witness :
  ProcessContent
    ("This is a " +:+ spoiler "hidden message" +:+ " in the text")
    ("This is a " +:+ spoiler_rendered "hidden message" +:+ " in the text")
  <-> "This is a " +:+ spoiler_rendered "hidden message" +:+ " in the text"
      = "This is a " +:+ spoiler_rendered "hidden message" +:+ " in the text".
Proof.
  apply (ProcessContent_spoiler "This is a " "hidden message" " in the text"
           ("This is a " +:+ spoiler_rendered "hidden message"
            +:+ " in the text")); reflexivity.
Defined.

(** *** A quotation *)

(** The line breaks of a quotation, once [<br>], start no spoiler. *)
Lemma spoiler_after_breaks {St : Type}
    (f : string -> list string -> St -> string * St) (body v : string)
    (st : St) :
  all_chars (differs "<") body = true ->
  replace_matches spoilerRegex f O
    (strings_ReplaceAll body (str1 LF) "<br>" +:+ v) st
  = (strings_ReplaceAll body (str1 LF) "<br>"
     +:+ (replace_matches spoilerRegex f O v st).1,
     (replace_matches spoilerRegex f O v st).2).
Proof.
  change spoilerRegex
    with (RSeq (RLit (String "<" "spoiler>"))
            (RSeq (RGroup (RStarLazy any_char)) (RLit "</spoiler>"))).
  unfold strings_ReplaceAll, str1.
  induction body as [|a body IH]; intros Hb.
  - cbn [replace_from]. rewrite !sapp_nil_l.
    by destruct (replace_matches _ _ _ v st).
  - cbn [all_chars] in Hb. apply andb_prop in Hb as [Ha Hb].
    cbn [replace_from]. rewrite strip_prefix_cons.
    destruct (Ascii.eqb LF a) eqn:Hlf.
    + cbn [strip_prefix String.length]. rewrite !sapp_assoc.
      change ("<br>" +:+ replace_from 0 body (String LF EmptyString) "<br>"
              +:+ v)
        with (String "<" ("br>" +:+ replace_from 0 body
                                      (String LF EmptyString) "<br>" +:+ v)).
      rewrite replace_matches_step by reflexivity.
      rewrite replace_matches_copy by reflexivity.
      rewrite (IH Hb). cbn [fst snd]. reflexivity.
    + rewrite sapp_cons.
      rewrite replace_matches_step.
      2:{ rewrite strip_prefix_cons. unfold differs in Ha.
          rewrite Ascii.eqb_sym in Ha. by destruct (Ascii.eqb "<" a). }
      rewrite (IH Hb). cbn [fst snd]. by rewrite sapp_cons.
Qed.

Lemma spoiler_blockquote {St : Type}
    (f : string -> list string -> St -> string * St) (body post : string)
    (st : St) :
  all_chars (differs "<") body = true ->
  all_chars (differs "<") post = true ->
  replace_matches spoilerRegex f O
    (blockquote (strings_ReplaceAll body (str1 LF) "<br>") +:+ post) st
  = (blockquote (strings_ReplaceAll body (str1 LF) "<br>") +:+ post, st).
Proof.
  intros Hbody Hpost.
  set (body' := strings_ReplaceAll body (str1 LF) "<br>").
  assert (blockquote body' +:+ post
          = String "<" ("blockquote>"
                        +:+ (body' +:+ String "<" ("/blockquote>" +:+ post))))
    as ->.
  { unfold blockquote, element. rewrite sapp_cons, !sapp_assoc.
    by rewrite sapp_cons. }
  change spoilerRegex
    with (RSeq (RLit (String "<" "spoiler>"))
            (RSeq (RGroup (RStarLazy any_char)) (RLit "</spoiler>"))).
  rewrite replace_matches_step by reflexivity.
  rewrite (replace_matches_copy "<" _ _ _ "blockquote>") by reflexivity.
  change (RSeq (RLit (String "<" "spoiler>"))
            (RSeq (RGroup (RStarLazy any_char)) (RLit "</spoiler>")))
    with spoilerRegex.
  unfold body'. rewrite spoiler_after_breaks by done.
  change spoilerRegex
    with (RSeq (RLit (String "<" "spoiler>"))
            (RSeq (RGroup (RStarLazy any_char)) (RLit "</spoiler>"))).
  rewrite replace_matches_step by reflexivity.
  rewrite replace_matches_absent by (by rewrite all_chars_app, Hpost).
  reflexivity.
Qed.

Lemma ProcessContentIn_blockquote
    (order : gmap string string -> list (string * string))
    (pre body post : string) :
  iteration_order order ->
  all_chars (differs "<") (pre +:+ body +:+ post) = true ->
  all_chars (differs LF) (pre +:+ post) = true ->
  ProcessContentIn order (pre +:+ blockquote body +:+ post)
  = pre +:+ blockquote (strings_ReplaceAll body (str1 LF) "<br>") +:+ post.
Proof.
  intros Horder Hlt Hlf.
  rewrite !all_chars_app in Hlt. rewrite all_chars_app in Hlf.
  apply andb_prop in Hlt as [Hpre [Hbody Hpost]%andb_prop].
  apply andb_prop in Hlf as [Lpre Lpost].
  unfold ProcessContentIn.
  destruct (decide _) as [Hempty|_].
  { destruct pre; discriminate Hempty. }
  set (body' := strings_ReplaceAll body (str1 LF) "<br>").
  assert (extract_stage (pre +:+ blockquote body +:+ post)
          = (pre +:+ blockquote body' +:+ post, ∅)) as ->.
  { unfold extract_stage, ReplaceAllStringFunc, blockquote.
    change codeRegex
      with (RSeq (RLit (String "<" "code>"))
              (RSeq (RGroup (RStarLazy any_char)) (RLit "</code>"))).
    rewrite replace_matches_element
      by (done || by rewrite all_chars_app, ?Hbody, ?Hpost).
    cbn [fst].
    change codeBlockRegex
      with (RSeq (RLit (String "<"
                          ("pre><code class=" +:+ String DQ "language-")))
              (RSeq (RGroup (RStarLazy not_newline))
                 (RSeq (RLit (String DQ ">"))
                    (RSeq (RGroup (RStarLazy any_char))
                       (RLit "</code></pre>"))))).
    rewrite replace_matches_element
      by (done || by rewrite all_chars_app, ?Hbody, ?Hpost).
    change blockquoteRegex
      with (RSeq (RLit (String "<" "blockquote>"))
              (RSeq (RGroup (RStarLazy any_char))
                 (RLit (String "<" "/blockquote>")))).
    rewrite replace_matches_at_element by done. cbn [fst snd].
    unfold join_blockquote, FindStringSubmatch.
    change blockquoteRegex
      with (RSeq (RLit (String "<" "blockquote>"))
              (RSeq (RGroup (RStarLazy any_char))
                 (RLit (String "<" "/blockquote>")))).
    rewrite find_match_element by done. cbn [nth Nat.sub].
    fold body'.
    change ("<blockquote>" +:+ body' +:+ "</blockquote>")
      with (element "blockquote>" "/blockquote>" body').
    assert (all_chars (differs LF)
              (pre +:+ element "blockquote>" "/blockquote>" body' +:+ post)
            = true) as Hno.
    { unfold element. rewrite all_chars_app, sapp_cons. cbn [all_chars].
      rewrite !all_chars_app, Lpre, Lpost. unfold body'.
      rewrite (replace_char_gone LF) by reflexivity. reflexivity. }
    unfold strings_ReplaceAll at 1 2.
    rewrite (replace_from_none _ (str1 LF))
      by (by apply (strings_Contains_missing LF)).
    rewrite replace_from_none by (by apply (strings_Contains_missing LF)).
    reflexivity. }
  pose proof (Horder ∅) as Hnil. rewrite map_to_list_empty in Hnil.
  apply Permutation_nil_r in Hnil. rewrite Hnil. cbn [reinsert foldl].
  unfold ReplaceAllString.
  change spoilerRegex
    with (RSeq (RLit (String "<" "spoiler>"))
            (RSeq (RGroup (RStarLazy any_char)) (RLit "</spoiler>"))).
  rewrite replace_matches_copy by done. cbn [fst]. f_equal.
  change (RSeq (RLit (String "<" "spoiler>"))
            (RSeq (RGroup (RStarLazy any_char)) (RLit "</spoiler>")))
    with spoilerRegex.
  unfold body'. by rewrite spoiler_blockquote.
Qed.

(** X26: in a content whose only markup is one quotation, with the text
    around it on one line, the newlines of the quotation become [<br>] and
    get no hard line break; the tags and the text around the quotation stay
    as they are. *)
Theorem ProcessContent_blockquote (pre body post out : string) :
  strings_Contains (pre +:+ body +:+ post) "<" = false ->
  strings_Contains (pre +:+ post) (str1 LF) = false ->
  (ProcessContent (pre +:+ blockquote body +:+ post) out
   <-> out = pre +:+ blockquote (strings_ReplaceAll body (str1 LF) "<br>")
             +:+ post).
Proof.
  intros Hlt%strings_Contains_char Hlf%strings_Contains_char. split.
  - intros (order & Horder & ->). by apply ProcessContentIn_blockquote.
  - intros ->. exists map_to_list. split; [apply map_to_list_order|].
    symmetry.
    by apply ProcessContentIn_blockquote; [apply map_to_list_order|..].
Qed.

Lemma ProcessContent_blockquote_witness :
  ProcessContent
    (EmptyString
     +:+ blockquote ("This is a quote" +:+ str1 LF +:+ "with multiple lines")
     +:+ EmptyString)
    (blockquote "This is a quote<br>with multiple lines")
  <-> blockquote "This is a quote<br>with multiple lines"
      = EmptyString
        +:+ blockquote
              (strings_ReplaceAll
                 ("This is a quote" +:+ str1 LF +:+ "with multiple lines")
                 (str1 LF) "<br>")
        +:+ EmptyString.
Proof.
  apply (ProcessContent_blockquote EmptyString
           ("This is a quote" +:+ str1 LF +:+ "with multiple lines")
           EmptyString (blockquote "This is a quote<br>with multiple lines"));
    reflexivity.
Defined.

(** *** A fenced block *)

Lemma fenced_flat (language body post : string) :
  fenced language body +:+ post
  = String "<"
      ("pre>"
       +:+ String "<"
             (("code class=" +:+ String DQ "language-" +:+ language
               +:+ String DQ ">" +:+ body)
              +:+ String "<"
                    ("/code>" +:+ String "<" ("/pre>" +:+ post)))).
Proof. unfold fenced. rewrite !sapp_assoc. reflexivity. Qed.

Lemma language_char_lt (language : string) :
  all_chars language_char language = true ->
  all_chars (differs "<") language = true.
Proof.
  apply all_chars_impl. intros c Hc.
  unfold language_char in Hc. by apply andb_prop in Hc as [_ Hc].
Qed.

Lemma match_at_fenced (language body post : string) :
  all_chars language_char language = true ->
  all_chars (differs "<") body = true ->
  match_at codeBlockRegex (fenced language body +:+ post)
  = Some (post, [language; body]).
Proof.
  intros Hl Hb. unfold match_at, codeBlockRegex, fenced.
  rewrite rmatch_seq, rmatch_lit, !sapp_assoc.
  rewrite <- (sapp_assoc "<pre><code class="), strip_prefix_app.
  rewrite rmatch_seq, rmatch_group, rmatch_star_lazy.
  rewrite (lazy_star_pass not_newline).
  2:{ eapply all_chars_impl; [|exact Hl]. intros c Hc.
      unfold language_char in Hc.
      apply andb_prop in Hc as [[_ Hc]%andb_prop _]. exact Hc. }
  2:{ intros c t Hin. rewrite rmatch_seq, rmatch_lit, strip_prefix_cons.
      pose proof (all_chars_elem _ _ _ Hl Hin) as Hc.
      unfold language_char in Hc.
      apply andb_prop in Hc as [[Hc _]%andb_prop _].
      unfold differs in Hc. rewrite Ascii.eqb_sym in Hc.
      by destruct (Ascii.eqb DQ c). }
  erewrite lazy_star_here; [reflexivity|].
  rewrite rmatch_seq, rmatch_lit.
  change (String DQ ">" +:+ body +:+ "</code></pre>" +:+ post)
    with (String DQ ">" +:+ (body +:+ "</code></pre>" +:+ post)).
  rewrite strip_prefix_app.
  rewrite rmatch_seq, rmatch_group, rmatch_star_lazy.
  rewrite lazy_star_body; [|exact Hb|].
  2:{ intros c t Hc. rewrite rmatch_lit, strip_prefix_cons.
      unfold differs in Hc. rewrite Ascii.eqb_sym in Hc.
      by destruct (Ascii.eqb "<" c). }
  erewrite lazy_star_here; [reflexivity|].
  rewrite rmatch_lit, strip_prefix_app. cbn [app].
  rewrite consumed_app.
  change (language +:+ String DQ ">" +:+ body +:+ "</code></pre>" +:+ post)
    with (language +:+ (String DQ ">" +:+ body +:+ "</code></pre>" +:+ post)).
  by rewrite consumed_app.
Qed.

Lemma find_match_fenced (language body : string) :
  all_chars language_char language = true ->
  all_chars (differs "<") body = true ->
  find_match codeBlockRegex (fenced language body)
  = Some (fenced language body, [language; body]).
Proof.
  intros Hl Hb. apply find_match_here.
  rewrite <- (sapp_nil_r (fenced language body)) at 1.
  by apply match_at_fenced.
Qed.

Lemma drop_while_chars (p q : ascii -> bool) (s : string) :
  all_chars p s = true -> all_chars p (drop_while q s) = true.
Proof.
  induction s as [|c s IH]; [done|]. cbn [all_chars drop_while].
  intros [Hc Hs]%andb_prop. destruct (q c); [by apply IH|].
  cbn [all_chars]. by rewrite Hc, Hs.
Qed.

Lemma strings_TrimRight_LF_chars (p : ascii -> bool) (s : string) :
  all_chars p s = true -> all_chars p (strings_TrimRight_LF s) = true.
Proof.
  intros Hs. unfold strings_TrimRight_LF.
  by apply string_rev_chars, drop_while_chars, string_rev_chars.
Qed.

(** [strings.ReplaceAll] over a prefix without the first byte of the old
    text, at an occurrence, and over the bytes of one. *)
Lemma replace_from_skip (u v old new : string) :
  replace_from (String.length u) (u +:+ v) old new = replace_from O v old new.
Proof.
  induction u as [|c u IH]; [by rewrite sapp_nil_l|].
  rewrite sapp_cons. cbn [String.length replace_from]. exact IH.
Qed.

Lemma replace_from_copy (a : ascii) (old' u v new : string) :
  all_chars (differs a) u = true ->
  replace_from O (u +:+ v) (String a old') new
  = u +:+ replace_from O v (String a old') new.
Proof.
  induction u as [|c u IH]; [by rewrite !sapp_nil_l|].
  cbn [all_chars]. intros [Hc Hu]%andb_prop.
  rewrite !sapp_cons. cbn [replace_from]. rewrite strip_prefix_cons.
  unfold differs in Hc. rewrite Ascii.eqb_sym in Hc.
  destruct (Ascii.eqb a c); [done|]. by rewrite (IH Hu).
Qed.

Lemma replace_from_hit (a : ascii) (old' v new : string) :
  replace_from O (String a old' +:+ v) (String a old') new
  = new +:+ replace_from O v (String a old') new.
Proof.
  rewrite sapp_cons. cbn [replace_from].
  rewrite <- sapp_cons, strip_prefix_app. by rewrite replace_from_skip.
Qed.

(** The tags of the fenced block start no inline [code] element. *)
Lemma codeRegex_fenced {St : Type}
    (f : string -> list string -> St -> string * St)
    (pre language body post : string) (st : St) :
  all_chars (differs "<") pre = true ->
  all_chars language_char language = true ->
  all_chars (differs "<") body = true ->
  all_chars (differs "<") post = true ->
  replace_matches codeRegex f O (pre +:+ fenced language body +:+ post) st
  = (pre +:+ fenced language body +:+ post, st).
Proof.
  intros Hpre Hl Hbody Hpost.
  pose proof (language_char_lt language Hl) as Hl'.
  change codeRegex
    with (RSeq (RLit (String "<" "code>"))
            (RSeq (RGroup (RStarLazy any_char)) (RLit "</code>"))).
  rewrite replace_matches_copy by done.
  rewrite fenced_flat.
  rewrite replace_matches_step by reflexivity.
  rewrite replace_matches_copy by reflexivity.
  rewrite replace_matches_step.
  2:{ rewrite !sapp_assoc. reflexivity. }
  rewrite replace_matches_copy.
  2:{ rewrite !all_chars_app, Hl', Hbody. reflexivity. }
  rewrite replace_matches_step by reflexivity.
  rewrite replace_matches_copy by reflexivity.
  rewrite replace_matches_step by reflexivity.
  rewrite replace_matches_absent by (by rewrite all_chars_app, Hpost).
  reflexivity.
Qed.

Lemma extract_block_fenced (language body : string)
    (codeIndex : Z) (m : gmap string string) :
  all_chars language_char language = true ->
  all_chars (differs "<") body = true ->
  extract_block (fenced language body) (codeIndex, m)
  = (placeholder_of codeIndex,
     (codeIndex + 1,
      <[placeholder_of codeIndex :=
          rendered language (strings_TrimRight_LF body)]> m)).
Proof.
  intros Hl Hb. unfold extract_block, FindStringSubmatch.
  rewrite find_match_fenced by done. reflexivity.
Qed.

Lemma extract_stage_fenced (pre language body post : string) :
  all_chars language_char language = true ->
  all_chars (differs "<") pre = true ->
  all_chars (differs "<") body = true ->
  all_chars (differs "<") post = true ->
  all_chars (differs LF) pre = true ->
  all_chars (differs LF) post = true ->
  extract_stage (pre +:+ fenced language body +:+ post)
  = (pre +:+ placeholder_of 0 +:+ post,
     {[placeholder_of 0 := rendered language (strings_TrimRight_LF body)]}).
Proof.
  intros Hl Hpre Hbody Hpost Lpre Lpost.
  unfold extract_stage, ReplaceAllStringFunc.
  rewrite codeRegex_fenced by done. cbn [fst].
  change codeBlockRegex
    with (RSeq (RLit (String "<"
                        ("pre><code class=" +:+ String DQ "language-")))
            (RSeq (RGroup (RStarLazy not_newline))
               (RSeq (RLit (String DQ ">"))
                  (RSeq (RGroup (RStarLazy any_char))
                     (RLit "</code></pre>"))))).
  rewrite replace_matches_copy by done.
  pose proof (match_at_fenced language body post Hl Hbody) as Hm.
  set (u := "pre><code class=" +:+ String DQ "language-" +:+ language
            +:+ String DQ ">" +:+ body +:+ "</code></pre>").
  change (fenced language body) with (String "<" u) in *.
  rewrite sapp_cons in *.
  change (RSeq (RLit (String "<"
                        ("pre><code class=" +:+ String DQ "language-")))
            (RSeq (RGroup (RStarLazy not_newline))
               (RSeq (RLit (String DQ ">"))
                  (RSeq (RGroup (RStarLazy any_char))
                     (RLit "</code></pre>")))))
    with codeBlockRegex.
  rewrite (replace_matches_hit _ _ _ _ _ _ _ Hm).
  change (String "<" u) with (fenced language body).
  rewrite extract_block_fenced by done.
  change codeBlockRegex
    with (RSeq (RLit (String "<"
                        ("pre><code class=" +:+ String DQ "language-")))
            (RSeq (RGroup (RStarLazy not_newline))
               (RSeq (RLit (String DQ ">"))
                  (RSeq (RGroup (RStarLazy any_char))
                     (RLit "</code></pre>"))))).
  rewrite replace_matches_absent by done. cbn [fst snd].
  assert (all_chars (differs "<") (pre +:+ placeholder_of 0 +:+ post) = true)
    as Hlt by (by rewrite !all_chars_app, Hpre, Hpost).
  assert (all_chars (differs LF) (pre +:+ placeholder_of 0 +:+ post) = true)
    as Hlf by (by rewrite !all_chars_app, Lpre, Lpost).
  change blockquoteRegex
    with (RSeq (RLit (String "<" "blockquote>"))
            (RSeq (RGroup (RStarLazy any_char)) (RLit "</blockquote>"))).
  rewrite replace_matches_absent by done. cbn [fst].
  unfold strings_ReplaceAll.
  rewrite (replace_from_none _ (str1 LF))
    by (by apply (strings_Contains_missing LF)).
  rewrite replace_from_none by (by apply (strings_Contains_missing LF)).
  reflexivity.
Qed.

Lemma ProcessContentIn_fenced
    (order : gmap string string -> list (string * string))
    (pre language body post : string) :
  iteration_order order ->
  all_chars language_char language = true ->
  all_chars (differs "<") (pre +:+ body +:+ post) = true ->
  all_chars (differs LF) (pre +:+ post) = true ->
  all_chars (differs "_") (pre +:+ post) = true ->
  ProcessContentIn order (pre +:+ fenced language body +:+ post)
  = pre +:+ rendered language (strings_TrimRight_LF body) +:+ post.
Proof.
  intros Horder Hl Hlt Hlf Hus.
  rewrite !all_chars_app in Hlt. rewrite all_chars_app in Hlf.
  rewrite all_chars_app in Hus.
  apply andb_prop in Hlt as [Hpre [Hbody Hpost]%andb_prop].
  apply andb_prop in Hlf as [Lpre Lpost].
  apply andb_prop in Hus as [Upre Upost].
  unfold ProcessContentIn.
  destruct (decide _) as [Hempty|_].
  { destruct pre; discriminate Hempty. }
  rewrite extract_stage_fenced by done.
  pose proof (Horder {[placeholder_of 0 :=
                         rendered language (strings_TrimRight_LF body)]})
    as Hone.
  rewrite map_to_list_singleton in Hone.
  apply Permutation_singleton_r in Hone. rewrite Hone.
  cbn [reinsert foldl fst snd]. unfold strings_ReplaceAll.
  change (placeholder_of 0) with (String "_" "__CODEBLOCK_A___").
  rewrite replace_from_copy by done.
  rewrite replace_from_hit.
  rewrite replace_from_none by (by apply strings_Contains_absent).
  unfold ReplaceAllString.
  change spoilerRegex
    with (RSeq (RLit (String "<" "spoiler>"))
            (RSeq (RGroup (RStarLazy any_char)) (RLit "</spoiler>"))).
  rewrite replace_matches_absent; [reflexivity|].
  pose proof (language_char_lt language Hl) as Hl'.
  unfold rendered.
  rewrite !all_chars_app, Hpre, Hpost, Hl'.
  by rewrite strings_TrimRight_LF_chars.
Qed.

(** X27: in a content whose only markup is one fenced block, with the
    text around it on one line and without an underscore, the block becomes
    a Markdown fence with the language and the body, the body without its
    trailing newlines and otherwise byte for byte: its line breaks get no
    hard break. Every run returns this string. The body holds no [<], as in
    escaped HTML; the language holds no double quote, newline or [<]. *)
Theorem ProcessContent_fenced (pre language body post out : string) :
  all_chars language_char language = true ->
  strings_Contains (pre +:+ body +:+ post) "<" = false ->
  strings_Contains (pre +:+ post) (str1 LF) = false ->
  strings_Contains (pre +:+ post) "_" = false ->
  (ProcessContent (pre +:+ fenced language body +:+ post) out
   <-> out = pre +:+ rendered language (strings_TrimRight_LF body) +:+ post).
Proof.
  intros Hl Hlt%strings_Contains_char Hlf%strings_Contains_char
    Hus%(strings_Contains_char "_").
  split.
  - intros (order & Horder & ->). by apply ProcessContentIn_fenced.
  - intros ->. exists map_to_list. split; [apply map_to_list_order|].
    symmetry. by apply ProcessContentIn_fenced; [apply map_to_list_order|..].
Qed.

Lemma ProcessContent_fenced_witness :
  ProcessContent
    ("Code: "
     +:+ fenced "go" ("package main" +:+ str1 LF +:+ str1 LF
                      +:+ "func main() {}" +:+ str1 LF)
     +:+ " done")
    ("Code: "
     +:+ rendered "go" ("package main" +:+ str1 LF +:+ str1 LF
                        +:+ "func main() {}")
     +:+ " done")
  <-> "Code: "
      +:+ rendered "go" ("package main" +:+ str1 LF +:+ str1 LF
                         +:+ "func main() {}")
      +:+ " done"
      = "Code: "
        +:+ rendered "go"
              (strings_TrimRight_LF
                 ("package main" +:+ str1 LF +:+ str1 LF
                  +:+ "func main() {}" +:+ str1 LF))
        +:+ " done".
Proof.
  apply (ProcessContent_fenced "Code: " "go"
           ("package main" +:+ str1 LF +:+ str1 LF +:+ "func main() {}"
            +:+ str1 LF)
           " done"
           ("Code: "
            +:+ rendered "go" ("package main" +:+ str1 LF +:+ str1 LF
                               +:+ "func main() {}")
            +:+ " done")); reflexivity.
Defined.

(** ** The placeholders of the fenced blocks *)

Lemma byte_val_char (z : Z) : 0 <= z < 256 -> byte_val (byte_char z) = z.
Proof.
  intros Hz. unfold byte_val, byte_char, nat_of_ascii.
  rewrite N_ascii_embedding by lia. lia.
Qed.

(** The lead and continuation bits of UTF-8 are added to the payload. *)
Lemma lor_high (h x : Z) :
  (h = 128 /\ 0 <= x < 64) \/ (h = 192 /\ 0 <= x < 32)
  \/ (h = 224 /\ 0 <= x < 16) ->
  Z.lor h x = h + x.
Proof.
  intros Hx.
  assert (0 <= x < 64) as Hr by lia.
  destruct x as [|p|p]; [rewrite Z.lor_0_r; lia| |lia].
  assert (Z.land h (Z.pos p) = 0) as Hland.
  { do 6 (try (destruct p as [p|p|]; try lia));
      destruct Hx as [[-> ?]|[[-> ?]|[-> ?]]]; try lia; reflexivity. }
  rewrite <- Z.lxor_lor by exact Hland.
  symmetry. by apply Z.add_nocarry_lxor.
Qed.

Lemma rune_of_utf8_of_rune (r : Z) :
  0 <= r < 55296 -> rune_of_utf8 (utf8_of_rune r) = r.
Proof.
  intros Hr. unfold utf8_of_rune.
  destruct (Z.ltb_spec r 0); [lia|].
  destruct (Z.ltb_spec 1114111 r); [lia|].
  destruct (Z.leb_spec 55296 r); [lia|]. cbn [orb andb].
  assert (Z.land r 63 = r mod 64) as Hland
    by (change 63 with (Z.ones 6); by rewrite Z.land_ones).
  assert (Z.shiftr r 6 = r / 64) as Hs6
    by (by rewrite Z.shiftr_div_pow2).
  assert (Z.shiftr r 12 = r / 4096) as Hs12
    by (by rewrite Z.shiftr_div_pow2).
  assert (Z.land (r / 64) 63 = (r / 64) mod 64) as Hland6
    by (change 63 with (Z.ones 6); by rewrite Z.land_ones).
  pose proof (Z.mod_pos_bound r 64 ltac:(lia)) as Hm.
  pose proof (Z.mod_pos_bound (r / 64) 64 ltac:(lia)) as Hm6.
  pose proof (Z.div_mod r 64 ltac:(lia)) as Hd.
  pose proof (Z.div_mod (r / 64) 64 ltac:(lia)) as Hd6.
  assert (r / 64 / 64 = r / 4096) as Hdd
    by (rewrite Z.div_div by lia; reflexivity).
  assert (0 <= r / 64) as Hq by (apply Z.div_pos; lia).
  assert (0 <= r / 4096) as Hq2 by (apply Z.div_pos; lia).
  destruct (Z.leb_spec r 127).
  - cbn [rune_of_utf8]. apply byte_val_char. lia.
  - destruct (Z.leb_spec r 2047).
    + cbn [rune_of_utf8]. rewrite Hs6, Hland.
      assert (r / 64 < 32) by (apply Z.div_lt_upper_bound; lia).
      rewrite !lor_high by lia.
      rewrite !byte_val_char by lia. lia.
    + destruct (Z.leb_spec r 65535); [|lia].
      cbn [rune_of_utf8]. rewrite Hs12, Hs6, Hland, Hland6.
      assert (r / 4096 < 16) by (apply Z.div_lt_upper_bound; lia).
      rewrite !lor_high by lia.
      rewrite !byte_val_char by lia. lia.
Qed.

(** X28: the placeholders of the first 55231 fenced blocks of a content
    differ from one another: two blocks get the same placeholder only if
    they are the same block. *)
Theorem placeholder_of_distinct (i j : Z) :
  0 <= i < 55231 -> 0 <= j < 55231 ->
  (placeholder_of i = placeholder_of j <-> i = j).
Proof.
  intros Hi Hj. split; [|by intros ->].
  intros Heq. unfold placeholder_of, string_of_rune in Heq.
  assert (forall k, 0 <= k < 55231 -> wrap32 (65 + k) = 65 + k) as Hwrap.
  { intros k Hk. unfold wrap32. rewrite Z.mod_small; lia. }
  rewrite !Hwrap in Heq by done.
  apply sapp_inj_r, sapp_inj_l in Heq.
  apply (f_equal rune_of_utf8) in Heq.
  rewrite !rune_of_utf8_of_rune in Heq by lia. lia.
Qed.

Lemma placeholder_of_distinct_witness :
  placeholder_of 0 = placeholder_of 25 <-> 0 = 25.
Proof. apply (placeholder_of_distinct 0 25); lia. Defined.
